(** * Kademlia routing table (swarm/network/kademlia/kademlia.go)

    A shallow embedding of the table of active nodes: the bucket array, the
    proximity-core boundary ([proxLimit], [proxSize]) maintained by
    [setProxLimit], the entry points [On] and [Off], and the closest-node
    query [FindClosest] with its bounded sorted list [nodesByDistance].

    Modelling conventions.
    - Go [int] and [time.Duration] values are integers of [Z]. The counters
      of the table ([count], [proxSize], [proxLimit], the loop indices) move
      by one or by the length of one bucket per step and start at 0, so they
      are far from the 64-bit limits. The configuration values are whatever
      the caller sets: the one sum that has a configuration value as an
      operand, [k.ProxBinSize+curr] in [setProxLimit], is computed with Go's
      wrap-around ([wrap]).
    - A slice access [s[i]] outside [0, len s) panics in Go; the embedding
      makes every such access explicit ([at_index]) and propagates the panic
      through the [outcome] monad.
    - [time.Since(p.LastActive())] reads the clock once per bucket member:
      [On] is given the readings, [now i] being what the clock shows when
      the member at position [i] is examined, and the difference is limited
      to the range of a [time.Duration] as [Time.Sub] limits it ([Since]).
    - Locks, logging and the metrics counters have no effect on the table. *)

From Equations Require Import Equations.
From stdpp Require Import gmap strings list sorting.
From Stdlib Require Import ZArith Lia.

Local Open Scope Z_scope.

(** ** Results of a call: a normal return, a run-time panic, or a loop that
    did not finish within the iterations allotted by the embedding. *)

Inductive outcome (A : Type) : Type :=
| Returned (a : A)
| Panicked
| OutOfFuel.
Arguments Returned {A} a.
Arguments Panicked {A}.
Arguments OutOfFuel {A}.

#[global] Instance outcome_bind : MBind outcome := fun _ _ f m =>
  match m with
  | Returned a => f a
  | Panicked => Panicked
  | OutOfFuel => OutOfFuel
  end.

(** [len s] is Go's [len] on a slice. *)
Definition len {A : Type} (s : list A) : Z := Z.of_nat (length s).

(** [s[i]] with Go's bounds check. *)
Definition at_index {A : Type} (s : list A) (i : Z) : outcome A :=
  if decide (i < 0) then Panicked
  else match s !! Z.to_nat i with
       | Some x => Returned x
       | None => Panicked
       end.

(** [s[i] = x] on an index already checked to be in range. *)
Definition set_index {A : Type} (s : list A) (i : Z) (x : A) : list A :=
  <[Z.to_nat i := x]> s.

(** Case analysis on a value that keeps the equation with the scrutinee. *)
Definition inspect {A : Type} (a : A) : {b : A | a = b} := exist _ a eq_refl.

(** ** Machine integers and durations *)

(** Go's [int] on a 64-bit platform: the values [-2^63 .. 2^63-1]. *)
Definition int_min : Z := -9223372036854775808.
Definition int_max : Z := 9223372036854775807.

(** The [int] that an arithmetic operation yields when its exact result is
    [z]: the result modulo [2^64], taken in the range of [int]. *)
Definition wrap (z : Z) : Z :=
  (z + 9223372036854775808) mod 18446744073709551616 - 9223372036854775808.

(** [time.Duration] is an [int64] count of nanoseconds. *)
Definition minDuration : Z := -9223372036854775808.
Definition maxDuration : Z := 9223372036854775807.

(** [t.Sub(u)] (package time), on instants counted in nanoseconds: the
    duration [t-u], or the maximum (minimum) duration when [t-u] exceeds
    what a [Duration] can hold. *)
Definition Sub (t u : Z) : Z :=
  if decide (maxDuration < t - u) then maxDuration
  else if decide (t - u < minDuration) then minDuration
  else t - u.

(** [time.Since(t)], which is [time.Now().Sub(t)], when the clock shows
    [now]. *)
Definition Since (now t : Z) : Z := Sub now t.

(** A clock that shows the same instant at every reading. *)
Definition frozen (t : Z) : nat -> Z := fun _ => t.

(** ** Constants and parameters *)

Definition bucketSize : Z := 4.
Definition proxBinSize : Z := 2.
Definition maxProx : Z := 8.
Definition connRetryExp : Z := 2.
Definition maxPeers : Z := 100.

(** Durations in nanoseconds. *)
Definition Millisecond : Z := 1000000.
Definition Hour : Z := 3600 * 1000 * Millisecond.
Definition purgeInterval : Z := 42 * Hour.
Definition initialRetryInterval : Z := 42 * Millisecond.
Definition maxIdleInterval : Z := 42 * 1000 * Millisecond.

Record KadParams : Type := {
  MaxProx : Z;
  ProxBinSize : Z;
  BucketSize : Z;
  PurgeInterval : Z;
  InitialRetryInterval : Z;
  MaxIdleInterval : Z;
  ConnRetryExp : Z
}.

(** The configurations in which the sum [k.ProxBinSize+curr] of
    [setProxLimit] cannot wrap around, [curr] being the length of a bucket
    of at most [BucketSize] nodes. *)
Definition sum_fits (p : KadParams) : Prop :=
  0 <= BucketSize p
  ∧ int_min <= ProxBinSize p
  ∧ ProxBinSize p + BucketSize p <= int_max.

Definition NewDefaultKadParams : KadParams := {|
  MaxProx := maxProx;
  ProxBinSize := proxBinSize;
  BucketSize := bucketSize;
  PurgeInterval := purgeInterval;
  InitialRetryInterval := initialRetryInterval;
  MaxIdleInterval := maxIdleInterval;
  ConnRetryExp := connRetryExp
|}.

(** Errors returned by [On]. *)
Inductive error : Type :=
| CallbackError (inner : string)   (* "unable to add node ..., callback error: ..." *)
| BucketFull.                      (* "bucket full" *)

(** ** sort.Search (Go standard library)

    Binary search for the smallest index in [0, n) at which [f] is true,
    written as the library writes it: [h] is the midpoint [(i+j)>>1]. *)

Equations? Search_loop (f : Z -> bool) (i j : Z) : Z
  by wf (Z.to_nat (j - i)) lt :=
  Search_loop f i j with decide (i < j) := {
    | left _ =>
        if negb (f (Z.shiftr (i + j) 1))
        then Search_loop f (Z.shiftr (i + j) 1 + 1) j
        else Search_loop f i (Z.shiftr (i + j) 1)
    | right _ => i }.
Proof.
  all: rewrite Z.shiftr_div_pow2 by lia; change (2 ^ 1) with 2;
    pose proof (Z.div_mod (i + j) 2 ltac:(lia));
    pose proof (Z.mod_pos_bound (i + j) 2 ltac:(lia)); lia.
Qed.

Definition Search (n : Z) (f : Z -> bool) : Z := Search_loop f 0 n.

(** ** The core-boundary loops of [setProxLimit]

    Both loops read the bucket array [bs] only; they are given the constant
    [pbs] = [ProxBinSize], carry [pSize] = [k.proxSize] and [pLimit] =
    [k.proxLimit], and return their final values. *)

Section Loops.
Context {Node : Type}.
Variable bs : list (list Node).
Variable pbs : Z.

(** [for k.proxSize >= k.ProxBinSize+curr && curr > 0 { ... }] *)
Equations? contract (pSize pLimit curr : Z) : outcome (Z * Z)
  by wf (Z.to_nat (len bs - pLimit)) lt :=
  contract pSize pLimit curr
    with decide (wrap (pbs + curr) <= pSize ∧ 0 < curr) := {
    | right _ => Returned (pSize, pLimit)
    | left _ with inspect (at_index bs (pLimit + 1)) := {
        | exist _ (Returned b) Hb =>
            contract (pSize - curr) (pLimit + 1) (len b)
        | exist _ Panicked _ => Panicked
        | exist _ OutOfFuel _ => OutOfFuel } }.
Proof.
  unfold at_index in Hb. case_decide; [discriminate|].
  destruct (bs !! Z.to_nat (pLimit + 1)) eqn:E; [|discriminate].
  apply lookup_lt_Some in E. unfold len. lia.
Qed.

(** [for (k.proxSize < k.ProxBinSize || r < k.proxLimit) && k.proxLimit > 0 { ... }] *)
Equations? expand (r pSize pLimit : Z) : outcome (Z * Z)
  by wf (Z.to_nat pLimit) lt :=
  expand r pSize pLimit
    with decide ((pSize < pbs ∨ r < pLimit) ∧ 0 < pLimit) := {
    | right _ => Returned (pSize, pLimit)
    | left _ with at_index bs (pLimit - 1) := {
        | Returned b => expand r (pSize + len b) (pLimit - 1)
        | Panicked => Panicked
        | OutOfFuel => OutOfFuel } }.
Proof. lia. Qed.
End Loops.

(** No bucket of [bs] is so long that [pbs] plus its length leaves the range
    of [int]. *)
Definition exact_sums {Node : Type} (bs : list (list Node)) (pbs : Z) : Prop :=
  Forall (fun b => int_min <= pbs + len b <= int_max) bs.

(** ** The table *)

Section Kademlia.
(** Addresses are fixed-length bit strings; the table only compares them for
    equality, uses them as registry keys, and measures them with
    [proximity] and [ProxCmp] (address.go). *)
Context {Address : Type} `{Countable Address}.

(** [proximity] (address.go) is a parameter of the development: the
    proximity order of two addresses, the length of their common bit
    prefix, a natural number. *)
Variable proximity : Address -> Address -> nat.

(** The distance between two addresses, an unsigned number, is a parameter
    too. *)
Variable distance : Address -> Address -> N.

(** Modelled from the spec: [target.ProxCmp(a, b)] (address.go) compares the
    distances of [a] and [b] to [target]: negative when [a] is closer,
    positive when [b] is closer, zero when they are equally far. *)
Definition ProxCmp (target a b : Address) : Z :=
  match N.compare (distance a target) (distance b target) with
  | Lt => -1
  | Eq => 0
  | Gt => 1
  end.

(** The [Node] interface: [Addr()], [URL()], [LastActive()]; a call of
    [Drop()] is recorded in the result of the operation that issues it. *)
Record Node : Type := {
  Addr : Address;
  URL : string;
  LastActive : Z
}.

(** *** Node record database (kaddb.go) *)

Record NodeRecord : Type := {
  rec_Addr : Address;
  rec_Url : string;
  rec_node : option Node
}.

Record KadDb : Type := {
  db_index : gmap Address NodeRecord;   (* map[Address]*NodeRecord *)
  db_Nodes : list (list Address)        (* the records of each bin *)
}.

Definition newKadDb (params : KadParams) : KadDb :=
  {| db_index := ∅;
     db_Nodes := replicate (Z.to_nat (MaxProx params + 1)) [] |}.

(** Modelled from the spec: [findOrCreate] (kaddb.go) returns the existing
    record for the address if present; otherwise it creates a record,
    indexes it by address and by bin, and returns it. It never fails. *)
Definition findOrCreate (d : KadDb) (index : Z) (a : Address) (url : string)
  : KadDb * NodeRecord :=
  match db_index d !! a with
  | Some record => (d, record)
  | None =>
      let record := {| rec_Addr := a; rec_Url := url; rec_node := None |} in
      ({| db_index := <[a := record]> (db_index d);
          db_Nodes := alter (fun l => l ++ [a]) (Z.to_nat index) (db_Nodes d) |},
       record)
  end.

(** [record.node = n] through the pointer held by the index under [a]. *)
Definition set_record_node (d : KadDb) (a : Address) (record : NodeRecord)
    (n : option Node) : KadDb :=
  {| db_index :=
       <[a := {| rec_Addr := rec_Addr record; rec_Url := rec_Url record;
                 rec_node := n |}]> (db_index d);
     db_Nodes := db_Nodes d |}.

(** *** Kademlia *)

Record Kademlia : Type := {
  addr : Address;
  params : KadParams;
  proxLimit : Z;
  proxSize : Z;
  count : Z;
  buckets : list (list Node);
  db : KadDb
}.

Definition with_db (k : Kademlia) (d : KadDb) : Kademlia :=
  {| addr := addr k; params := params k; proxLimit := proxLimit k;
     proxSize := proxSize k; count := count k; buckets := buckets k;
     db := d |}.

Definition with_buckets (k : Kademlia) (bs : list (list Node)) : Kademlia :=
  {| addr := addr k; params := params k; proxLimit := proxLimit k;
     proxSize := proxSize k; count := count k; buckets := bs;
     db := db k |}.

Definition with_prox (k : Kademlia) (size_limit : Z * Z) : Kademlia :=
  {| addr := addr k; params := params k; proxLimit := snd size_limit;
     proxSize := fst size_limit; count := count k; buckets := buckets k;
     db := db k |}.

Definition with_count (k : Kademlia) (c : Z) : Kademlia :=
  {| addr := addr k; params := params k; proxLimit := proxLimit k;
     proxSize := proxSize k; count := c; buckets := buckets k;
     db := db k |}.

(** [make([][]Node, params.MaxProx+1)] panics on a negative length. *)
Definition New (a : Address) (p : KadParams) : outcome Kademlia :=
  if decide (MaxProx p + 1 < 0) then Panicked
  else Returned
         {| addr := a; params := p; proxLimit := 0; proxSize := 0;
            count := 0;
            buckets := replicate (Z.to_nat (MaxProx p + 1)) [];
            db := newKadDb p |}.

Definition proximityBin (k : Kademlia) (other : Address) : Z :=
  let ret := Z.of_nat (proximity (addr k) other) in
  if decide (ret > MaxProx (params k)) then MaxProx (params k) else ret.

(** [setProxLimit(r, on)]: adjust [proxLimit] and [proxSize] after an
    insertion ([on]) or a removal at bin [r]. *)
Definition setProxLimit (k : Kademlia) (r : Z) (on : bool) : outcome Kademlia :=
  (* r < k.proxLimit && len(k.buckets[r]) > 0 *)
  outside ← (if decide (r < proxLimit k)
             then b ← at_index (buckets k) r; Returned (bool_decide (len b > 0))
             else Returned false);
  if (outside : bool) then Returned k
  else if on then
    b ← at_index (buckets k) (proxLimit k);
    sl ← contract (buckets k) (ProxBinSize (params k))
           (proxSize k + 1) (proxLimit k) (len b);
    Returned (with_prox k sl)
  else
    let proxSize' :=
      if decide (r >= proxLimit k) then proxSize k - 1 else proxSize k in
    sl ← expand (buckets k) (ProxBinSize (params k)) r proxSize' (proxLimit k);
    Returned (with_prox k sl).

(** The rotation scan of [On]: [for i, p := range bucket { ... }] carrying
    ([idle], [pos], [replaced]). Each turn of the loop reads the clock:
    [now j] is the reading taken for the member at position [j]. *)
Fixpoint idlest (now : nat -> Z) (bucket : list Node) (i : Z)
    (idle : Z) (pos : Z) (replaced : option Node) : Z * Z * option Node :=
  match bucket with
  | [] => (idle, pos, replaced)
  | p :: rest =>
      let idleInt := Since (now (Z.to_nat i)) (LastActive p) in
      if decide (idleInt > idle)
      then idlest now rest (i + 1) idleInt i (Some p)
      else idlest now rest (i + 1) idle pos replaced
  end.

(** [if cb != nil { err = cb(record, node) ... }] *)
Definition invoke (cb : option (NodeRecord -> Node -> option string))
    (record : NodeRecord) (node : Node) : option string :=
  match cb with
  | Some f => f record node
  | None => None
  end.

(** [On(node, cb)] with the clock readings [now]. The result carries the
    table, the error returned (if any) and the nodes on which [Drop()] was
    called. *)
Definition On (k : Kademlia) (node : Node)
    (cb : option (NodeRecord -> Node -> option string)) (now : nat -> Z)
  : outcome (Kademlia * option error * list Node) :=
  let index := proximityBin k (Addr node) in
  let '(d, record) := findOrCreate (db k) index (Addr node) (URL node) in
  let k := with_db k d in
  match invoke cb record node with
  | Some e => Returned (k, Some (CallbackError e), [])
  | None =>
      bucket ← at_index (buckets k) index;
      if decide (len bucket < BucketSize (params k)) then
        let k := with_buckets k (set_index (buckets k) index (bucket ++ [node])) in
        k ← setProxLimit k index true;
        let k := with_db k (set_record_node (db k) (Addr node) record (Some node)) in
        Returned (with_count k (count k + 1), None, [])
      else
        match idlest now bucket 0 (MaxIdleInterval (params k)) 0 None with
        | (_, _, None) => Returned (k, Some BucketFull, [])
        | (_, pos, Some replaced) =>
            let k := with_buckets k
                       (set_index (buckets k) index (set_index bucket pos node)) in
            let k := with_db k (set_record_node (db k) (Addr node) record (Some node)) in
            Returned (with_count k (count k + 1), None, [replaced])
        end
  end.

(** The removal scan of [Off]: the first position whose address matches. *)
Fixpoint find_addr (a : Address) (bucket : list Node) (i : nat) : option nat :=
  match bucket with
  | [] => None
  | p :: rest => if decide (a = Addr p) then Some i else find_addr a rest (S i)
  end.

(** [Off(node, cb)]. The callback has no result; [cb] tells whether one is
    given, and the result carries the arguments it was called with.
    A missing registry entry is a nil [*NodeRecord], whose field access
    panics. *)
Definition Off (k : Kademlia) (node : Node) (cb : bool)
  : outcome (Kademlia * option (NodeRecord * option Node)) :=
  let index := proximityBin k (Addr node) in
  bucket ← at_index (buckets k) index;
  k ← match find_addr (Addr node) bucket 0 with
      | Some i =>
          (* append(bucket[:i], bucket[(i+1):]...) *)
          let k := with_buckets k
                     (set_index (buckets k) index (take i bucket ++ drop (S i) bucket)) in
          setProxLimit k index false
      | None => Returned k
      end;
  match db_index (db k) !! Addr node with
  | None => Panicked
  | Some record =>
      let called := if cb then Some (record, rec_node record) else None in
      let k := with_db k (set_record_node (db k) (Addr node) record None) in
      Returned (with_count k (count k - 1), called)
  end.

(** *** nodesByDistance *)

(** Go's [copy(dst, src)]: the first [min(len dst, len src)] elements of
    [src] overwrite the beginning of [dst]. *)
Definition copy {A : Type} (dst src : list A) : list A :=
  take (length dst) src ++ drop (length src) dst.

(** [h.push(node, max)] on [h.nodes = nodes], [h.target = target].
    [sort.Search] probes only positions in [0, len nodes), so the
    out-of-range arm of the probe is never taken. *)
Definition push (target : Address) (nodes : list Node) (node : Node) (max : Z)
  : list Node :=
  let ix := Search (len nodes) (fun i =>
              match nodes !! Z.to_nat i with
              | Some p => bool_decide (ProxCmp target (Addr p) (Addr node) >= 0)
              | None => false
              end) in
  let nodes := if decide (len nodes < max) then nodes ++ [node] else nodes in
  if decide (ix < len nodes) then
    (* copy(h.nodes[ix+1:], h.nodes[ix:]); h.nodes[ix] = node *)
    let shifted := take (Z.to_nat (ix + 1)) nodes
                   ++ copy (drop (Z.to_nat (ix + 1)) nodes) (drop (Z.to_nat ix) nodes) in
    set_index shifted ix node
  else nodes.

(** [sortedByDistanceTo(target, slice)]: no node is closer to the target
    than its predecessor. *)
Fixpoint sortedByDistanceTo_from (target : Address) (last : Address)
    (slice : list Node) : bool :=
  match slice with
  | [] => true
  | node :: rest =>
      if decide (ProxCmp target (Addr node) last < 0) then false
      else sortedByDistanceTo_from target (Addr node) rest
  end.

Definition sortedByDistanceTo (target : Address) (slice : list Node) : bool :=
  match slice with
  | [] => true
  | node :: rest => sortedByDistanceTo_from target (Addr node) rest
  end.

(** [p] is at most as far from the target as [q]. *)
Definition by_distance (target : Address) (p q : Node) : Prop :=
  (distance (Addr p) target <= distance (Addr q) target)%N.

(** Sorted by non-decreasing distance to the target: every node is at most
    as far as each node after it. *)
Definition sorted_by_distance (target : Address) (nodes : list Node) : Prop :=
  StronglySorted (by_distance target) nodes.

(** *** FindClosest *)

(** The variables of the scan loop; [sc_visited] lists the indices at which
    the bucket array has been read, in order (the indices of the loop's
    trace line). *)
Record scan : Type := {
  sc_index : Z;
  sc_step : Z;
  sc_n : Z;
  sc_nodes : list Node;
  sc_visited : list Z
}.

Inductive ctl : Type :=
| Continue (s : scan)
| Break (s : scan).

(** One iteration of [for index >= 0 { ... }], entered with the guard true. *)
Definition scan_iter (k : Kademlia) (target : Address) (po max min limit : Z)
    (s : scan) : outcome ctl :=
  bucket ← at_index (buckets k) (sc_index s);
  let nodes := foldl (fun acc p => push target acc p limit) (sc_nodes s) bucket in
  let n := sc_n s + len bucket in
  let visited := sc_visited s ++ [sc_index s] in
  if decide (n >= min ∧ (sc_step s < 0 ∨ max = 0)) then
    Returned (Break {| sc_index := sc_index s; sc_step := sc_step s; sc_n := n;
                   sc_nodes := nodes; sc_visited := visited |})
  else
    let '(index, step) :=
      if decide (sc_index s = MaxProx (params k)) then (po, -1)
      else (sc_index s, sc_step s) in
    Returned (Continue {| sc_index := index + step; sc_step := step; sc_n := n;
                      sc_nodes := nodes; sc_visited := visited |}).

(** The loop, with at most [fuel] iterations. The boolean tells whether the
    loop was left by [break] (true) or by its guard (false). *)
Fixpoint scan_loop (k : Kademlia) (target : Address) (po max min limit : Z)
    (fuel : nat) (s : scan) : outcome (scan * bool) :=
  if decide (sc_index s >= 0) then
    match fuel with
    | O => OutOfFuel
    | S fuel =>
        c ← scan_iter k target po max min limit s;
        match c with
        | Break s' => Returned (s', true)
        | Continue s' => scan_loop k target po max min limit fuel s'
        end
    end
  else Returned (s, false).

(** [FindClosest] up to the end of its loop. Each bucket is read at most
    once, so [len buckets + 1] iterations are allotted. *)
Definition FindClosest_scan (k : Kademlia) (target : Address) (max : Z)
  : outcome (scan * bool) :=
  let po := proximityBin k target in
  let min := if decide (max = 0) then 1 else max in
  let limit := if decide (max = 0) then maxPeers else max in
  scan_loop k target po max min limit (S (length (buckets k)))
    {| sc_index := po; sc_step := 1; sc_n := 0; sc_nodes := [];
       sc_visited := [] |}.

Definition FindClosest (k : Kademlia) (target : Address) (max : Z)
  : outcome (list Node) :=
  r ← FindClosest_scan k target max; Returned (sc_nodes (fst r)).

(** The order in which a complete scan reads the bins: from [po] up to
    [MaxProx], then from [po - 1] down to 0. *)
Definition scan_order (po maxProx : Z) : list Z :=
  seqZ po (maxProx - po + 1) ++ reverse (seqZ 0 po).

(** The number of nodes in the bins listed. *)
Definition peers_in (bs : list (list Node)) (bins : list Z) : Z :=
  foldr (fun i acc => len (default [] (bs !! Z.to_nat i)) + acc) 0 bins.

(** The loop variables at the head of the scan loop: moving up, the bins
    [po .. index-1] have been read; moving down, the bins [po .. MaxProx]
    and [po-1 .. index+1] have been read. [n] counts the nodes read. *)
Definition scan_inv (k : Kademlia) (po : Z) (s : scan) : Prop :=
  sc_n s = peers_in (buckets k) (sc_visited s)
  ∧ Forall (fun i => 0 <= i <= MaxProx (params k)) (sc_visited s)
  ∧ ((sc_step s = 1 ∧ po <= sc_index s <= MaxProx (params k)
      ∧ sc_visited s = seqZ po (sc_index s - po))
     ∨ (sc_step s = -1 ∧ -1 <= sc_index s < po
        ∧ po <= MaxProx (params k)
        ∧ sc_visited s
          = seqZ po (MaxProx (params k) - po + 1)
            ++ reverse (seqZ (sc_index s + 1) (po - 1 - sc_index s)))).

(** The iterations still to come from a loop head. *)
Definition remaining (k : Kademlia) (po : Z) (s : scan) : nat :=
  Z.to_nat (if decide (sc_step s = 1)
            then MaxProx (params k) - sc_index s + 1 + po
            else sc_index s + 1).

(** *** Reachable tables: those obtained from [New] by calls of [On] and
    [Off] that return. *)
Inductive reachable : Kademlia -> Prop :=
| reachable_New a p k :
    New a p = Returned k -> reachable k
| reachable_On k node cb now k' err dropped :
    reachable k -> On k node cb now = Returned (k', err, dropped) ->
    reachable k'
| reachable_Off k node cb k' called :
    reachable k -> Off k node cb = Returned (k', called) ->
    reachable k'.

(** Total occupancy of a run of buckets. *)
Definition occupancy (bs : list (list Node)) : Z :=
  foldr (fun b acc => len b + acc) 0 bs.

(** Occupancy of the bins [proxLimit .. MaxProx]. *)
Definition core_occupancy (k : Kademlia) : Z :=
  occupancy (drop (Z.to_nat (proxLimit k)) (buckets k)).

(** Every bin of proximity order below [limit] exists and is non-empty. *)
Definition no_gap (bs : list (list Node)) (limit : Z) : Prop :=
  forall i, 0 <= i < limit -> exists b, bs !! Z.to_nat i = Some b ∧ b ≠ [].

(** The invariant of the core boundary: the bucket array has its
    [MaxProx+1] bins, [proxLimit] points into it, [proxSize] is the
    occupancy of the core, there is no empty bin below the core, and, in a
    configuration whose sums do not wrap around, a non-trivial core holds
    at least [ProxBinSize] nodes. *)
Definition core_inv (k : Kademlia) : Prop :=
  len (buckets k) = MaxProx (params k) + 1
  ∧ 0 <= proxLimit k
  ∧ (proxLimit k = 0 ∨ proxLimit k < len (buckets k))
  ∧ proxSize k = core_occupancy k
  ∧ no_gap (buckets k) (proxLimit k)
  ∧ (sum_fits (params k) ->
     0 < proxLimit k -> ProxBinSize (params k) <= proxSize k).

(** Whether [Off] finds the address of [node] in its bin. *)
Definition in_bin (k : Kademlia) (node : Node) : bool :=
  match at_index (buckets k) (proximityBin k (Addr node)) with
  | Returned bucket => bool_decide (is_Some (find_addr (Addr node) bucket 0))
  | _ => false
  end.

(** Reachable tables with their history: [history D L k] when [k] is
    reached by calls during which [Drop()] was called [D] times and [L]
    calls of [Off] were for a node not in its bin. *)
Inductive history : Z -> Z -> Kademlia -> Prop :=
| history_New a p k :
    New a p = Returned k -> history 0 0 k
| history_On D L k node cb now k' err dropped :
    history D L k -> On k node cb now = Returned (k', err, dropped) ->
    history (D + len dropped) L k'
| history_Off D L k node cb k' called :
    history D L k -> Off k node cb = Returned (k', called) ->
    history D (L + (if in_bin k node then 0 else 1)) k'.

(** The core cannot be contracted: the bin at the boundary is empty, or
    the core without that bin holds fewer than [ProxBinSize] nodes. *)
Definition min_at (bs : list (list Node)) (pbs pSize pLimit : Z) : Prop :=
  forall b, at_index bs pLimit = Returned b -> b = [] ∨ pSize - len b < pbs.

Definition core_minimal (k : Kademlia) : Prop :=
  sum_fits (params k) ->
  min_at (buckets k) (ProxBinSize (params k)) (proxSize k) (proxLimit k).

(** Every node is stored in the bin of its proximity order. *)
Definition placed (k : Kademlia) : Prop :=
  forall (i : nat) b p,
    buckets k !! i = Some b -> p ∈ b ->
    proximityBin k (Addr p) = Z.of_nat i.

(** Every node of the table has a record in the registry. *)
Definition registered (k : Kademlia) : Prop :=
  forall (i : nat) b p,
    buckets k !! i = Some b -> p ∈ b ->
    is_Some (db_index (db k) !! Addr p).

(** The nodes of the bins listed, in the order listed. *)
Definition read_nodes (bs : list (list Node)) (bins : list Z) : list Node :=
  bins ≫= (fun i => default [] (bs !! Z.to_nat i)).

(** The list built by the scan holds nodes read so far only; under a
    non-negative limit it holds as many of them as the limit allows, and all
    of them when the limit has not been reached. *)
Definition contents (k : Kademlia) (target : Address) (limit : Z)
    (s : scan) : Prop :=
  sorted_by_distance target (sc_nodes s)
  ∧ 0 <= sc_n s
  ∧ (forall p, p ∈ sc_nodes s -> p ∈ read_nodes (buckets k) (sc_visited s))
  ∧ (0 <= limit ->
     len (sc_nodes s) = Z.min (sc_n s) limit
     ∧ (sc_n s <= limit ->
        sc_nodes s ≡ₚ read_nodes (buckets k) (sc_visited s))).

(** No bucket holds more than [BucketSize] nodes. *)
Definition capacity_ok (k : Kademlia) : Prop :=
  Forall (fun b => len b <= BucketSize (params k)) (buckets k).

End Kademlia.

Arguments Node : clear implicits.
Arguments NodeRecord : clear implicits.
Arguments KadDb Address {_ _}.
Arguments Kademlia Address {_ _}.
Arguments scan : clear implicits.
Arguments ctl : clear implicits.

(** ** A concrete address space for examples: 256-bit strings as numbers,
    proximity the number of leading bits two addresses share, distance the
    exclusive-or metric. *)
Module Bits.
Definition Address : Type := N.
Definition hashBits : nat := 256.
Definition distance (a b : Address) : N := N.lxor a b.
Definition proximity (a b : Address) : nat :=
  (hashBits - N.to_nat (N.size (N.lxor a b)))%nat.

(** The address whose first [po] bits agree with the all-zero address and
    whose next bit differs, with [low] in the remaining bits. *)
Definition at_po (po : nat) (low : N) : Address :=
  (N.shiftl 1 (N.of_nat (hashBits - 1 - po)) + low)%N.

Definition base : Address := 0%N.

Definition peer (a : Address) (lastActive : Z) : Node Address :=
  {| Addr := a; URL := "enode://peer"; LastActive := lastActive |}.

(** The table made by [New] with the default parameters. *)
Definition fresh : Kademlia Address :=
  {| addr := base; params := NewDefaultKadParams; proxLimit := 0;
     proxSize := 0; count := 0; buckets := replicate 9 [];
     db := newKadDb NewDefaultKadParams |}.

(** The table after [On(node, nil)] at time [now], after [Off(node, nil)]. *)
Definition join (k : Kademlia Address) (node : Node Address) (now : Z)
  : Kademlia Address :=
  match On proximity k node None (frozen now) with
  | Returned (k', _, _) => k'
  | _ => k
  end.

(** The nodes dropped by that call of [On]. *)
Definition drops (k : Kademlia Address) (node : Node Address) (now : Z)
  : list (Node Address) :=
  match On proximity k node None (frozen now) with
  | Returned (_, _, dropped) => dropped
  | _ => []
  end.

Definition leave (k : Kademlia Address) (node : Node Address)
  : Kademlia Address :=
  match Off proximity k node false with
  | Returned (k', _) => k'
  | _ => k
  end.

(** Six nodes over bins 0 to 4: the core starts at bin 3. *)
Definition spread : Kademlia Address :=
  join (join (join (join (join (join fresh
    (peer (at_po 3 1) 0) 100) (peer (at_po 0 1) 0) 100)
    (peer (at_po 0 2) 0) 100) (peer (at_po 1 2) 0) 100)
    (peer (at_po 2 2) 0) 100) (peer (at_po 4 2) 0) 100.

(** Four nodes of proximity order 8 and above, last active at times
    0, 1, 2 and 3, joined before the idle threshold; [late] is past it. *)
Definition late : Z := maxIdleInterval + 10.

Definition full8 : Kademlia Address :=
  join (join (join (join fresh
    (peer (at_po 8 0) 0) 5) (peer (at_po 9 0) 1) 5)
    (peer (at_po 10 0) 2) 5) (peer (at_po 11 0) 3) 5.

(** A fifth node of the same bin joins late: it replaces the idlest. *)
Definition fifth : Node Address := peer (at_po 12 0) late.
Definition rotated : Kademlia Address := join full8 fifth late.

(** The members of bin 8 after the replacement. *)
Definition rotated_bin8 : list (Node Address) :=
  match at_index (buckets rotated) 8 with
  | Returned b => b
  | _ => []
  end.

(** One node in bin 3. *)
Definition lone : Node Address := peer (at_po 3 1) 0.
Definition single : Kademlia Address := join fresh lone 100.

(** The lone node has left; then [Off] is called for it once more. *)
Definition left_once : Kademlia Address := leave single lone.
Definition left_twice : Kademlia Address := leave left_once lone.

(** Queries on the example tables: a target of bin 3. *)
Definition target3 : Address := at_po 3 7.

Definition scan_of (o : outcome (scan Address * bool)) : scan Address :=
  match o with
  | Returned (s, _) => s
  | _ => {| sc_index := 0; sc_step := 0; sc_n := 0; sc_nodes := [];
            sc_visited := [] |}
  end.

(** Three nodes asked of [spread]; any number of nodes asked of [single]. *)
Definition three_of_spread : scan Address :=
  scan_of (FindClosest_scan proximity distance spread target3 3).
Definition any_of_single : scan Address :=
  scan_of (FindClosest_scan proximity distance single target3 0).

(** The nodes of [spread] joined in another order. *)
Definition spread_again : Kademlia Address :=
  join (join (join (join (join (join fresh
    (peer (at_po 4 2) 0) 100) (peer (at_po 2 2) 0) 100)
    (peer (at_po 1 2) 0) 100) (peer (at_po 0 2) 0) 100)
    (peer (at_po 0 1) 0) 100) (peer (at_po 3 1) 0) 100.

(** A configuration whose [ProxBinSize] is the largest [int], its empty
    table, and that table after one node has joined bin 0. *)
Definition hugeCore : KadParams := {|
  MaxProx := maxProx;
  ProxBinSize := int_max;
  BucketSize := bucketSize;
  PurgeInterval := purgeInterval;
  InitialRetryInterval := initialRetryInterval;
  MaxIdleInterval := maxIdleInterval;
  ConnRetryExp := connRetryExp
|}.

Definition fresh_huge : Kademlia Address :=
  {| addr := base; params := hugeCore; proxLimit := 0;
     proxSize := 0; count := 0; buckets := replicate 9 [];
     db := newKadDb hugeCore |}.

Definition wrapped : Kademlia Address :=
  join fresh_huge (peer (at_po 0 1) 0) 100.

(** A clock that advances by ten nanoseconds from one reading to the
    next, starting at [late]. *)
Definition ticking : nat -> Z := fun i => late + 10 * Z.of_nat i.

(** What [On] returns for the fifth node of bin 8 under that clock. *)
Definition ticked : outcome (Kademlia Address * option error * list (Node Address)) :=
  On proximity full8 fifth None ticking.

(** Four nodes of bin 8 whose last activity lies further back than a
    [Duration] can measure, the later positions further; the outcome of
    [On] for a fifth node of that bin. *)
Definition ancient (i : Z) : Z := minDuration - 100 * (i + 1).

Definition old8 : Kademlia Address :=
  join (join (join (join fresh
    (peer (at_po 8 0) (ancient 0)) 5) (peer (at_po 9 0) (ancient 1)) 5)
    (peer (at_po 10 0) (ancient 2)) 5) (peer (at_po 11 0) (ancient 3)) 5.

Definition saturated : outcome (Kademlia Address * option error * list (Node Address)) :=
  On proximity old8 fifth None (frozen late).

(** The members of bin 8 of [full8]. *)
Definition bin8 : list (Node Address) :=
  [peer (at_po 8 0) 0; peer (at_po 9 0) 1;
   peer (at_po 10 0) 2; peer (at_po 11 0) 3].

(** A callback that rejects every node. *)
Definition reject : NodeRecord Address -> Node Address -> option string :=
  fun _ _ => Some "rejected".
End Bits.

(** * Properties *)

(** ** Slices *)

Section Facts.
Context {A : Type}.
Implicit Types (s : list A) (i : Z).

Lemma at_index_Returned s i x :
  at_index s i = Returned x <-> 0 <= i ∧ s !! Z.to_nat i = Some x.
Proof.
  unfold at_index. case_decide.
  - split; [discriminate | lia].
  - destruct (s !! Z.to_nat i) eqn:E; split; intros; try discriminate;
      try (destruct_and?; congruence).
    split; [lia | congruence].
Qed.

Lemma at_index_in_range s i :
  0 <= i < len s -> exists x, at_index s i = Returned x.
Proof.
  intros Hi. destruct (lookup_lt_is_Some_2 s (Z.to_nat i)) as [x Hx].
  { unfold len in Hi. lia. }
  exists x. apply at_index_Returned. split; [lia | done].
Qed.

Lemma at_index_lt s i x : at_index s i = Returned x -> 0 <= i < len s.
Proof.
  intros [? E]%at_index_Returned. apply lookup_lt_Some in E.
  unfold len. lia.
Qed.

Lemma at_index_fuel s i : at_index s i ≠ OutOfFuel.
Proof.
  unfold at_index. case_decide; [discriminate|].
  destruct (s !! Z.to_nat i); discriminate.
Qed.
End Facts.

Section Occupancy.
Context {Address : Type}.
Implicit Types (bs : list (list (Node Address))).

Lemma occupancy_nonneg bs : 0 <= occupancy bs.
Proof. induction bs; simpl; unfold len in *; lia. Qed.

Lemma occupancy_app bs1 bs2 :
  occupancy (bs1 ++ bs2) = occupancy bs1 + occupancy bs2.
Proof. induction bs1; simpl; lia. Qed.

Lemma occupancy_replicate_nil n :
  occupancy (replicate n ([] : list (Node Address))) = 0.
Proof. induction n; simpl; [done | rewrite IHn; done]. Qed.

Lemma occupancy_insert bs (i : nat) b b' :
  bs !! i = Some b ->
  occupancy (<[i := b']> bs) = occupancy bs - len b + len b'.
Proof.
  revert i. induction bs as [|c bs IH]; intros [|i] E; simplify_eq/=.
  - lia.
  - rewrite (IH _ E). lia.
Qed.

Lemma occupancy_drop_lookup bs (n : nat) b :
  bs !! n = Some b ->
  occupancy (drop n bs) = len b + occupancy (drop (S n) bs).
Proof. intros E. by rewrite (drop_S _ _ _ E). Qed.

Lemma occupancy_drop_insert_ge bs (n i : nat) b b' :
  (n <= i)%nat -> bs !! i = Some b ->
  occupancy (drop n (<[i := b']> bs)) = occupancy (drop n bs) - len b + len b'.
Proof.
  intros Hn E. rewrite drop_insert_ge by done.
  apply occupancy_insert. rewrite lookup_drop.
  by replace (n + (i - n))%nat with i by lia.
Qed.
End Occupancy.

Section LoopFacts.
Context {Address : Type}.
Implicit Types (bs : list (list (Node Address))).

Lemma no_gap_mono bs l1 l2 : l2 <= l1 -> no_gap bs l1 -> no_gap bs l2.
Proof. intros Hl Hg i Hi. apply Hg. lia. Qed.

Lemma no_gap_succ bs l b :
  at_index bs l = Returned b -> 0 < len b -> no_gap bs l -> no_gap bs (l + 1).
Proof.
  intros [Hl E]%at_index_Returned Hb Hg i Hi.
  destruct (decide (i = l)) as [->|]; [|apply Hg; lia].
  exists b. split; [done|]. intros ->. unfold len in Hb. simpl in Hb. lia.
Qed.

(** Within the range of [int] the sum is the exact one. *)
Lemma wrap_exact z : int_min <= z <= int_max -> wrap z = z.
Proof.
  intros Hz. unfold wrap, int_min, int_max in *. rewrite Z.mod_small; lia.
Qed.

Lemma exact_sums_at bs pbs i b :
  exact_sums bs pbs -> at_index bs i = Returned b ->
  wrap (pbs + len b) = pbs + len b.
Proof.
  intros Hx [_ E]%at_index_Returned. apply wrap_exact.
  exact (Forall_lookup_1 _ _ _ _ Hx E).
Qed.

(** The contraction keeps [proxSize] in step with the boundary and passes
    non-empty bins only, whatever the value of [ProxBinSize]. *)
Lemma contract_spec bs pbs ps pl curr ps' pl' b :
  contract bs pbs ps pl curr = Returned (ps', pl') ->
  at_index bs pl = Returned b -> curr = len b ->
  ps = occupancy (drop (Z.to_nat pl) bs) ->
  no_gap bs pl ->
  pl <= pl' < len bs ∧ ps' = occupancy (drop (Z.to_nat pl') bs)
  ∧ no_gap bs pl'.
Proof.
  revert b. funelim (contract bs pbs ps pl curr);
    intros b0 Hret Hb0 Hcurr Hocc Hgap; try discriminate.
  - simplify_eq. apply at_index_lt in Hb0 as ?. repeat split; auto; lia.
  - match goal with
    | IH : forall _ _ _, _ |- _ =>
        edestruct (IH ps' pl' b) as (Hle & -> & Hg'); eauto
    end.
    + apply at_index_Returned in Hb0 as [? E0].
      rewrite (occupancy_drop_lookup _ _ _ E0) in Hocc.
      replace (Z.to_nat (pLimit + 1)) with (S (Z.to_nat pLimit)) by lia.
      subst. lia.
    + eapply no_gap_succ; eauto. lia.
    + repeat split; auto; lia.
Qed.

(** When no sum wraps around, the contraction keeps [pbs] nodes in the
    core. *)
Lemma contract_core bs pbs ps pl curr ps' pl' b :
  exact_sums bs pbs ->
  contract bs pbs ps pl curr = Returned (ps', pl') ->
  at_index bs pl = Returned b -> curr = len b ->
  (0 < pl -> pbs <= ps) ->
  0 < pl' -> pbs <= ps'.
Proof.
  revert b. funelim (contract bs pbs ps pl curr);
    intros b0 Hx Hret Hb0 Hcurr Hcore; try discriminate.
  - simplify_eq. exact Hcore.
  - match goal with
    | IH : forall _ _ _, _ |- _ => eapply (IH ps' pl' b); eauto
    end.
    intros _. subst curr. pose proof (proj1 a) as Ha.
    rewrite (exact_sums_at _ _ _ _ Hx Hb0) in Ha. lia.
Qed.

(** With a positive [ProxBinSize] and sums that do not wrap around, the
    contraction never runs past the last bucket. *)
Lemma contract_returns bs pbs ps pl curr b :
  0 < pbs -> exact_sums bs pbs ->
  at_index bs pl = Returned b -> curr = len b ->
  ps = occupancy (drop (Z.to_nat pl) bs) ->
  exists r, contract bs pbs ps pl curr = Returned r.
Proof.
  revert b. funelim (contract bs pbs ps pl curr);
    intros b0 Hpbs Hx Hb0 Hcurr Hocc; try (eexists; reflexivity).
  - match goal with
    | IH : forall _, _ |- _ => eapply (IH b); eauto
    end.
    apply at_index_Returned in Hb0 as [? E0].
    rewrite (occupancy_drop_lookup _ _ _ E0) in Hocc.
    replace (Z.to_nat (pLimit + 1)) with (S (Z.to_nat pLimit)) by lia.
    subst. lia.
  - exfalso. clear Heqcall. subst curr.
    pose proof (proj1 a) as Ha. pose proof (proj2 a) as Hpos.
    rewrite (exact_sums_at _ _ _ _ Hx Hb0) in Ha.
    apply at_index_Returned in Hb0 as [? E0].
    rewrite (occupancy_drop_lookup _ _ _ E0) in Hocc.
    assert (len bs <= pLimit + 1) as Hend.
    { destruct (decide (pLimit + 1 < len bs)); [|lia].
      destruct (at_index_in_range bs (pLimit + 1)) as [x Ex]; [lia|].
      congruence. }
    rewrite drop_ge in Hocc by (unfold len in Hend; lia).
    simpl in Hocc. lia.
  - exfalso. eapply at_index_fuel; eauto.
Qed.

Lemma expand_spec bs pbs r ps pl ps' pl' :
  expand bs pbs r ps pl = Returned (ps', pl') ->
  pl <= len bs ->
  ps = occupancy (drop (Z.to_nat pl) bs) ->
  (forall i, 0 <= i < pl -> i ≠ r ->
             exists b, bs !! Z.to_nat i = Some b ∧ b ≠ []) ->
  0 <= r ->
  pl' <= pl ∧ (0 <= pl -> 0 <= pl')
  ∧ ps' = occupancy (drop (Z.to_nat pl') bs)
  ∧ no_gap bs pl' ∧ (0 < pl' -> pbs <= ps').
Proof.
  funelim (expand bs pbs r ps pl);
    intros Hret Hlen Hocc Hgap Hr; try discriminate.
  - simplify_eq. repeat split; auto; try lia.
    intros i Hi. apply Hgap; lia.
  - match goal with
    | IH : forall _ _, _ |- _ =>
        destruct (IH ps' pl') as (Hle & Hnn & Hps & Hg' & Hc'); auto
    end.
    + lia.
    + apply at_index_Returned in Heq as [? E0].
      replace (Z.to_nat pLimit) with (S (Z.to_nat (pLimit - 1))) in Hocc by lia.
      rewrite (occupancy_drop_lookup _ _ _ E0). lia.
    + intros i Hi. apply Hgap. lia.
    + repeat split; auto; lia.
Qed.

Lemma expand_returns bs pbs r ps pl :
  pl <= len bs -> exists res, expand bs pbs r ps pl = Returned res.
Proof.
  funelim (expand bs pbs r ps pl); intros Hlen; try (eexists; reflexivity).
  - match goal with IH : _ -> _ |- _ => apply IH end. lia.
  - exfalso. destruct (at_index_in_range bs (pLimit - 1)) as [x Hx]; [lia|].
    congruence.
  - exfalso. eapply at_index_fuel; eauto.
Qed.

(** The contraction leaves the boundary where it is or raises it. *)
Lemma contract_moves bs pbs ps pl curr ps' pl' :
  contract bs pbs ps pl curr = Returned (ps', pl') ->
  (ps' = ps ∧ pl' = pl) ∨ pl < pl'.
Proof.
  funelim (contract bs pbs ps pl curr); intros Hret; try discriminate.
  - left. by simplify_eq.
  - right.
    match goal with
    | IH : forall _ _, _ |- _ => destruct (IH ps' pl' Hret) as [[-> ->]|?]
    end; lia.
Qed.

(** When no sum wraps around, a contraction that moved the boundary leaves
    [pbs] nodes in the core. *)
Lemma contract_keeps bs pbs ps pl curr ps' pl' b :
  exact_sums bs pbs ->
  at_index bs pl = Returned b -> curr = len b ->
  contract bs pbs ps pl curr = Returned (ps', pl') ->
  (ps' = ps ∧ pl' = pl) ∨ (pl < pl' ∧ pbs <= ps').
Proof.
  revert b. funelim (contract bs pbs ps pl curr);
    intros b0 Hx Hb0 Hcurr Hret; try discriminate.
  - left. by simplify_eq.
  - right. subst curr.
    pose proof (proj1 a) as Ha. pose proof (proj2 a) as Hpos.
    rewrite (exact_sums_at _ _ _ _ Hx Hb0) in Ha.
    match goal with
    | IH : forall _ _ _, _ |- _ =>
        destruct (IH ps' pl' b Hx Hb eq_refl Hret) as [[-> ->]|[? ?]]
    end; lia.
Qed.

(** The expansion ends with [pbs] nodes in a core that covers bin [r], or
    with the boundary at the bottom. *)
Lemma expand_restores bs pbs r ps pl ps' pl' :
  expand bs pbs r ps pl = Returned (ps', pl') ->
  (pbs <= ps' ∧ pl' <= r) ∨ pl' <= 0.
Proof.
  funelim (expand bs pbs r ps pl); intros Hret; try discriminate.
  - simplify_eq. lia.
  - eauto.
Qed.
End LoopFacts.

(** ** The table operations *)

Section TableFacts.
Context {Address : Type} `{Countable Address}.
Variable proximity : Address -> Address -> nat.
Implicit Types (k : Kademlia Address) (node : Node Address)
  (bucket : list (Node Address)).

Lemma proximityBin_range k a :
  0 <= MaxProx (params k) -> 0 <= proximityBin proximity k a <= MaxProx (params k).
Proof. intros. unfold proximityBin. case_decide; lia. Qed.

Lemma proximityBin_le k a : proximityBin proximity k a <= MaxProx (params k).
Proof. unfold proximityBin. case_decide; lia. Qed.

(** [setProxLimit] writes [proxLimit] and [proxSize] only. *)
Lemma setProxLimit_frame k r on k' :
  setProxLimit k r on = Returned k' ->
  addr k' = addr k ∧ params k' = params k ∧ count k' = count k
  ∧ buckets k' = buckets k ∧ db k' = db k.
Proof.
  unfold setProxLimit. intros Hs.
  destruct (decide (r < proxLimit k)).
  - destruct (at_index (buckets k) r) eqn:Er; simpl in Hs; try discriminate.
    destruct (bool_decide (len a > 0)); simpl in Hs; [by simplify_eq|].
    destruct on.
    + destruct (at_index (buckets k) (proxLimit k)); simpl in Hs; try discriminate.
      destruct (contract _ _ _ _ _); simpl in Hs; try discriminate.
      by simplify_eq.
    + destruct (expand _ _ _ _ _); simpl in Hs; try discriminate.
      by simplify_eq.
  - simpl in Hs. destruct on.
    + destruct (at_index (buckets k) (proxLimit k)); simpl in Hs; try discriminate.
      destruct (contract _ _ _ _ _); simpl in Hs; try discriminate.
      by simplify_eq.
    + destruct (expand _ _ _ _ _); simpl in Hs; try discriminate.
      by simplify_eq.
Qed.

(** The state handed to [setProxLimit(r, true)]: the invariant held before
    a node was appended to bin [r]. *)
Lemma setProxLimit_on k r bucket node k' :
  core_inv k ->
  (sum_fits (params k) ->
   exact_sums (set_index (buckets k) r (bucket ++ [node]))
     (ProxBinSize (params k))) ->
  at_index (buckets k) r = Returned bucket ->
  setProxLimit
    (with_buckets k (set_index (buckets k) r (bucket ++ [node]))) r true
    = Returned k' ->
  core_inv k'.
Proof.
  intros (Hlen & Hpl0 & Hpl & Hps & Hgap & Hcore) Hx Hr Hs.
  pose proof (setProxLimit_frame _ _ _ _ Hs) as (_ & Hpar & _ & Hbs & _).
  apply at_index_Returned in Hr as Hr'. destruct Hr' as [Hr0 Er].
  apply lookup_lt_Some in Er as Hrlt.
  set (bs' := set_index (buckets k) r (bucket ++ [node])) in *.
  assert (len bs' = len (buckets k)) as Hlen'.
  { unfold bs', set_index, len. by rewrite length_insert. }
  assert (at_index bs' r = Returned (bucket ++ [node])) as Hr2.
  { apply at_index_Returned. split; [done|].
    unfold bs', set_index. by apply list_lookup_insert_eq. }
  assert (no_gap bs' (proxLimit k)) as Hgap'.
  { intros i Hi. destruct (decide (i = r)) as [->|Hne].
    - exists (bucket ++ [node]). split; [by apply at_index_Returned in Hr2 as [_ ?]|].
      by destruct bucket.
    - destruct (Hgap i Hi) as (b & Eb & Hb). exists b. split; [|done].
      unfold bs', set_index. rewrite list_lookup_insert_ne; [done|lia]. }
  unfold setProxLimit in Hs. simpl in Hs. fold bs' in Hs.
  destruct (decide (r < proxLimit k)) as [Hlt|Hge].
  - rewrite Hr2 in Hs. simpl in Hs.
    rewrite bool_decide_eq_true_2 in Hs
      by (unfold len; rewrite length_app; simpl; lia).
    simpl in Hs. simplify_eq. unfold core_inv, core_occupancy in *. simpl.
    repeat split; auto; try lia.
    rewrite Hps. unfold bs', set_index. rewrite drop_insert_lt; [done|lia].
  - destruct (at_index bs' (proxLimit k)) as [b0| |] eqn:E0;
      simpl in Hs; try discriminate.
    destruct (contract bs' (ProxBinSize (params k)) (proxSize k + 1)
                (proxLimit k) (len b0)) as [[ps' pl']| |] eqn:Ec;
      simpl in Hs; try discriminate.
    simplify_eq.
    assert (sum_fits (params k) -> 0 < pl' -> ProxBinSize (params k) <= ps')
      as Hc'.
    { intros Hf. apply (contract_core bs' _ _ _ _ _ _ b0 (Hx Hf) Ec E0 eq_refl).
      intros Hpos. specialize (Hcore Hf Hpos). lia. }
    eapply contract_spec in Ec as (Hle & Hps' & Hg'); eauto.
    + unfold core_inv, core_occupancy. simpl. repeat split; auto; try lia.
    + unfold core_occupancy in Hps. unfold bs', set_index.
      erewrite occupancy_drop_insert_ge; [|lia|done].
      unfold len. rewrite length_app. simpl. lia.
Qed.

(** With a positive [ProxBinSize] that call returns. *)
Lemma setProxLimit_on_returns k r bucket node :
  core_inv k -> 0 < ProxBinSize (params k) ->
  exact_sums (set_index (buckets k) r (bucket ++ [node]))
    (ProxBinSize (params k)) ->
  at_index (buckets k) r = Returned bucket ->
  exists k',
    setProxLimit
      (with_buckets k (set_index (buckets k) r (bucket ++ [node]))) r true
    = Returned k'.
Proof.
  intros (Hlen & Hpl0 & Hpl & Hps & Hgap & Hcore) Hpbs Hx Hr.
  apply at_index_Returned in Hr as Hr'. destruct Hr' as [Hr0 Er].
  apply lookup_lt_Some in Er as Hrlt.
  set (bs' := set_index (buckets k) r (bucket ++ [node])) in *.
  assert (len bs' = len (buckets k)) as Hlen'.
  { unfold bs', set_index, len. by rewrite length_insert. }
  assert (at_index bs' r = Returned (bucket ++ [node])) as Hr2.
  { apply at_index_Returned. split; [done|].
    unfold bs', set_index. by apply list_lookup_insert_eq. }
  unfold setProxLimit. simpl. fold bs'.
  destruct (decide (r < proxLimit k)) as [Hlt|Hge].
  - rewrite Hr2. simpl.
    rewrite bool_decide_eq_true_2
      by (unfold len; rewrite length_app; simpl; lia).
    simpl. eauto.
  - simpl. destruct (at_index_in_range bs' (proxLimit k)) as [b0 E0].
    { unfold len in *. lia. }
    rewrite E0. simpl.
    destruct (contract_returns bs' (ProxBinSize (params k)) (proxSize k + 1)
                (proxLimit k) (len b0) b0) as [sl Ec]; auto.
    + unfold core_occupancy in Hps. unfold bs', set_index.
      erewrite occupancy_drop_insert_ge; [|lia|done].
      unfold len. rewrite length_app. simpl. lia.
    + rewrite Ec. simpl. eauto.
Qed.

(** The state handed to [setProxLimit(r, false)]: the invariant held before
    the node at position [i] of bin [r] was cut out. *)
Lemma setProxLimit_off k r bucket (i : nat) k' :
  core_inv k ->
  at_index (buckets k) r = Returned bucket ->
  (i < length bucket)%nat ->
  setProxLimit
    (with_buckets k
       (set_index (buckets k) r (take i bucket ++ drop (S i) bucket))) r false
    = Returned k' ->
  core_inv k'.
Proof.
  intros (Hlen & Hpl0 & Hpl & Hps & Hgap & Hcore) Hr Hi Hs.
  apply at_index_Returned in Hr as Hr'. destruct Hr' as [Hr0 Er].
  apply lookup_lt_Some in Er as Hrlt.
  set (cut := take i bucket ++ drop (S i) bucket) in *.
  assert (len cut = len bucket - 1) as Hcut.
  { unfold cut, len. rewrite length_app, length_take, length_drop. lia. }
  set (bs' := set_index (buckets k) r cut) in *.
  assert (len bs' = len (buckets k)) as Hlen'.
  { unfold bs', set_index, len. by rewrite length_insert. }
  assert (at_index bs' r = Returned cut) as Hr2.
  { apply at_index_Returned. split; [done|].
    unfold bs', set_index. by apply list_lookup_insert_eq. }
  assert (forall j, 0 <= j < proxLimit k -> j ≠ r ->
            exists b, bs' !! Z.to_nat j = Some b ∧ b ≠ []) as Hgap'.
  { intros j Hj Hne. destruct (Hgap j Hj) as (b & Eb & Hb). exists b.
    split; [|done]. unfold bs', set_index.
    rewrite list_lookup_insert_ne; [done|lia]. }
  unfold setProxLimit in Hs. simpl in Hs. fold bs' in Hs.
  assert (forall ps,
    ps = occupancy (drop (Z.to_nat (proxLimit k)) bs') ->
    (sl ← expand bs' (ProxBinSize (params k)) r ps (proxLimit k);
     Returned (with_prox (with_buckets k bs') sl)) = Returned k' ->
    core_inv k') as Hexp.
  { intros ps Hocc He.
    destruct (expand bs' (ProxBinSize (params k)) r ps (proxLimit k))
      as [[ps' pl']| |] eqn:Ee; simpl in He; try discriminate.
    simplify_eq.
    eapply expand_spec in Ee as (Hle & Hnn & Hps' & Hg' & Hc'); eauto.
    - unfold core_inv, core_occupancy. simpl. repeat split; auto; try lia.
    - unfold len in *. lia. }
  destruct (decide (r < proxLimit k)) as [Hlt|Hge].
  - rewrite Hr2 in Hs. simpl in Hs.
    assert (occupancy (drop (Z.to_nat (proxLimit k)) bs') = proxSize k) as Hsame.
    { rewrite Hps. unfold core_occupancy, bs', set_index.
      rewrite drop_insert_lt; [done|lia]. }
    destruct (bool_decide (len cut > 0)) eqn:Ecut; simpl in Hs.
    + simplify_eq. apply bool_decide_eq_true_1 in Ecut.
      unfold core_inv, core_occupancy. simpl. repeat split; auto; try lia.
      intros j Hj. destruct (decide (j = r)) as [->|Hne]; [|by apply Hgap'].
      exists cut. split; [by apply at_index_Returned in Hr2 as [_ ?]|].
      intros ->. unfold len in Ecut. simpl in Ecut. lia.
    + apply (Hexp (proxSize k)); [done|].
      rewrite decide_False in Hs by lia. exact Hs.
  - simpl in Hs. rewrite decide_True in Hs by lia.
    apply (Hexp (proxSize k - 1)); [|exact Hs].
    unfold core_occupancy in Hps. unfold bs', set_index.
    erewrite occupancy_drop_insert_ge; [|lia|done]. lia.
Qed.

Lemma setProxLimit_off_returns k r bucket (i : nat) :
  core_inv k ->
  at_index (buckets k) r = Returned bucket ->
  exists k',
    setProxLimit
      (with_buckets k
         (set_index (buckets k) r (take i bucket ++ drop (S i) bucket))) r false
    = Returned k'.
Proof.
  intros (Hlen & Hpl0 & Hpl & Hps & Hgap & Hcore) Hr.
  apply at_index_Returned in Hr as Hr'. destruct Hr' as [Hr0 Er].
  apply lookup_lt_Some in Er as Hrlt.
  set (bs' := set_index (buckets k) r _) in *.
  assert (len bs' = len (buckets k)) as Hlen'.
  { unfold bs', set_index, len. by rewrite length_insert. }
  unfold setProxLimit. simpl. fold bs'.
  assert (forall ps, exists k',
    (sl ← expand bs' (ProxBinSize (params k)) r ps (proxLimit k);
     Returned (with_prox (with_buckets k bs') sl)) = Returned k') as Hexp.
  { intros ps.
    destruct (expand_returns bs' (ProxBinSize (params k)) r ps (proxLimit k))
      as [sl Ee]; [unfold len in *; lia|].
    rewrite Ee. simpl. eauto. }
  destruct (decide (r < proxLimit k)) as [Hlt|Hge].
  - destruct (at_index_in_range bs' r) as [b Eb]; [unfold len in *; lia|].
    rewrite Eb. simpl. destruct (bool_decide (len b > 0)); simpl; eauto.
  - simpl. eauto.
Qed.

(** *** Case analysis of [On] and [Off] *)

Lemma On_inv k node cb now k' err dropped :
  On proximity k node cb now = Returned (k', err, dropped) ->
  let index := proximityBin proximity k (Addr node) in
  let dr := findOrCreate (db k) index (Addr node) (URL node) in
  let k1 := with_db k (fst dr) in
  (exists e, invoke cb (snd dr) node = Some e ∧ k' = k1
             ∧ err = Some (CallbackError e) ∧ dropped = [])
  ∨ (invoke cb (snd dr) node = None ∧
     exists bucket, at_index (buckets k) index = Returned bucket ∧
     ((len bucket < BucketSize (params k) ∧
       exists k2,
         setProxLimit
           (with_buckets k1 (set_index (buckets k) index (bucket ++ [node])))
           index true = Returned k2
         ∧ k' = with_count
                  (with_db k2
                     (set_record_node (db k2) (Addr node) (snd dr) (Some node)))
                  (count k2 + 1)
         ∧ err = None ∧ dropped = [])
      ∨ (¬ len bucket < BucketSize (params k) ∧
         exists idle pos,
           idlest now bucket 0 (MaxIdleInterval (params k)) 0 None
             = (idle, pos, None)
           ∧ k' = k1 ∧ err = Some BucketFull ∧ dropped = [])
      ∨ (¬ len bucket < BucketSize (params k) ∧
         exists idle pos replaced,
           idlest now bucket 0 (MaxIdleInterval (params k)) 0 None
             = (idle, pos, Some replaced)
           ∧ k' = with_count
                    (with_db
                       (with_buckets k1
                          (set_index (buckets k) index (set_index bucket pos node)))
                       (set_record_node (fst dr) (Addr node) (snd dr) (Some node)))
                    (count k + 1)
           ∧ err = None ∧ dropped = [replaced]))).
Proof.
  unfold On. intros Hon. simpl.
  destruct (findOrCreate _ _ _ _) as [d record]. simpl in *.
  destruct (invoke cb record node) as [e|] eqn:Ecb.
  { left. exists e. by simplify_eq. }
  right. split; [done|].
  destruct (at_index (buckets k) _) as [bucket| |]; simpl in Hon;
    try discriminate.
  exists bucket. split; [done|].
  destruct (decide (len bucket < BucketSize (params k))) as [Hlt|Hge].
  - left. split; [done|].
    destruct (setProxLimit _ _ true) as [k2| |]; simpl in Hon; try discriminate.
    exists k2. by simplify_eq.
  - right.
    destruct (idlest _ _ _ _ _ _) as [[idle pos] [replaced|]];
      simplify_eq; [right | left]; (split; [done|]); eauto 10.
Qed.

Lemma Off_inv k node cb k' called :
  Off proximity k node cb = Returned (k', called) ->
  let index := proximityBin proximity k (Addr node) in
  exists bucket k1 record,
    at_index (buckets k) index = Returned bucket
    ∧ ((exists i, find_addr (Addr node) bucket 0 = Some i ∧
          setProxLimit
            (with_buckets k
               (set_index (buckets k) index (take i bucket ++ drop (S i) bucket)))
            index false = Returned k1)
       ∨ (find_addr (Addr node) bucket 0 = None ∧ k1 = k))
    ∧ db_index (db k1) !! Addr node = Some record
    ∧ k' = with_count
             (with_db k1 (set_record_node (db k1) (Addr node) record None))
             (count k1 - 1)
    ∧ called = (if cb then Some (record, rec_node record) else None).
Proof.
  unfold Off. intros Hoff. simpl.
  destruct (at_index (buckets k) _) as [bucket| |]; simpl in Hoff;
    try discriminate.
  exists bucket.
  destruct (find_addr (Addr node) bucket 0) as [i|] eqn:Ef.
  - destruct (setProxLimit _ _ false) as [k1| |] eqn:Es; simpl in Hoff;
      try discriminate.
    destruct (db_index (db k1) !! Addr node) as [record|] eqn:Er;
      try discriminate.
    exists k1, record. simplify_eq. repeat split; eauto.
  - simpl in Hoff.
    destruct (db_index (db k) !! Addr node) as [record|] eqn:Er;
      try discriminate.
    exists k, record. simplify_eq. repeat split; eauto.
Qed.

Lemma find_addr_Some a bucket i0 i :
  find_addr a bucket i0 = Some i ->
  (i0 <= i < i0 + length bucket)%nat
  ∧ (exists p, bucket !! (i - i0)%nat = Some p ∧ Addr p = a)
  ∧ (forall j q, (j < i - i0)%nat -> bucket !! j = Some q -> Addr q ≠ a).
Proof.
  revert i0. induction bucket as [|p rest IH]; intros i0 Hf; [discriminate|].
  simpl in Hf. case_decide as Hp.
  - simplify_eq. replace (i - i)%nat with 0%nat by lia. simpl.
    repeat split; [lia.. | eauto | intros; lia].
  - destruct (IH _ Hf) as (Hr & (q & Eq & Hq) & Hfirst).
    replace (i - i0)%nat with (S (i - S i0)) by lia. simpl.
    repeat split; [lia.. | eauto |].
    intros [|j] q' Hj Eq'; simplify_eq/=; [congruence|].
    eapply Hfirst; [|done]. lia.
Qed.

Lemma find_addr_None a bucket i0 :
  find_addr a bucket i0 = None <-> Forall (fun p => Addr p ≠ a) bucket.
Proof.
  revert i0. induction bucket as [|p rest IH]; intros i0; simpl.
  - split; [constructor | done].
  - case_decide as Hp.
    + split; [discriminate|]. intros [Hne _]%Forall_cons. congruence.
    + rewrite IH, Forall_cons.
      split; [intros ?; split; [congruence | done] | by intros [_ ?]].
Qed.

(** *** The core invariant depends on the bucket lengths only *)

Lemma occupancy_lengths (bs : list (list (Node Address))) :
  occupancy bs = Z.of_nat (sum_list (length <$> bs)).
Proof.
  induction bs as [|b bs IH]; [done|].
  rewrite fmap_cons. cbn [occupancy foldr sum_list sum_list_with].
  fold (occupancy bs). rewrite IH. unfold len, id. lia.
Qed.

Lemma core_inv_lengths k k' :
  params k' = params k -> proxLimit k' = proxLimit k ->
  proxSize k' = proxSize k ->
  length <$> buckets k' = length <$> buckets k ->
  core_inv k -> core_inv k'.
Proof.
  intros Hp Hl Hs Hb (Hlen & Hpl0 & Hpl & Hps & Hgap & Hcore).
  assert (length (buckets k') = length (buckets k)) as Hlen'.
  { by rewrite <- (length_fmap length (buckets k')), Hb, length_fmap. }
  unfold core_inv, core_occupancy, len in *.
  rewrite Hp, Hl, Hs, Hlen'. repeat split; auto.
  - rewrite Hps, !occupancy_lengths, !fmap_drop, Hb. done.
  - intros i Hi. destruct (Hgap i Hi) as (b & Eb & Hb0).
    assert ((length <$> buckets k') !! Z.to_nat i = Some (length b)) as E.
    { rewrite Hb, list_lookup_fmap, Eb. done. }
    rewrite list_lookup_fmap in E.
    destruct (buckets k' !! Z.to_nat i) as [b'|]; simplify_eq/=.
    exists b'. split; [done|]. intros ->. by destruct b.
Qed.

(** *** The invariants along [On] and [Off] *)

Lemma core_inv_New a p k : New a p = Returned k -> core_inv k.
Proof.
  unfold New. case_decide; [discriminate|]. intros ?; simplify_eq.
  unfold core_inv, core_occupancy, len. simpl.
  change (Z.to_nat 0) with 0%nat. rewrite drop_0.
  rewrite length_replicate, occupancy_replicate_nil.
  repeat split; try lia. intros i Hi. lia.
Qed.

(** The bucket array after a call of [On]: unchanged, or bin [index]
    extended by the node, or one position of bin [index] overwritten. *)
Lemma On_buckets k node cb now k' err dropped :
  On proximity k node cb now = Returned (k', err, dropped) ->
  let index := proximityBin proximity k (Addr node) in
  params k' = params k ∧ addr k' = addr k ∧
  ((buckets k' = buckets k ∧ count k' = count k
    ∧ proxLimit k' = proxLimit k ∧ proxSize k' = proxSize k
    ∧ is_Some err ∧ dropped = [])
   ∨ (exists bucket,
        at_index (buckets k) index = Returned bucket
        ∧ len bucket < BucketSize (params k)
        ∧ buckets k' = set_index (buckets k) index (bucket ++ [node])
        ∧ count k' = count k + 1 ∧ err = None ∧ dropped = [])
   ∨ (exists bucket pos replaced,
        at_index (buckets k) index = Returned bucket
        ∧ ¬ len bucket < BucketSize (params k)
        ∧ buckets k' = set_index (buckets k) index (set_index bucket pos node)
        ∧ count k' = count k + 1
        ∧ proxLimit k' = proxLimit k ∧ proxSize k' = proxSize k
        ∧ err = None ∧ dropped = [replaced])).
Proof.
  intros Hon index. apply On_inv in Hon. simpl in Hon. fold index in Hon.
  destruct Hon as [(e & _ & -> & -> & ->)
    | (_ & bucket & Hb & [(Hlt & k2 & Hs & -> & -> & ->)
                         | [(Hge & idle & pos & _ & -> & -> & ->)
                           | (Hge & idle & pos & replaced & _ & -> & -> & ->)]])];
    simpl.
  - repeat split; auto. left. repeat split; eauto.
  - apply setProxLimit_frame in Hs as (Ha & Hp & Hc & Hbs & _). simpl in *.
    repeat split; auto. right. left. exists bucket.
    repeat split; auto. lia.
  - repeat split; auto. left. repeat split; eauto.
  - repeat split; auto. right. right. exists bucket, pos, replaced.
    repeat split; auto.
Qed.

(** *** Bucket capacity *)

Lemma capacity_ok_New a p k :
  0 <= BucketSize p -> New a p = Returned k -> capacity_ok k.
Proof.
  unfold New. intros Hb. case_decide; [discriminate|]. intros ?; simplify_eq.
  unfold capacity_ok. simpl. apply Forall_replicate. unfold len. simpl. lia.
Qed.

Lemma capacity_ok_On k node cb now k' err dropped :
  capacity_ok k ->
  On proximity k node cb now = Returned (k', err, dropped) ->
  capacity_ok k'.
Proof.
  unfold capacity_ok. intros Hcap Hon.
  apply On_buckets in Hon as (-> & _ & Hcases).
  destruct Hcases as [(-> & _)
    | [(bucket & Hb & Hlt & -> & _)
      | (bucket & pos & replaced & Hb & Hge & -> & _)]]; [done|..].
  - apply Forall_insert; [done|]. unfold len in *.
    rewrite length_app. simpl. lia.
  - apply Forall_insert; [done|]. unfold set_index, len.
    rewrite length_insert.
    apply at_index_Returned in Hb as [_ Eb].
    by apply (Forall_lookup_1 _ _ _ _ Hcap Eb).
Qed.

Lemma capacity_ok_Off k node cb k' called :
  capacity_ok k ->
  Off proximity k node cb = Returned (k', called) ->
  capacity_ok k'.
Proof.
  unfold capacity_ok. intros Hcap Hoff. apply Off_inv in Hoff. simpl in Hoff.
  destruct Hoff as (bucket & k1 & record & Hb & Hrm & _ & -> & _). simpl.
  destruct Hrm as [(i & Hf & Hs) | (_ & ->)]; [|done].
  apply setProxLimit_frame in Hs as (_ & -> & _ & -> & _). simpl.
  apply Forall_insert; [done|].
  apply at_index_Returned in Hb as [_ Eb].
  pose proof (Forall_lookup_1 _ _ _ _ Hcap Eb) as Hlen. simpl in Hlen.
  unfold len in *. rewrite length_app, length_take, length_drop. lia.
Qed.

Lemma reachable_capacity_ok k :
  reachable proximity k -> 0 <= BucketSize (params k) -> capacity_ok k.
Proof.
  induction 1 as [a p k Hnew | k node cb now k' err dropped _ IH Hon
                 | k node cb k' called _ IH Hoff]; intros Hb.
  - eapply capacity_ok_New; [|done].
    unfold New in Hnew. case_decide; [discriminate|]. by simplify_eq.
  - eapply capacity_ok_On; [|done]. apply IH.
    by apply On_buckets in Hon as (<- & _).
  - eapply capacity_ok_Off; [|done]. apply IH.
    apply Off_inv in Hoff. simpl in Hoff.
    destruct Hoff as (bucket & k1 & record & _ & Hrm & _ & -> & _).
    simpl in Hb. destruct Hrm as [(i & _ & Hs) | (_ & ->)]; [|done].
    apply setProxLimit_frame in Hs as (_ & Hp & _). simpl in Hp.
    by rewrite <- Hp.
Qed.

(** With the capacity bound, a configuration whose sums fit has no sum that
    wraps around. *)
Lemma capacity_exact_sums k :
  sum_fits (params k) -> capacity_ok k ->
  exact_sums (buckets k) (ProxBinSize (params k)).
Proof.
  intros (Hb & Hmin & Hmax) Hcap. unfold exact_sums.
  eapply Forall_impl; [exact Hcap|]. simpl. intros b Hlen.
  unfold len in *. lia.
Qed.

(** The capacity bound is what keeps the sums of the contraction exact in
    a configuration whose sums fit. *)
Lemma On_exact_sums k node cb now k' err dropped :
  (sum_fits (params k) -> capacity_ok k) ->
  On proximity k node cb now = Returned (k', err, dropped) ->
  sum_fits (params k) -> exact_sums (buckets k') (ProxBinSize (params k)).
Proof.
  intros Hcap Hon Hf.
  pose proof (capacity_ok_On _ _ _ _ _ _ _ (Hcap Hf) Hon) as Hc'.
  pose proof (On_buckets _ _ _ _ _ _ _ Hon) as (Hp & _).
  rewrite <- Hp. apply capacity_exact_sums; [by rewrite Hp | done].
Qed.

Lemma core_inv_On k node cb now k' err dropped :
  core_inv k ->
  (sum_fits (params k) -> capacity_ok k) ->
  On proximity k node cb now = Returned (k', err, dropped) ->
  core_inv k'.
Proof.
  intros Hinv Hcap Hon.
  pose proof (On_exact_sums _ _ _ _ _ _ _ Hcap Hon) as Hx.
  apply On_inv in Hon. simpl in Hon.
  set (index := proximityBin proximity k (Addr node)) in *.
  destruct Hon as [(e & _ & -> & _)
    | (_ & bucket & Hb & [(Hlt & k2 & Hs & -> & _)
                         | [(Hge & idle & pos & _ & -> & _)
                           | (Hge & idle & pos & replaced & _ & -> & _)]])].
  - by apply (core_inv_lengths k).
  - eapply (core_inv_lengths k2); try done.
    eapply (setProxLimit_on (with_db k _)); [| | exact Hb | exact Hs].
    + by apply (core_inv_lengths k).
    + simpl. intros Hf. specialize (Hx Hf). simpl in Hx.
      apply setProxLimit_frame in Hs as (_ & _ & _ & Hbs & _).
      simpl in Hbs. by rewrite <- Hbs.
  - by apply (core_inv_lengths k).
  - apply (core_inv_lengths k); try done. simpl.
    apply at_index_Returned in Hb as [_ Eb]. unfold set_index.
    rewrite list_fmap_insert, length_insert.
    apply list_insert_id. by rewrite list_lookup_fmap, Eb.
Qed.

Lemma core_inv_Off k node cb k' called :
  core_inv k ->
  Off proximity k node cb = Returned (k', called) ->
  core_inv k'.
Proof.
  intros Hinv Hoff. apply Off_inv in Hoff. simpl in Hoff.
  destruct Hoff as (bucket & k1 & record & Hb & Hrm & _ & -> & _).
  apply (core_inv_lengths k1); try done.
  destruct Hrm as [(i & Hf & Hs) | (_ & ->)]; [|done].
  apply find_addr_Some in Hf as (Hi & _).
  eapply setProxLimit_off; [exact Hinv | exact Hb | | exact Hs]. lia.
Qed.

Lemma reachable_core_inv k : reachable proximity k -> core_inv k.
Proof.
  induction 1 as [a p k Hnew | k node cb now k' err dropped Hk IH Hon
                 | k node cb k' called Hk IH Hoff].
  - by eapply core_inv_New.
  - eapply core_inv_On; [exact IH | | exact Hon].
    intros Hf. apply reachable_capacity_ok; [done | apply Hf].
  - by eapply core_inv_Off.
Qed.

(** On a well-formed table with a positive [ProxBinSize] and sums that fit,
    [On] returns. *)
Lemma On_returns k node cb now :
  core_inv k -> 0 <= MaxProx (params k) -> 0 < ProxBinSize (params k) ->
  sum_fits (params k) -> capacity_ok k ->
  exists res, On proximity k node cb now = Returned res.
Proof.
  intros Hinv Hmax Hpbs Hf Hcap. unfold On.
  destruct (findOrCreate _ _ _ _) as [d record].
  destruct (invoke cb record node); [eauto|]. simpl.
  pose proof (proximityBin_range k (Addr node) Hmax) as Hidx.
  destruct (at_index_in_range (buckets k)
              (proximityBin proximity k (Addr node))) as [bucket Hb].
  { destruct Hinv as (Hlen & _). lia. }
  rewrite Hb. simpl. case_decide.
  - destruct (setProxLimit_on_returns (with_db k d)
                (proximityBin proximity k (Addr node)) bucket node)
      as [k2 Hs]; [by apply (core_inv_lengths k) | done | | exact Hb |].
    + simpl. destruct Hf as (Hb0 & Hmin & Hsum).
      apply Forall_insert.
      * eapply Forall_impl; [exact Hcap|]. simpl. intros b Hlen.
        unfold len in *. lia.
      * unfold len in *. rewrite length_app. simpl. lia.
    + simpl in Hs. rewrite Hs. simpl. eauto.
  - destruct (idlest _ _ _ _ _ _) as [[idle pos] [replaced|]]; eauto.
Qed.

(** [Off] returns on a well-formed table whenever the registry knows the
    address. *)
Lemma Off_returns k node cb :
  core_inv k -> 0 <= MaxProx (params k) ->
  is_Some (db_index (db k) !! Addr node) ->
  exists res, Off proximity k node cb = Returned res.
Proof.
  intros Hinv Hmax [record Hrec]. unfold Off.
  pose proof (proximityBin_range k (Addr node) Hmax) as Hidx.
  destruct (at_index_in_range (buckets k)
              (proximityBin proximity k (Addr node))) as [bucket Hb].
  { destruct Hinv as (Hlen & _). lia. }
  rewrite Hb. simpl.
  destruct (find_addr (Addr node) bucket 0) as [i|] eqn:Ef.
  - destruct (setProxLimit_off_returns k
                (proximityBin proximity k (Addr node)) bucket i Hinv Hb)
      as [k1 Hs].
    rewrite Hs. simpl.
    apply setProxLimit_frame in Hs as (_ & _ & _ & _ & ->). simpl.
    rewrite Hrec. eauto.
  - simpl. rewrite Hrec. eauto.
Qed.

(** *** The rotation scan *)

(** [idlest] keeps the first member whose measured idle time is the
    largest one above the starting threshold, or its initial values when no
    member is above the threshold. The member at position [j] of the part
    of the bucket still to scan is measured with the reading
    [now (i0 + j)]. *)
Lemma idlest_spec now bucket i0 idle0 pos0 repl0 idle pos repl :
  0 <= i0 ->
  idlest now bucket i0 idle0 pos0 repl0 = (idle, pos, repl) ->
  idle0 <= idle
  ∧ (forall (j : nat) q, bucket !! j = Some q ->
       Since (now (Z.to_nat i0 + j)%nat) (LastActive q) <= idle)
  ∧ ((idle = idle0 ∧ pos = pos0 ∧ repl = repl0)
     ∨ (idle0 < idle ∧
        exists (j : nat) p,
          pos = i0 + Z.of_nat j ∧ bucket !! j = Some p ∧ repl = Some p
          ∧ idle = Since (now (Z.to_nat i0 + j)%nat) (LastActive p)
          ∧ forall j' q, (j' < j)%nat -> bucket !! j' = Some q ->
              Since (now (Z.to_nat i0 + j')%nat) (LastActive q) < idle)).
Proof.
  revert i0 idle0 pos0 repl0.
  induction bucket as [|p rest IH]; intros i0 idle0 pos0 repl0 Hi0 Hi;
    simpl in Hi.
  { simplify_eq. split; [lia|]. split; [by intros j q ?|]. by left. }
  assert (forall j, (Z.to_nat (i0 + 1) + j)%nat = (Z.to_nat i0 + S j)%nat)
    as Hidx by (intros; lia).
  case_decide as Hp.
  - assert (0 <= i0 + 1) as Hi1 by lia.
    destruct (IH _ _ _ _ Hi1 Hi) as (Hle & Hall & Hcase).
    split; [lia|]. split.
    { intros [|j] q Eq; simplify_eq/=.
      - rewrite Nat.add_0_r. lia.
      - rewrite <- Hidx. by apply Hall. }
    right. split; [lia|].
    destruct Hcase as [(-> & -> & ->)
                      | (Hlt & j & q & -> & Ej & -> & -> & Hfirst)].
    + exists 0%nat, p. rewrite Nat.add_0_r.
      repeat split; auto; [lia|]. intros; lia.
    + exists (S j), q. rewrite <- Hidx. repeat split; auto; [lia|].
      intros [|j'] q' Hj' Eq'; simplify_eq/=.
      * rewrite Nat.add_0_r. lia.
      * rewrite <- Hidx. eapply Hfirst; [|done]. lia.
  - assert (0 <= i0 + 1) as Hi1 by lia.
    destruct (IH _ _ _ _ Hi1 Hi) as (Hle & Hall & Hcase).
    split; [lia|]. split.
    { intros [|j] q Eq; simplify_eq/=.
      - rewrite Nat.add_0_r. lia.
      - rewrite <- Hidx. by apply Hall. }
    destruct Hcase as [(-> & -> & ->)
                      | (Hlt & j & q & -> & Ej & -> & -> & Hfirst)].
    + by left.
    + right. split; [lia|]. exists (S j), q. rewrite <- Hidx.
      repeat split; auto; [lia|].
      intros [|j'] q' Hj' Eq'; simplify_eq/=.
      * rewrite Nat.add_0_r. lia.
      * rewrite <- Hidx. eapply Hfirst; [|done]. lia.
Qed.

End TableFacts.

(** ** Example tables are reachable *)

Section Examples.
Import Bits.

Lemma New_fresh : New base NewDefaultKadParams = Returned fresh.
Proof. reflexivity. Qed.

Lemma reachable_fresh : reachable proximity fresh.
Proof. eapply reachable_New, New_fresh. Qed.

Lemma reachable_join k node now :
  reachable proximity k -> reachable proximity (join k node now).
Proof.
  intros Hk. unfold join.
  destruct (On proximity k node None (frozen now))
    as [[[k' err] dropped]| |] eqn:E; eauto using reachable_On.
Qed.

Lemma reachable_leave k node :
  reachable proximity k -> reachable proximity (leave k node).
Proof.
  intros Hk. unfold leave.
  destruct (Off proximity k node false) as [[k' called]| |] eqn:E;
    eauto using reachable_Off.
Qed.

Lemma reachable_spread : reachable proximity spread.
Proof. unfold spread. repeat apply reachable_join. apply reachable_fresh. Qed.

Lemma reachable_full8 : reachable proximity full8.
Proof. unfold full8. repeat apply reachable_join. apply reachable_fresh. Qed.

Lemma reachable_rotated : reachable proximity rotated.
Proof. apply reachable_join, reachable_full8. Qed.

Lemma reachable_single : reachable proximity single.
Proof. apply reachable_join, reachable_fresh. Qed.

Lemma reachable_wrapped : reachable proximity wrapped.
Proof.
  apply reachable_join. apply (reachable_New _ base hugeCore). reflexivity.
Qed.
End Examples.

(** * The properties of the table *)

Section Invariants.
Context {Address : Type} `{Countable Address}.
Variable proximity : Address -> Address -> nat.
Implicit Types (k : Kademlia Address) (node : Node Address).

(** C1. No-gap invariant: in every table reachable from a fresh one by
    calls of [On] and [Off], every bin of proximity order strictly below
    [proxLimit] is non-empty; the bin of the table's own address is
    excepted (it is bin [MaxProx], which is never below [proxLimit], so the
    exception is never used). *)
Theorem no_gap_invariant k i :
  reachable proximity k ->
  0 <= i < proxLimit k ->
  i ≠ proximityBin proximity k (addr k) ->
  exists b, at_index (buckets k) i = Returned b ∧ b ≠ [].
Proof.
  intros Hk Hi _.
  destruct (reachable_core_inv proximity k Hk) as (_ & _ & _ & _ & Hgap & _).
  destruct (Hgap i Hi) as (b & Eb & Hb). exists b. split; [|done].
  apply at_index_Returned. split; [lia | done].
Qed.

(** C2, amended. Core-size invariant: in every reachable table [proxSize]
    is the occupancy of the bins [proxLimit .. MaxProx]; when the
    configuration keeps the sum [ProxBinSize+curr] of [setProxLimit] within
    the range of [int] ([BucketSize >= 0] and [ProxBinSize + BucketSize] at
    most the largest [int]), that occupancy is at least [ProxBinSize]
    whenever [proxLimit > 0]. The loops keep it so: in such a configuration
    a contraction, started as [setProxLimit] starts it with the length of
    the bin at the boundary, that moved the boundary leaves at least
    [ProxBinSize] nodes in the core; and the expansion ends with at least
    [ProxBinSize] nodes or with [proxLimit] at 0. *)
Theorem core_size_invariant k :
  reachable proximity k ->
  (len (buckets k) = MaxProx (params k) + 1
   ∧ proxSize k = core_occupancy k
   ∧ (sum_fits (params k) ->
      proxLimit k > 0 -> core_occupancy k >= ProxBinSize (params k)))
  ∧ (sum_fits (params k) ->
     forall pSize pLimit b pSize' pLimit',
       at_index (buckets k) pLimit = Returned b ->
       contract (buckets k) (ProxBinSize (params k)) pSize pLimit (len b)
         = Returned (pSize', pLimit') ->
       pLimit' ≠ pLimit -> pSize' >= ProxBinSize (params k))
  ∧ (forall r pSize pLimit pSize' pLimit',
       expand (buckets k) (ProxBinSize (params k)) r pSize pLimit
         = Returned (pSize', pLimit') ->
       pSize' >= ProxBinSize (params k) ∨ pLimit' <= 0).
Proof.
  intros Hk.
  destruct (reachable_core_inv proximity k Hk)
    as (Hlen & _ & _ & Hps & _ & Hcore).
  split; [|split].
  - repeat split; auto. rewrite <- Hps. intros Hf Hpos.
    specialize (Hcore Hf). lia.
  - intros Hf pSize pLimit b pSize' pLimit' Hb Hret Hne.
    assert (exact_sums (buckets k) (ProxBinSize (params k))) as Hx.
    { apply capacity_exact_sums; [done|].
      apply (reachable_capacity_ok proximity); [done | apply Hf]. }
    destruct (contract_keeps _ _ _ _ _ _ _ b Hx Hb eq_refl Hret)
      as [[_ ->]|[_ ?]]; [done | lia].
  - intros r pSize pLimit pSize' pLimit' Hret.
    destruct (expand_restores _ _ _ _ _ _ _ Hret) as [[? _]|?]; [left | right]; lia.
Qed.

(** C4. Capacity bound: in every reachable table of a configuration with a
    non-negative [BucketSize], every bin holds at most [BucketSize] nodes;
    a call of [On] leaves the bucket array as it is, or appends the node to
    a bin that has fewer than [BucketSize] members, or overwrites one
    member of a bin that has [BucketSize] or more, which keeps its
    length. *)
Theorem capacity_bound k :
  reachable proximity k ->
  0 <= BucketSize (params k) ->
  (forall i b, at_index (buckets k) i = Returned b ->
               len b <= BucketSize (params k))
  ∧ (forall node cb now k' err dropped,
       On proximity k node cb now = Returned (k', err, dropped) ->
       let index := proximityBin proximity k (Addr node) in
       buckets k' = buckets k
       ∨ (exists bucket,
            at_index (buckets k) index = Returned bucket
            ∧ len bucket < BucketSize (params k)
            ∧ buckets k' = set_index (buckets k) index (bucket ++ [node]))
       ∨ (exists bucket pos,
            at_index (buckets k) index = Returned bucket
            ∧ BucketSize (params k) <= len bucket
            ∧ buckets k' = set_index (buckets k) index (set_index bucket pos node)
            ∧ len (set_index bucket pos node) = len bucket)).
Proof.
  intros Hk Hsize. split.
  - intros i b [_ Eb]%at_index_Returned.
    pose proof (reachable_capacity_ok proximity k Hk Hsize) as Hcap.
    by apply (Forall_lookup_1 _ _ _ _ Hcap Eb).
  - intros node cb now k' err dropped Hon index.
    apply On_buckets in Hon as (_ & _ & Hcases). fold index in Hcases.
    destruct Hcases as [(-> & _)
      | [(bucket & Hb & Hlt & -> & _)
        | (bucket & pos & replaced & Hb & Hge & -> & _)]].
    + by left.
    + right. left. eauto.
    + right. right. exists bucket, pos. repeat split; auto; [lia|].
      unfold set_index, len. by rewrite length_insert.
Qed.
End Invariants.


(** Witnesses on the example tables. *)

Lemma no_gap_invariant_witness :
  exists b, at_index (buckets Bits.spread) 1 = Returned b ∧ b ≠ [].
Proof.
  apply (no_gap_invariant Bits.proximity Bits.spread 1).
  - apply reachable_spread.
  - vm_compute. split; [discriminate | reflexivity].
  - vm_compute. discriminate.
Defined.

(** C2 as stated fails: with [ProxBinSize] at the largest [int], the sum
    [ProxBinSize+curr] wraps around to a negative number when the first node
    joins bin 0, so the contraction moves the boundary past that bin:
    [proxLimit] is 1 and the core above it is empty. *)
Lemma core_size_counterexample :
  reachable Bits.proximity Bits.wrapped
  ∧ ProxBinSize (params Bits.wrapped) = int_max
  ∧ proxLimit Bits.wrapped = 1
  ∧ proxSize Bits.wrapped = 0
  ∧ core_occupancy Bits.wrapped = 0
  ∧ ¬ (proxLimit Bits.wrapped > 0 ->
       core_occupancy Bits.wrapped >= ProxBinSize (params Bits.wrapped)).
Proof.
  split; [apply reachable_wrapped|].
  do 4 (split; [vm_compute; reflexivity|]).
  intros Hcore.
  assert (proxLimit Bits.wrapped > 0) as Hlimit by (vm_compute; reflexivity).
  apply Hcore in Hlimit. revert Hlimit. vm_compute. intros Hge. by apply Hge.
Qed.

Lemma core_size_invariant_witness :
  proxLimit Bits.spread > 0
  ∧ core_occupancy Bits.spread >= ProxBinSize (params Bits.spread).
Proof.
  assert (sum_fits (params Bits.spread)) as Hfits.
  { vm_compute. repeat split; discriminate. }
  pose proof (core_size_invariant Bits.proximity Bits.spread reachable_spread)
    as [(_ & _ & Hcore) _].
  assert (proxLimit Bits.spread > 0) as Hlimit by (vm_compute; reflexivity).
  split; [exact Hlimit | exact (Hcore Hfits Hlimit)].
Defined.

Lemma capacity_bound_witness :
  len Bits.rotated_bin8 <= BucketSize (params Bits.rotated).
Proof.
  refine (proj1 (capacity_bound Bits.proximity Bits.rotated _ _)
            8 Bits.rotated_bin8 _).
  - apply reachable_rotated.
  - vm_compute. discriminate.
  - vm_compute. reflexivity.
Defined.

(** ** Counting *)

Section Counting.
Context {Address : Type} `{Countable Address}.
Variable proximity : Address -> Address -> nat.
Implicit Types (k : Kademlia Address) (node : Node Address).

Lemma history_reachable D L k : history proximity D L k -> reachable proximity k.
Proof. induction 1; eauto using reachable. Qed.

Lemma reachable_history k :
  reachable proximity k -> exists D L, history proximity D L k.
Proof. induction 1 as [| ? ? ? ? ? ? ? _ (D & L & ?) | ? ? ? ? ? _ (D & L & ?)];
         eauto using history. Qed.

(** C3, amended. Count accounting: [count] is the total length of the
    buckets, plus the number of nodes dropped by replacing calls of [On],
    minus the number of calls of [Off] for a node that was not in its bin.
    Appending and removing calls keep [count] and the total in step; a
    replacing [On] raises [count] alone, and the [Off] of a node no longer in
    its bin lowers [count] alone. *)
Theorem count_accounting D L k :
  history proximity D L k ->
  count k = occupancy (buckets k) + D - L.
Proof.
  induction 1 as [a p k Hnew
                 | D L k node cb now k' err dropped _ IH Hon
                 | D L k node cb k' called _ IH Hoff].
  - unfold New in Hnew. case_decide; [discriminate|]. simplify_eq. simpl.
    by rewrite occupancy_replicate_nil.
  - apply On_buckets in Hon as (_ & _ & Hcases).
    destruct Hcases as [(-> & -> & _ & _ & _ & ->)
      | [(bucket & Hb & Hlt & -> & -> & _ & ->)
        | (bucket & pos & replaced & Hb & Hge & -> & -> & _ & _ & _ & ->)]].
    + unfold len. simpl. lia.
    + apply at_index_Returned in Hb as [_ Eb]. unfold set_index.
      rewrite (occupancy_insert _ _ _ _ Eb). unfold len.
      rewrite length_app. simpl. lia.
    + apply at_index_Returned in Hb as [_ Eb]. unfold set_index at 1.
      rewrite (occupancy_insert _ _ _ _ Eb). unfold set_index, len.
      rewrite length_insert. simpl. lia.
  - unfold in_bin. apply Off_inv in Hoff. simpl in Hoff.
    destruct Hoff as (bucket & k1 & record & Hb & Hrm & _ & -> & _).
    rewrite Hb. simpl.
    destruct Hrm as [(i & Hf & Hs) | (Hf & ->)]; rewrite Hf.
    + rewrite bool_decide_eq_true_2 by eauto.
      apply setProxLimit_frame in Hs as (_ & _ & -> & -> & _). simpl.
      apply find_addr_Some in Hf as (Hi & _).
      apply at_index_Returned in Hb as [_ Eb]. unfold set_index.
      rewrite (occupancy_insert _ _ _ _ Eb). unfold len.
      rewrite length_app, length_take, length_drop. lia.
    + rewrite bool_decide_eq_false_2 by (intros [? ?]; discriminate). lia.
Qed.
End Counting.

Section ExampleHistories.
Import Bits.

Lemma history_join D L k node now :
  history proximity D L k ->
  history proximity (D + len (drops k node now)) L (join k node now).
Proof.
  intros Hk. unfold join, drops.
  destruct (On proximity k node None (frozen now))
    as [[[k' err] dropped]| |] eqn:E;
    try (replace (D + len []) with D by (unfold len; simpl; lia); exact Hk).
  eapply history_On; eauto.
Qed.

Lemma history_eq D L D' L' k :
  history proximity D L k -> D = D' -> L = L' -> history proximity D' L' k.
Proof. by intros ? <- <-. Qed.

Lemma history_rotated : history proximity 1 0 rotated.
Proof.
  pose proof (history_New proximity _ _ _ New_fresh) as H0.
  apply (history_join _ _ _ (peer (at_po 8 0) 0) 5) in H0.
  apply (history_join _ _ _ (peer (at_po 9 0) 1) 5) in H0.
  apply (history_join _ _ _ (peer (at_po 10 0) 2) 5) in H0.
  apply (history_join _ _ _ (peer (at_po 11 0) 3) 5) in H0.
  apply (history_join _ _ _ fifth late) in H0.
  eapply history_eq; [exact H0 | vm_compute; reflexivity | reflexivity].
Qed.
End ExampleHistories.

(** C3 as stated fails: with four nodes in bin 8, [count] and the total
    length of the buckets are both 4; a fifth node of that bin then replaces
    the idlest one, and [count] is 5 while the buckets still hold 4 nodes. *)
Lemma count_consistency_counterexample :
  reachable Bits.proximity Bits.full8
  ∧ count Bits.full8 = 4
  ∧ occupancy (buckets Bits.full8) = 4
  ∧ On Bits.proximity Bits.full8 Bits.fifth None (frozen Bits.late)
    = Returned (Bits.rotated, None, [Bits.peer (Bits.at_po 8 0) 0])
  ∧ reachable Bits.proximity Bits.rotated
  ∧ count Bits.rotated = 5
  ∧ occupancy (buckets Bits.rotated) = 4.
Proof.
  split; [apply reachable_full8|].
  do 3 (split; [vm_compute; reflexivity|]).
  split; [apply reachable_rotated|].
  split; vm_compute; reflexivity.
Qed.

Lemma count_accounting_witness :
  count Bits.rotated = occupancy (buckets Bits.rotated) + 1 - 0.
Proof.
  apply (count_accounting Bits.proximity 1 0 Bits.rotated).
  apply history_rotated.
Defined.

(** ** Errors of [On] and [Off] *)

Section Errors.
Context {Address : Type} `{Countable Address}.
Variable proximity : Address -> Address -> nat.
Implicit Types (k : Kademlia Address) (node : Node Address)
  (bucket : list (Node Address)).

Lemma findOrCreate_lookup (d : KadDb Address) index a url :
  db_index (fst (findOrCreate d index a url)) !! a
  = Some (snd (findOrCreate d index a url)).
Proof.
  unfold findOrCreate. destruct (db_index d !! a) eqn:E; simpl; [done|].
  by rewrite lookup_insert_eq.
Qed.

(** C5, amended. Bucket-full behaviour of [On], once the callback (if any)
    has accepted the node: when the target bin has [BucketSize] members or
    more, [On] measures for each member its idle time, the reading of the
    clock taken for that member minus its [LastActive], limited to the range
    of a [Duration]. [On] returns "bucket full" if and only if no member's
    measured idle time strictly exceeds [MaxIdleInterval], and then nothing
    is dropped and the buckets are unchanged; otherwise a member whose
    measured idle time is the largest is dropped and overwritten in place
    by the new node, and [proxLimit] and [proxSize] are unchanged. *)
Theorem On_bucket_full k node cb now bucket :
  let index := proximityBin proximity k (Addr node) in
  let record := snd (findOrCreate (db k) index (Addr node) (URL node)) in
  let idle := fun (i : nat) (p : Node Address) =>
                Since (now i) (LastActive p) in
  invoke cb record node = None ->
  at_index (buckets k) index = Returned bucket ->
  BucketSize (params k) <= len bucket ->
  exists k' err dropped,
    On proximity k node cb now = Returned (k', err, dropped)
    ∧ (err = Some BucketFull <->
       forall (i : nat) p, bucket !! i = Some p ->
         ¬ idle i p > MaxIdleInterval (params k))
    ∧ (err = Some BucketFull -> dropped = [] ∧ buckets k' = buckets k)
    ∧ (err ≠ Some BucketFull ->
       err = None
       ∧ exists (pos : nat) replaced,
           bucket !! pos = Some replaced
           ∧ idle pos replaced > MaxIdleInterval (params k)
           ∧ (forall (i : nat) p, bucket !! i = Some p ->
                idle i p <= idle pos replaced)
           ∧ dropped = [replaced]
           ∧ buckets k' = set_index (buckets k) index (<[pos := node]> bucket)
           ∧ proxLimit k' = proxLimit k ∧ proxSize k' = proxSize k).
Proof.
  intros index record idle Hcb Hb Hfull. unfold On.
  fold index. subst record.
  destruct (findOrCreate (db k) index (Addr node) (URL node)) as [d record].
  simpl in Hcb. rewrite Hcb. simpl. rewrite Hb. simpl.
  rewrite decide_False by lia.
  destruct (idlest now bucket 0 (MaxIdleInterval (params k)) 0 None)
    as [[idle' pos] repl] eqn:Ei.
  apply idlest_spec in Ei as (Hle & Hall & Hcase); [|lia].
  change (Z.to_nat 0) with 0%nat in *. simpl in Hall, Hcase.
  destruct Hcase as [(-> & -> & ->)
                    | (Hlt & j & p & -> & Ej & -> & -> & Hfirst)].
  - eexists _, _, _. split; [reflexivity|]. split; [|split].
    + split; [intros _ | done].
      intros i q Eq. specialize (Hall i q Eq). unfold idle. lia.
    + done.
    + done.
  - eexists _, _, _. split; [reflexivity|]. split; [|split].
    + split; [discriminate|]. intros Hnone. exfalso.
      apply (Hnone j p Ej). unfold idle. lia.
    + discriminate.
    + intros _. split; [done|]. exists j, p. simpl.
      repeat split; auto; [unfold idle; lia|].
      unfold set_index. by replace (Z.to_nat (0 + Z.of_nat j)) with j by lia.
Qed.

(** C9. Callback rejection: if the insertion callback returns an error,
    [On] returns an error, the buckets, [count], [proxLimit] and [proxSize]
    are as before the call and no node is dropped, while the record fetched
    or created for the node's address is in the registry. *)
Theorem On_callback_rejected k node f now e :
  let index := proximityBin proximity k (Addr node) in
  let record := snd (findOrCreate (db k) index (Addr node) (URL node)) in
  f record node = Some e ->
  exists k',
    On proximity k node (Some f) now
      = Returned (k', Some (CallbackError e), [])
    ∧ buckets k' = buckets k ∧ count k' = count k
    ∧ proxLimit k' = proxLimit k ∧ proxSize k' = proxSize k
    ∧ db_index (db k') !! Addr node = Some record.
Proof.
  intros index record Hf. unfold On. fold index.
  pose proof (findOrCreate_lookup (db k) index (Addr node) (URL node)) as Hl.
  subst record.
  destruct (findOrCreate (db k) index (Addr node) (URL node)) as [d record].
  simpl in *. rewrite Hf. eexists. split; [reflexivity|]. by simpl.
Qed.

(** C6, amended. [Off] for a node whose address is in no bucket: when its
    bin index is within the bucket array and the registry holds a record
    for the address, [Off] returns, leaves the buckets, [proxLimit] and
    [proxSize] unchanged and lowers [count] by exactly one; when the
    registry holds no record, the call panics on the nil record. *)
Theorem Off_absent k node cb :
  let index := proximityBin proximity k (Addr node) in
  (forall b p, b ∈ buckets k -> p ∈ b -> Addr p ≠ Addr node) ->
  0 <= index < len (buckets k) ->
  (is_Some (db_index (db k) !! Addr node) ->
   exists k' called,
     Off proximity k node cb = Returned (k', called)
     ∧ buckets k' = buckets k
     ∧ proxLimit k' = proxLimit k ∧ proxSize k' = proxSize k
     ∧ count k' = count k - 1)
  ∧ (db_index (db k) !! Addr node = None ->
     Off proximity k node cb = Panicked).
Proof.
  intros index Habsent Hidx. unfold Off. fold index.
  destruct (at_index_in_range (buckets k) index Hidx) as [bucket Hb].
  rewrite Hb. simpl.
  assert (find_addr (Addr node) bucket 0 = None) as ->.
  { apply find_addr_None, Forall_forall. intros p Hp.
    apply (Habsent bucket); [|done].
    apply at_index_Returned in Hb as [_ Eb].
    by apply list_elem_of_lookup_2 in Eb. }
  simpl. split.
  - intros [record ->]. eexists _, _. split; [reflexivity|]. by simpl.
  - by intros ->.
Qed.
End Errors.

(** C5 as stated fails. With four nodes in bin 8, last active at 0, 1, 2
    and 3, and a clock that advances by 10 between the readings, [On] drops
    the node last active at 3, although the node last active at 0 has been
    idle for longer at every instant. With four nodes whose idle times all
    exceed what a [Duration] can hold, each is measured as the maximum
    duration and [On] drops the first, although the fourth has been idle
    for longer. *)
Lemma On_bucket_full_counterexample :
  (at_index (buckets Bits.full8) 8
     = Returned [Bits.peer (Bits.at_po 8 0) 0; Bits.peer (Bits.at_po 9 0) 1;
                 Bits.peer (Bits.at_po 10 0) 2; Bits.peer (Bits.at_po 11 0) 3]
   ∧ exists k', Bits.ticked
                = Returned (k', None, [Bits.peer (Bits.at_po 11 0) 3])
   ∧ Bits.ticking 3 - 3 < Bits.ticking 3 - 0
   ∧ Bits.ticking 0 - 3 < Bits.ticking 0 - 0)
  ∧ (at_index (buckets Bits.old8) 8
       = Returned [Bits.peer (Bits.at_po 8 0) (Bits.ancient 0);
                   Bits.peer (Bits.at_po 9 0) (Bits.ancient 1);
                   Bits.peer (Bits.at_po 10 0) (Bits.ancient 2);
                   Bits.peer (Bits.at_po 11 0) (Bits.ancient 3)]
     ∧ exists k', Bits.saturated
                  = Returned (k', None,
                              [Bits.peer (Bits.at_po 8 0) (Bits.ancient 0)])
     ∧ Bits.late - Bits.ancient 0 < Bits.late - Bits.ancient 3).
Proof.
  split.
  - split; [vm_compute; reflexivity|]. eexists.
    split; [vm_compute; reflexivity|]. split; vm_compute; reflexivity.
  - split; [vm_compute; reflexivity|]. eexists.
    split; [vm_compute; reflexivity|]. vm_compute. reflexivity.
Qed.

Lemma On_bucket_full_witness :
  exists k' (pos : nat) replaced,
    On Bits.proximity Bits.full8 Bits.fifth None Bits.ticking
      = Returned (k', None, [replaced])
    ∧ [Bits.peer (Bits.at_po 8 0) 0; Bits.peer (Bits.at_po 9 0) 1;
       Bits.peer (Bits.at_po 10 0) 2; Bits.peer (Bits.at_po 11 0) 3] !! pos
      = Some replaced
    ∧ Since (Bits.ticking pos) (LastActive replaced)
      > MaxIdleInterval (params Bits.full8)
    ∧ Since (Bits.ticking 0) 0
      <= Since (Bits.ticking pos) (LastActive replaced).
Proof.
  destruct (On_bucket_full Bits.proximity Bits.full8 Bits.fifth None
              Bits.ticking
              [Bits.peer (Bits.at_po 8 0) 0; Bits.peer (Bits.at_po 9 0) 1;
               Bits.peer (Bits.at_po 10 0) 2; Bits.peer (Bits.at_po 11 0) 3])
    as (k' & err & dropped & Hon & Hiff & _ & Hrepl).
  - reflexivity.
  - vm_compute. reflexivity.
  - vm_compute. discriminate.
  - assert (err ≠ Some BucketFull) as Hne.
    { intros He. apply (proj1 Hiff He 0%nat _ eq_refl).
      vm_compute. reflexivity. }
    destruct (Hrepl Hne) as (-> & pos & replaced & Hpos & Hidle & Hmax & -> & _).
    exists k', pos, replaced. split; [exact Hon|]. split; [exact Hpos|].
    split; [exact Hidle|]. exact (Hmax 0%nat _ eq_refl).
Defined.

Lemma On_callback_rejected_witness :
  exists k',
    On Bits.proximity Bits.single Bits.fifth (Some Bits.reject) (frozen 100)
      = Returned (k', Some (CallbackError "rejected"), [])
    ∧ buckets k' = buckets Bits.single.
Proof.
  destruct (On_callback_rejected Bits.proximity Bits.single Bits.fifth
              Bits.reject (frozen 100) "rejected")
    as (k' & Hon & Hb & _).
  - reflexivity.
  - exists k'. split; [exact Hon | exact Hb].
Defined.

(** C6 as stated fails: a node that joined and left is in no bucket (all
    buckets are empty and [count] is 0), and a second [Off] for it takes
    [count] to -1, below the number of nodes in the buckets, which is 0. *)
Lemma Off_absent_counterexample :
  reachable Bits.proximity Bits.left_once
  ∧ Forall (fun b => b = []) (buckets Bits.left_once)
  ∧ count Bits.left_once = 0
  ∧ Off Bits.proximity Bits.left_once Bits.lone false
    = Returned (Bits.left_twice, None)
  ∧ buckets Bits.left_twice = buckets Bits.left_once
  ∧ count Bits.left_twice = -1
  ∧ occupancy (buckets Bits.left_twice) = 0.
Proof.
  split; [apply reachable_leave, reachable_single|].
  split; [vm_compute; repeat constructor|].
  repeat split; vm_compute; reflexivity.
Qed.

Lemma Off_absent_witness :
  exists k' called,
    Off Bits.proximity Bits.left_once Bits.lone false = Returned (k', called)
    ∧ count k' = count Bits.left_once - 1.
Proof.
  destruct (Off_absent Bits.proximity Bits.left_once Bits.lone false)
    as [Hknown _].
  - intros b p Hb Hp. exfalso. revert Hb Hp. vm_compute.
    intros Hb. repeat (apply elem_of_cons in Hb as [->|Hb];
                       [intros Hp; by apply elem_of_nil in Hp|]).
    by apply elem_of_nil in Hb.
  - vm_compute. split; [discriminate | reflexivity].
  - destruct Hknown as (k' & called & Hoff & _ & _ & _ & Hcount).
    + vm_compute. eauto.
    + exists k', called. split; [exact Hoff | exact Hcount].
Defined.

(** ** sort.Search *)

Section SearchFacts.
Lemma midpoint_between (i j : Z) : i < j -> i <= Z.shiftr (i + j) 1 < j.
Proof.
  intros Hij. rewrite Z.shiftr_div_pow2 by lia. change (2 ^ 1) with 2.
  pose proof (Z.div_mod (i + j) 2 ltac:(lia)).
  pose proof (Z.mod_pos_bound (i + j) 2 ltac:(lia)). lia.
Qed.

(** On a predicate that is monotone over [0, n), the binary search returns
    the boundary: false strictly below it, true from it on. *)
Lemma Search_loop_spec (f : Z -> bool) (n i j : Z) :
  (forall a b, 0 <= a <= b -> b < n -> f a = true -> f b = true) ->
  0 <= i <= j -> j <= n ->
  (forall a, 0 <= a < i -> f a = false) ->
  (forall b, j <= b < n -> f b = true) ->
  i <= Search_loop f i j <= j
  ∧ (forall a, 0 <= a < Search_loop f i j -> f a = false)
  ∧ (forall b, Search_loop f i j <= b < n -> f b = true).
Proof.
  funelim (Search_loop f i j); intros Hmono Hij Hjn Hlo Hhi.
  - clear Heqcall Heq.
    pose proof (midpoint_between i j ltac:(done)) as Hmid.
    destruct (f (Z.shiftr (i + j) 1)) eqn:Eh; simpl.
    + match goal with
      | IH : forall _, _ -> 0 <= i <= _ -> _ |- _ =>
          destruct (IH n) as (Hr & Hbelow & Habove); auto; try lia
      end.
      * intros b Hb. apply (Hmono (Z.shiftr (i + j) 1)); auto; lia.
      * repeat split; auto; lia.
    + match goal with
      | IH : forall _, _ -> 0 <= _ + 1 <= j -> _ |- _ =>
          destruct (IH n) as (Hr & Hbelow & Habove); auto; try lia
      end.
      * intros a Ha. destruct (f a) eqn:Ea; [|done].
        rewrite <- Eh. symmetry. apply (Hmono a); auto; lia.
      * repeat split; auto; lia.
  - repeat split; auto; try lia.
    intros b Hb. apply Hhi. lia.
Qed.

Lemma Search_spec (f : Z -> bool) (n : Z) :
  0 <= n ->
  (forall a b, 0 <= a <= b -> b < n -> f a = true -> f b = true) ->
  0 <= Search n f <= n
  ∧ (forall a, 0 <= a < Search n f -> f a = false)
  ∧ (forall b, Search n f <= b < n -> f b = true).
Proof.
  intros Hn Hmono. unfold Search.
  apply (Search_loop_spec f n 0 n); auto; try lia; intros; lia.
Qed.
End SearchFacts.

(** ** nodesByDistance *)

Section PushFacts.
Context {Address : Type} `{Countable Address}.
Variable distance : Address -> Address -> N.
Implicit Types (target : Address) (node p q : Node Address)
  (nodes : list (Node Address)).

Lemma ProxCmp_ge target a b :
  ProxCmp distance target a b >= 0 <-> (distance b target <= distance a target)%N.
Proof.
  unfold ProxCmp.
  destruct (N.compare_spec (distance a target) (distance b target)); lia.
Qed.

Lemma ProxCmp_lt target a b :
  ProxCmp distance target a b < 0 <-> (distance a target < distance b target)%N.
Proof.
  unfold ProxCmp.
  destruct (N.compare_spec (distance a target) (distance b target)); lia.
Qed.

#[local] Instance by_distance_refl target : Reflexive (by_distance distance target).
Proof. intros p. unfold by_distance. lia. Qed.

#[local] Instance by_distance_trans target : Transitive (by_distance distance target).
Proof. intros p q r. unfold by_distance. lia. Qed.

Lemma sorted_lookup target nodes (i j : nat) p q :
  sorted_by_distance distance target nodes ->
  (i <= j)%nat -> nodes !! i = Some p -> nodes !! j = Some q ->
  by_distance distance target p q.
Proof.
  intros Hs Hij Ep Eq. destruct (decide (i = j)) as [->|Hne].
  { simplify_eq. reflexivity. }
  rewrite <- (take_drop j nodes) in Hs.
  eapply StronglySorted_app_1_elem_of; [exact Hs | |].
  - apply list_elem_of_lookup. exists i. rewrite lookup_take_lt by lia. done.
  - apply list_elem_of_lookup. exists 0%nat. rewrite lookup_drop.
    by rewrite Nat.add_0_r.
Qed.

(** The code's own check agrees with the sortedness predicate. *)
Lemma sortedByDistanceTo_from_true target last nodes :
  Forall (fun q => (distance last target <= distance (Addr q) target)%N) nodes ->
  sorted_by_distance distance target nodes ->
  sortedByDistanceTo_from distance target last nodes = true.
Proof.
  revert last. induction nodes as [|p rest IH]; intros last Hall Hs; [done|].
  simpl. apply Forall_cons in Hall as [Hp _].
  apply StronglySorted_cons in Hs as [Hrest Hs].
  rewrite decide_False by (rewrite ProxCmp_lt; lia).
  apply IH; [|done]. exact Hrest.
Qed.

Lemma sortedByDistanceTo_true target nodes :
  sorted_by_distance distance target nodes ->
  sortedByDistanceTo distance target nodes = true.
Proof.
  destruct nodes as [|p rest]; [done|]. simpl.
  intros [Hrest Hs]%StronglySorted_cons.
  by apply sortedByDistanceTo_from_true.
Qed.

(** Shifting the tail right by one with [copy] and writing position [ix]. *)
Lemma shift_insert {A} (l : list A) (ix : nat) (x : A) :
  (ix < length l)%nat ->
  <[ix := x]> (take (S ix) l ++ copy (drop (S ix) l) (drop ix l))
  = take ix l ++ x :: take (length l - S ix) (drop ix l).
Proof.
  intros Hix. unfold copy.
  rewrite (drop_ge (drop (S ix) l)) by (rewrite !length_drop; lia).
  rewrite app_nil_r, length_drop.
  destruct (lookup_lt_is_Some_2 l ix Hix) as [y Ey].
  rewrite (take_S_r _ _ _ Ey), <- app_assoc. simpl.
  rewrite insert_app_r_alt by (rewrite length_take; lia).
  rewrite length_take. replace (ix - ix `min` length l)%nat with 0%nat by lia.
  done.
Qed.

(** [push] on a sorted list: the node goes in after the strictly closer
    nodes; a list already holding [max] nodes or more loses its last
    node, or is left alone when no node of it is as far as the new one. *)
Lemma push_spec target nodes node max :
  sorted_by_distance distance target nodes ->
  exists ix : nat,
    (ix <= length nodes)%nat
    ∧ Forall (fun p => (distance (Addr p) target < distance (Addr node) target)%N)
        (take ix nodes)
    ∧ Forall (fun q => (distance (Addr node) target <= distance (Addr q) target)%N)
        (drop ix nodes)
    ∧ push distance target nodes node max =
        if decide (len nodes < max)
        then take ix nodes ++ node :: drop ix nodes
        else if decide (ix < length nodes)%nat
             then take ix nodes ++ node
                    :: take (length nodes - S ix) (drop ix nodes)
             else nodes.
Proof.
  intros Hs. unfold push.
  set (f := fun i : Z =>
              match nodes !! Z.to_nat i with
              | Some p => bool_decide (ProxCmp distance target (Addr p) (Addr node) >= 0)
              | None => false
              end).
  destruct (Search_spec f (len nodes)) as (Hix & Hbelow & Habove).
  { unfold len. lia. }
  { intros a b Hab Hb. unfold f.
    destruct (lookup_lt_is_Some_2 nodes (Z.to_nat a)) as [p Ep];
      [unfold len in *; lia|].
    destruct (lookup_lt_is_Some_2 nodes (Z.to_nat b)) as [q Eq];
      [unfold len in *; lia|].
    rewrite Ep, Eq. rewrite !bool_decide_eq_true, !ProxCmp_ge.
    pose proof (sorted_lookup target nodes (Z.to_nat a) (Z.to_nat b) p q Hs
                  ltac:(lia) Ep Eq) as Hpq.
    unfold by_distance in Hpq. lia. }
  set (ixZ := Search (len nodes) f) in *.
  exists (Z.to_nat ixZ). unfold len in Hix.
  split; [lia|]. split; [|split].
  - apply Forall_forall. intros p [i Ei]%list_elem_of_lookup.
    apply lookup_take_Some in Ei as [Ei Hi].
    specialize (Hbelow (Z.of_nat i) ltac:(lia)). unfold f in Hbelow.
    rewrite Nat2Z.id, Ei in Hbelow.
    apply bool_decide_eq_false in Hbelow. rewrite ProxCmp_ge in Hbelow. lia.
  - apply Forall_forall. intros q [i Ei]%list_elem_of_lookup.
    rewrite lookup_drop in Ei. apply lookup_lt_Some in Ei as Hi.
    specialize (Habove (Z.of_nat (Z.to_nat ixZ + i)) ltac:(unfold len; lia)).
    unfold f in Habove. rewrite Nat2Z.id, Ei in Habove.
    apply bool_decide_eq_true in Habove. by rewrite ProxCmp_ge in Habove.
  - unfold set_index.
    replace (Z.to_nat (ixZ + 1)) with (S (Z.to_nat ixZ)) by lia.
    destruct (decide (len nodes < max)) as [Hroom|Hcap].
    + rewrite decide_True
        by (unfold len; rewrite length_app; simpl; lia).
      rewrite shift_insert by (rewrite length_app; simpl; lia).
      rewrite length_app. simpl.
      rewrite take_app_le by lia. rewrite drop_app_le by lia.
      rewrite take_app_length' by (rewrite length_drop; lia). done.
    + destruct (decide (ixZ < len nodes)) as [Hin|Hout].
      * rewrite decide_True by (unfold len in Hin; lia).
        by rewrite shift_insert by (unfold len in Hin; lia).
      * rewrite decide_False by (unfold len in Hout; lia). done.
Qed.

Lemma push_sorted target nodes node max :
  sorted_by_distance distance target nodes ->
  sorted_by_distance distance target (push distance target nodes node max).
Proof.
  intros Hs. destruct (push_spec target nodes node max Hs)
    as (ix & Hix & Hbefore & Hafter & ->).
  pose proof Hs as Hs'. rewrite <- (take_drop ix nodes) in Hs'.
  apply StronglySorted_app in Hs' as (Hcross & Hs1 & Hs2).
  assert (forall m, sorted_by_distance distance target
            (take ix nodes ++ node :: take m (drop ix nodes))) as Hins.
  { intros m. apply StronglySorted_app. split; [|split].
    - intros p q Hp [->|Hq]%elem_of_cons.
      + rewrite Forall_forall in Hbefore. specialize (Hbefore p Hp).
        unfold by_distance. lia.
      + apply Hcross; [done|]. by apply (subseteq_take m).
    - done.
    - apply StronglySorted_cons. split.
      + apply Forall_forall. intros q Hq%(subseteq_take m).
        rewrite Forall_forall in Hafter. by apply Hafter.
      + rewrite <- (take_drop m (drop ix nodes)) in Hs2.
        by apply StronglySorted_app_1_l in Hs2. }
  repeat case_decide; auto.
  rewrite <- (take_ge (drop ix nodes) (length nodes)) at 1
    by (rewrite length_drop; lia).
  apply Hins.
Qed.

Lemma push_length target nodes node max :
  sorted_by_distance distance target nodes ->
  len (push distance target nodes node max)
  = if decide (len nodes < max) then len nodes + 1 else len nodes.
Proof.
  intros Hs. destruct (push_spec target nodes node max Hs)
    as (ix & Hix & _ & _ & ->).
  unfold len. repeat case_decide; try done.
  - rewrite length_app, length_take. simpl. rewrite length_drop. lia.
  - rewrite length_app, length_take. simpl.
    rewrite length_take, length_drop. lia.
Qed.

(** Pushing a whole bucket keeps the list sorted and within the limit (a
    negative limit lets no node in). *)
Lemma push_all target limit bucket nodes :
  sorted_by_distance distance target nodes ->
  len nodes <= Z.max 0 limit ->
  sorted_by_distance distance target
    (foldl (fun acc p => push distance target acc p limit) nodes bucket)
  ∧ len (foldl (fun acc p => push distance target acc p limit) nodes bucket)
    <= Z.max 0 limit.
Proof.
  revert nodes. induction bucket as [|p rest IH]; intros nodes Hs Hl; [done|].
  simpl. apply IH; [by apply push_sorted|].
  rewrite push_length by done. case_decide; lia.
Qed.
End PushFacts.

(** ** The scan of [FindClosest] *)

Section ScanFacts.
Context {Address : Type} `{Countable Address}.
Variable distance : Address -> Address -> N.
Variables (k : Kademlia Address) (target : Address) (po max min limit : Z).
Implicit Types (s : scan Address).

Local Abbreviation M := (MaxProx (params k)).

Lemma seqZ_snoc (m n : Z) : 0 <= n -> seqZ m (n + 1) = seqZ m n ++ [m + n].
Proof.
  intros Hn. rewrite seqZ_app by lia. f_equal.
Qed.

Lemma peers_in_snoc (bs : list (list (Node Address))) bins i b :
  at_index bs i = Returned b ->
  peers_in bs (bins ++ [i]) = peers_in bs bins + len b.
Proof.
  intros [_ Eb]%at_index_Returned.
  induction bins as [|j bins IH]; simpl.
  - rewrite Eb. simpl. lia.
  - fold (peers_in bs (bins ++ [i])). fold (peers_in bs bins). lia.
Qed.

(** What has been read so far is an initial part of the scan order. *)
Lemma scan_inv_prefix s :
  scan_inv k po s -> sc_visited s `prefix_of` scan_order po M.
Proof.
  intros (_ & _ & [(_ & Hi & ->) | (_ & Hi & Hpo & ->)]); unfold scan_order.
  - apply prefix_app_r.
    replace (M - po + 1) with ((sc_index s - po) + (M - sc_index s + 1)) by lia.
    rewrite seqZ_app by lia. by eexists.
  - apply prefix_app.
    replace po with ((sc_index s + 1) + (po - 1 - sc_index s)) at 2 by lia.
    rewrite seqZ_app by lia. rewrite reverse_app. by eexists.
Qed.

Lemma scan_inv_prefix_next s :
  scan_inv k po s -> 0 <= sc_index s ->
  (sc_visited s ++ [sc_index s]) `prefix_of` scan_order po M.
Proof.
  intros (_ & _ & [(_ & Hi & ->) | (_ & Hi & Hpo & ->)]) Hguard;
    unfold scan_order.
  - apply prefix_app_r.
    replace (M - po + 1)
      with (((sc_index s - po) + 1) + (M - sc_index s)) by lia.
    rewrite (seqZ_app _ (sc_index s - po + 1)) by lia.
    rewrite seqZ_snoc by lia.
    replace (po + (sc_index s - po)) with (sc_index s) by lia. by eexists.
  - rewrite <- app_assoc. apply prefix_app.
    replace po with (sc_index s + (po - sc_index s)) at 2 by lia.
    rewrite seqZ_app by lia. rewrite reverse_app.
    rewrite (seqZ_cons (0 + sc_index s)) by lia. rewrite reverse_cons.
    replace (Z.succ (0 + sc_index s)) with (sc_index s + 1) by lia.
    replace (Z.pred (po - sc_index s)) with (po - 1 - sc_index s) by lia.
    replace (0 + sc_index s) with (sc_index s) by lia. by eexists.
Qed.

(** One iteration from a loop head whose guard holds. *)
Lemma scan_iter_inv s c :
  0 <= po -> scan_inv k po s -> 0 <= sc_index s ->
  sorted_by_distance distance target (sc_nodes s) ->
  len (sc_nodes s) <= Z.max 0 limit ->
  scan_iter distance k target po max min limit s = Returned c ->
  match c with
  | Continue s' =>
      scan_inv k po s'
      ∧ sorted_by_distance distance target (sc_nodes s')
      ∧ len (sc_nodes s') <= Z.max 0 limit
  | Break s' =>
      sc_step s' = sc_step s ∧ sc_index s' = sc_index s
      ∧ sc_visited s' = sc_visited s ++ [sc_index s]
      ∧ sc_n s' = peers_in (buckets k) (sc_visited s')
      ∧ Forall (fun i => 0 <= i <= M) (sc_visited s')
      ∧ sorted_by_distance distance target (sc_nodes s')
      ∧ len (sc_nodes s') <= Z.max 0 limit
      ∧ sc_n s' >= min ∧ (sc_step s' < 0 ∨ max = 0)
  end.
Proof.
  intros Hpo0 (Hn & Hrange & Hdir) Hguard Hsorted Hlen. unfold scan_iter.
  destruct (at_index (buckets k) (sc_index s)) as [bucket| |] eqn:Eb;
    simpl; try discriminate.
  destruct (push_all distance target limit bucket (sc_nodes s) Hsorted Hlen)
    as [Hsorted' Hlen'].
  assert (sc_n s + len bucket
          = peers_in (buckets k) (sc_visited s ++ [sc_index s])) as Hn'.
  { rewrite (peers_in_snoc _ _ _ _ Eb). lia. }
  assert (sc_index s <= M) as HiM by (destruct Hdir as [?|?]; lia).
  assert (Forall (fun i => 0 <= i <= M) (sc_visited s ++ [sc_index s]))
    as Hrange'.
  { apply Forall_app. split; [done|]. repeat constructor; lia. }
  case_decide as Hbrk.
  - intros ?; simplify_eq. simpl. destruct Hbrk as [Hmin Hwhy].
    repeat split; auto.
  - intros Hc.
    destruct (decide (sc_index s = M)) as [HM|Hne]; simplify_eq; simpl;
      (split; [|done]); unfold scan_inv; simpl;
      (split; [done|]); (split; [done|]).
    + destruct Hdir as [(Hst & Hi & Hv) | (Hst & Hi & Hpo & Hv)];
        [|lia].
      right. repeat split; try lia.
      rewrite Hv, HM.
      replace (po - 1 - (po + -1)) with 0 by lia.
      change (seqZ (po + -1 + 1) 0) with (@nil Z).
      rewrite reverse_nil, app_nil_r.
      rewrite seqZ_snoc by lia. repeat f_equal. lia.
    + destruct Hdir as [(Hst & Hi & Hv) | (Hst & Hi & Hpo & Hv)];
        rewrite Hst, Hv.
      * left. repeat split; try lia.
        replace (sc_index s + 1 - po) with ((sc_index s - po) + 1) by lia.
        rewrite seqZ_snoc by lia. repeat f_equal. lia.
      * right. repeat split; try lia.
        rewrite <- app_assoc. f_equal.
        replace (sc_index s + -1 + 1) with (sc_index s) by lia.
        replace (po - 1 - (sc_index s + -1))
          with ((po - 1 - sc_index s) + 1) by lia.
        rewrite (seqZ_cons (sc_index s)) by lia. rewrite reverse_cons.
        repeat f_equal; lia.
Qed.

(** What holds when the loop has returned. *)
Lemma scan_loop_spec fuel s s' broke :
  0 <= po -> scan_inv k po s ->
  sorted_by_distance distance target (sc_nodes s) ->
  len (sc_nodes s) <= Z.max 0 limit ->
  scan_loop distance k target po max min limit fuel s = Returned (s', broke) ->
  sc_n s' = peers_in (buckets k) (sc_visited s')
  ∧ Forall (fun i => 0 <= i <= M) (sc_visited s')
  ∧ sc_visited s' `prefix_of` scan_order po M
  ∧ sorted_by_distance distance target (sc_nodes s')
  ∧ len (sc_nodes s') <= Z.max 0 limit
  ∧ (broke = true ->
     sc_n s' >= min ∧ (sc_step s' < 0 ∨ max = 0)
     ∧ ((sc_step s' = 1 ∧ po <= sc_index s')
        ∨ (sc_step s' = -1 ∧ sc_index s' < po ∧ M ∈ sc_visited s')))
  ∧ (broke = false -> sc_index s' = -1 ∧ sc_visited s' = scan_order po M).
Proof.
  intros Hpo. revert s.
  induction fuel as [|fuel IH]; intros s Hinv Hsorted Hlen Hloop;
    simpl in Hloop; case_decide as Hguard; try discriminate.
  1, 3: (pose proof (scan_inv_prefix s Hinv) as Hpre;
         simplify_eq;
         destruct Hinv as (Hn & Hrange & Hdir);
         repeat split; auto; try discriminate;
         destruct Hdir as [(? & ? & ?) | (Hst & Hi & HpoM & Hv)]; try lia;
         rewrite Hv; unfold scan_order;
         replace (sc_index s' + 1) with 0 by lia;
         replace (po - 1 - sc_index s') with po by lia; done).
  destruct (scan_iter distance k target po max min limit s) as [c| |] eqn:Ec;
    simpl in Hloop; try discriminate.
  pose proof (scan_iter_inv s c Hpo Hinv ltac:(lia) Hsorted Hlen Ec) as Hc.
  destruct c as [s1|s1].
  - destruct Hc as (Hinv1 & Hsorted1 & Hlen1). by apply (IH s1).
  - simplify_eq.
    destruct Hc as (Hst & Hi & Hv & Hn & Hrange & Hs' & Hl' & Hmin & Hwhy).
    repeat split; auto; try discriminate.
    + rewrite Hv. apply scan_inv_prefix_next; [done | lia].
    + destruct Hinv as (_ & _ & [(? & ? & ?) | (? & ? & HpoM & Hvs)]).
      * left. lia.
      * right. repeat split; try lia. rewrite Hv, Hvs.
        apply elem_of_app. left. apply elem_of_app. left.
        apply elem_of_seqZ. lia.
Qed.

(** With the bucket array in place the loop returns within the iterations
    that remain. *)
Lemma scan_loop_returns fuel s :
  0 <= po -> scan_inv k po s ->
  len (buckets k) = M + 1 ->
  sorted_by_distance distance target (sc_nodes s) ->
  len (sc_nodes s) <= Z.max 0 limit ->
  (remaining k po s <= fuel)%nat ->
  exists r, scan_loop distance k target po max min limit fuel s = Returned r.
Proof.
  intros Hpo. revert s.
  induction fuel as [|fuel IH]; intros s Hinv Hbs Hsorted Hlen Hfuel;
    simpl; case_decide as Hguard; eauto.
  - exfalso. unfold remaining in Hfuel.
    destruct Hinv as (_ & _ & [(Hst & ? & ?) | (Hst & ? & ? & ?)]);
      rewrite Hst in Hfuel; simpl in Hfuel; lia.
  - assert (sc_index s <= M) as HiM
      by (destruct Hinv as (_ & _ & [(? & ? & ?) | (? & ? & ? & ?)]); lia).
    destruct (scan_iter distance k target po max min limit s) as [c| |] eqn:Ec.
    + simpl. pose proof (scan_iter_inv s c Hpo Hinv ltac:(lia) Hsorted Hlen Ec) as Hc.
      destruct c as [s1|s1]; [|eauto].
      destruct Hc as (Hinv1 & Hsorted1 & Hlen1). apply IH; auto.
      unfold scan_iter in Ec.
      destruct (at_index (buckets k) (sc_index s)); simpl in Ec; try discriminate.
      case_decide; [discriminate|].
      unfold remaining in *.
      destruct Hinv as (_ & _ & [(Hst & ? & ?) | (Hst & ? & ? & ?)]);
        rewrite Hst in Hfuel; simpl in Hfuel;
        destruct (decide (sc_index s = M)); simplify_eq; simpl;
        try rewrite Hst; simpl; lia.
    + exfalso. unfold scan_iter in Ec.
      destruct (at_index_in_range (buckets k) (sc_index s)) as [b Eb]; [lia|].
      rewrite Eb in Ec. simpl in Ec. repeat case_decide; discriminate.
    + exfalso. unfold scan_iter in Ec.
      destruct (at_index_in_range (buckets k) (sc_index s)) as [b Eb]; [lia|].
      rewrite Eb in Ec. simpl in Ec. repeat case_decide; discriminate.
Qed.
End ScanFacts.

(** ** FindClosest *)

Section Closest.
Context {Address : Type} `{Countable Address}.
Variable proximity : Address -> Address -> nat.
Variable distance : Address -> Address -> N.
Implicit Types (k : Kademlia Address) (target : Address)
  (s : scan Address).

Lemma scan_inv_start k target :
  scan_inv k (proximityBin proximity k target)
    {| sc_index := proximityBin proximity k target; sc_step := 1; sc_n := 0;
       sc_nodes := []; sc_visited := [] |}.
Proof.
  unfold scan_inv. simpl. split; [done|]. split; [constructor|]. left.
  pose proof (proximityBin_le proximity k target).
  repeat split; try lia. by rewrite Z.sub_diag.
Qed.

(** Everything the scan guarantees when it returns. *)
Lemma FindClosest_scan_spec k target max s broke :
  FindClosest_scan proximity distance k target max = Returned (s, broke) ->
  let po := proximityBin proximity k target in
  let min := if decide (max = 0) then 1 else max in
  let limit := if decide (max = 0) then maxPeers else max in
  sc_n s = peers_in (buckets k) (sc_visited s)
  ∧ Forall (fun i => 0 <= i <= MaxProx (params k)) (sc_visited s)
  ∧ sc_visited s `prefix_of` scan_order po (MaxProx (params k))
  ∧ sorted_by_distance distance target (sc_nodes s)
  ∧ (0 <= max -> len (sc_nodes s) <= limit)
  ∧ (broke = true ->
     sc_n s >= min ∧ (sc_step s < 0 ∨ max = 0)
     ∧ ((sc_step s = 1 ∧ po <= sc_index s)
        ∨ (sc_step s = -1 ∧ sc_index s < po
           ∧ MaxProx (params k) ∈ sc_visited s)))
  ∧ (broke = false -> 0 <= po ->
     sc_visited s = scan_order po (MaxProx (params k))).
Proof.
  intros Hscan po min limit. unfold FindClosest_scan in Hscan.
  fold po min limit in Hscan.
  destruct (decide (0 <= po)) as [Hpo|Hneg].
  - eapply scan_loop_spec in Hscan as (? & ? & ? & ? & Hl & Hbrk & Hnb); eauto.
    + do 4 (split; [done|]). split; [|split].
      * intros Hmax. subst limit. case_decide; unfold maxPeers in *; lia.
      * exact Hbrk.
      * intros Hb _. by apply Hnb.
    + apply scan_inv_start.
    + constructor.
    + unfold len. simpl. lia.
  - simpl in Hscan. rewrite decide_False in Hscan by lia. simplify_eq. simpl.
    repeat split; auto; try discriminate; try lia.
    + apply prefix_nil.
    + constructor.
    + unfold len, limit, maxPeers. simpl. case_decide; lia.
Qed.

(** On a reachable table the scan returns. *)
Lemma FindClosest_scan_returns k target max :
  reachable proximity k ->
  exists r, FindClosest_scan proximity distance k target max = Returned r.
Proof.
  intros Hk. destruct (reachable_core_inv proximity k Hk) as (Hlen & _).
  unfold FindClosest_scan.
  set (po := proximityBin proximity k target).
  destruct (decide (0 <= po)) as [Hpo|Hneg].
  - eapply scan_loop_returns; eauto.
    + apply scan_inv_start.
    + constructor.
    + unfold len. simpl. lia.
    + unfold remaining. simpl. unfold len in Hlen. lia.
  - simpl. rewrite decide_False by lia. eauto.
Qed.

(** C7. Closest-peers ordering and length: on every reachable table, for
    every target and every [max], [FindClosest] returns a list sorted by
    non-decreasing distance to the target (the code's own
    [sortedByDistanceTo] accepts it), and for a count [max >= 0] its length
    does not exceed [max], or [maxPeers] when [max] is 0. *)
Theorem FindClosest_sorted_bounded k target max :
  reachable proximity k ->
  exists nodes,
    FindClosest proximity distance k target max = Returned nodes
    ∧ sorted_by_distance distance target nodes
    ∧ sortedByDistanceTo distance target nodes = true
    ∧ (0 <= max ->
       len nodes <= if decide (max = 0) then maxPeers else max).
Proof.
  intros Hk.
  destruct (FindClosest_scan_returns k target max Hk) as [[s broke] Hscan].
  exists (sc_nodes s). unfold FindClosest. rewrite Hscan. simpl.
  apply FindClosest_scan_spec in Hscan as (_ & _ & _ & Hsorted & Hlen & _).
  repeat split; auto. by apply sortedByDistanceTo_true.
Qed.

(** C8, amended. Early stop of the scan: when the loop is left by [break],
    at least [max] nodes have been read (at least one when [max] is 0), and
    for [max ≠ 0] the scan has turned around: it has read bin [MaxProx] and
    is moving down below the target's bin. For [max = 0] the loop is left
    as soon as one node has been read, whatever the direction. *)
Theorem FindClosest_stop_rule k target max s :
  FindClosest_scan proximity distance k target max = Returned (s, true) ->
  let po := proximityBin proximity k target in
  sc_n s = peers_in (buckets k) (sc_visited s)
  ∧ sc_n s >= (if decide (max = 0) then 1 else max)
  ∧ (max ≠ 0 ->
     sc_step s = -1 ∧ sc_index s < po ∧ MaxProx (params k) ∈ sc_visited s).
Proof.
  intros Hscan po.
  apply FindClosest_scan_spec in Hscan as (Hn & _ & _ & _ & _ & Hbrk & _).
  destruct (Hbrk eq_refl) as (Hmin & Hwhy & Hdir).
  repeat split; auto; destruct Hdir as [[? ?]|(? & ? & ?)]; auto; lia.
Qed.

End Closest.

Lemma FindClosest_sorted_bounded_witness :
  exists nodes,
    FindClosest Bits.proximity Bits.distance Bits.spread Bits.target3 3
      = Returned nodes
    ∧ sorted_by_distance Bits.distance Bits.target3 nodes
    ∧ len nodes <= 3.
Proof.
  destruct (FindClosest_sorted_bounded Bits.proximity Bits.distance
              Bits.spread Bits.target3 3 reachable_spread)
    as (nodes & Hret & Hsorted & _ & Hlen).
  exists nodes. split; [exact Hret|]. split; [exact Hsorted|].
  apply Hlen. lia.
Defined.

(** C8 as stated fails for [max = 0]: on the table with a single node in
    bin 3 and a target of bin 3, the loop is left by [break] after reading
    bin 3 alone, still moving up ([step = 1]). *)
Lemma FindClosest_stop_counterexample :
  reachable Bits.proximity Bits.single
  ∧ proximityBin Bits.proximity Bits.single Bits.target3 = 3
  ∧ at_index (buckets Bits.single) 3 = Returned [Bits.lone]
  ∧ FindClosest_scan Bits.proximity Bits.distance Bits.single Bits.target3 0
    = Returned (Bits.any_of_single, true)
  ∧ sc_step Bits.any_of_single = 1
  ∧ sc_visited Bits.any_of_single = [3]
  ∧ sc_n Bits.any_of_single = 1.
Proof.
  split; [apply reachable_single|].
  repeat split; vm_compute; reflexivity.
Qed.

Lemma FindClosest_stop_rule_witness :
  sc_n Bits.three_of_spread >= 3
  ∧ sc_step Bits.three_of_spread = -1.
Proof.
  destruct (FindClosest_stop_rule Bits.proximity Bits.distance Bits.spread
              Bits.target3 3 Bits.three_of_spread)
    as (_ & Hn & Hturn).
  - vm_compute. reflexivity.
  - split; [exact Hn|]. apply Hturn. discriminate.
Defined.


(** * Further properties of the table *)

(** ** The boundary is as high as it can be *)

Section Minimality.
Context {Address : Type}.
Implicit Types (bs : list (list (Node Address))).

Lemma contract_minimal bs pbs ps pl curr ps' pl' b :
  exact_sums bs pbs ->
  contract bs pbs ps pl curr = Returned (ps', pl') ->
  at_index bs pl = Returned b -> curr = len b ->
  min_at bs pbs ps' pl'.
Proof.
  revert b. funelim (contract bs pbs ps pl curr);
    intros b0 Hx Hret Hb0 Hcurr; try discriminate.
  - injection Hret as <- <-. intros b' Hb'.
    rewrite Hb0 in Hb'. injection Hb' as <-. subst curr.
    destruct b0 as [|p b0]; [by left | right].
    pose proof (exact_sums_at _ _ _ _ Hx Hb0) as Hw.
    destruct (decide (pbs + len (p :: b0) <= pSize)); [|lia].
    exfalso. apply n. rewrite Hw. split; [done|]. unfold len. simpl. lia.
  - match goal with
    | IH : forall _ _ _, _ |- _ => eapply (IH ps' pl' b); eauto
    end.
Qed.

Lemma expand_minimal bs pbs r ps pl ps' pl' :
  expand bs pbs r ps pl = Returned (ps', pl') ->
  0 <= r ->
  (r < pl -> at_index bs r = Returned []) ->
  min_at bs pbs ps pl ∨ ((ps < pbs ∨ r < pl) ∧ 0 < pl) ->
  min_at bs pbs ps' pl'.
Proof.
  funelim (expand bs pbs r ps pl); intros Hret Hr Hempty Hstart;
    try discriminate.
  - injection Hret as <- <-. by destruct Hstart.
  - match goal with
    | IH : forall _ _, _ |- _ => apply (IH ps' pl'); auto
    end.
    + intros Hlt. apply Hempty. lia.
    + destruct (decide (pSize < pbs)) as [Hsmall|Hbig].
      * left. intros b' Hb'. rewrite Heq in Hb'. injection Hb' as <-.
        right. lia.
      * destruct (decide (r = pLimit - 1)) as [->|Hne].
        -- left. intros b' Hb'. left.
           rewrite Hempty in Hb' by lia. by simplify_eq.
        -- right. split; [right|]; lia.
Qed.
End Minimality.

Section Boundary.
Context {Address : Type} `{Countable Address}.
Variable proximity : Address -> Address -> nat.
Implicit Types (k : Kademlia Address) (node : Node Address)
  (bucket : list (Node Address)) (bs : list (list (Node Address))).

Lemma min_at_lengths bs bs' pbs ps pl :
  length <$> bs' = length <$> bs -> min_at bs pbs ps pl -> min_at bs' pbs ps pl.
Proof.
  intros Hl Hmin b' [Hpl Eb']%at_index_Returned.
  assert ((length <$> bs) !! Z.to_nat pl = Some (length b')) as E.
  { by rewrite <- Hl, list_lookup_fmap, Eb'. }
  rewrite list_lookup_fmap in E.
  destruct (bs !! Z.to_nat pl) as [b|] eqn:Eb; simplify_eq/=.
  destruct (Hmin b) as [->|Hlt].
  - apply at_index_Returned. split; [lia | done].
  - left. by destruct b'.
  - right. unfold len in *. lia.
Qed.

Lemma core_minimal_lengths k k' :
  params k' = params k -> proxLimit k' = proxLimit k ->
  proxSize k' = proxSize k ->
  length <$> buckets k' = length <$> buckets k ->
  core_minimal k -> core_minimal k'.
Proof.
  unfold core_minimal. intros -> -> -> Hl Hmin Hf.
  by apply (min_at_lengths (buckets k)), Hmin.
Qed.

Lemma core_minimal_New a p k : New a p = Returned k -> core_minimal k.
Proof.
  unfold New. case_decide; [discriminate|]. intros ?; simplify_eq.
  intros _ b [_ Eb]%at_index_Returned. simpl in Eb.
  apply lookup_replicate in Eb as [-> _]. by left.
Qed.

Lemma setProxLimit_on_minimal k r bucket node k' :
  core_minimal k ->
  (sum_fits (params k) ->
   exact_sums (set_index (buckets k) r (bucket ++ [node]))
     (ProxBinSize (params k))) ->
  at_index (buckets k) r = Returned bucket ->
  setProxLimit
    (with_buckets k (set_index (buckets k) r (bucket ++ [node]))) r true
    = Returned k' ->
  core_minimal k'.
Proof.
  intros Hmin Hx Hr Hs.
  apply at_index_Returned in Hr as Hr'. destruct Hr' as [Hr0 Er].
  apply lookup_lt_Some in Er as Hrlt.
  set (bs' := set_index (buckets k) r (bucket ++ [node])) in *.
  assert (at_index bs' r = Returned (bucket ++ [node])) as Hr2.
  { apply at_index_Returned. split; [done|].
    unfold bs', set_index. by apply list_lookup_insert_eq. }
  unfold setProxLimit in Hs. simpl in Hs. fold bs' in Hs.
  destruct (decide (r < proxLimit k)) as [Hlt|Hge].
  - rewrite Hr2 in Hs. simpl in Hs.
    rewrite bool_decide_eq_true_2 in Hs
      by (unfold len; rewrite length_app; simpl; lia).
    simpl in Hs. simplify_eq. unfold core_minimal. simpl.
    intros Hf b [Hpl Eb]%at_index_Returned. apply (Hmin Hf).
    apply at_index_Returned. split; [done|].
    unfold bs', set_index in Eb. rewrite list_lookup_insert_ne in Eb; [done|lia].
  - destruct (at_index bs' (proxLimit k)) as [b0| |] eqn:E0;
      simpl in Hs; try discriminate.
    destruct (contract bs' (ProxBinSize (params k)) (proxSize k + 1)
                (proxLimit k) (len b0)) as [[ps' pl']| |] eqn:Ec;
      simpl in Hs; try discriminate.
    simplify_eq. unfold core_minimal. simpl. intros Hf.
    eapply contract_minimal; eauto.
Qed.

Lemma setProxLimit_off_minimal k r bucket (i : nat) k' :
  core_minimal k ->
  at_index (buckets k) r = Returned bucket ->
  (i < length bucket)%nat ->
  setProxLimit
    (with_buckets k
       (set_index (buckets k) r (take i bucket ++ drop (S i) bucket))) r false
    = Returned k' ->
  core_minimal k'.
Proof.
  intros Hmin Hr Hi Hs.
  assert (params k' = params k) as Hpar.
  { by apply setProxLimit_frame in Hs as (_ & ? & _). }
  unfold core_minimal in *. rewrite Hpar. intros Hf. specialize (Hmin Hf).
  apply at_index_Returned in Hr as Hr'. destruct Hr' as [Hr0 Er].
  apply lookup_lt_Some in Er as Hrlt.
  set (cut := take i bucket ++ drop (S i) bucket) in *.
  assert (len cut = len bucket - 1) as Hcut.
  { unfold cut, len. rewrite length_app, length_take, length_drop. lia. }
  set (bs' := set_index (buckets k) r cut) in *.
  assert (at_index bs' r = Returned cut) as Hr2.
  { apply at_index_Returned. split; [done|].
    unfold bs', set_index. by apply list_lookup_insert_eq. }
  assert (forall j b, j ≠ r -> at_index bs' j = Returned b ->
                      at_index (buckets k) j = Returned b) as Hother.
  { intros j b Hne [Hj Eb]%at_index_Returned.
    apply at_index_Returned. split; [done|].
    unfold bs', set_index in Eb. rewrite list_lookup_insert_ne in Eb; [done|lia]. }
  unfold setProxLimit in Hs. simpl in Hs. fold bs' in Hs.
  assert (forall ps,
    (r < proxLimit k -> at_index bs' r = Returned []) ->
    min_at bs' (ProxBinSize (params k)) ps (proxLimit k)
    ∨ ((ps < ProxBinSize (params k) ∨ r < proxLimit k) ∧ 0 < proxLimit k) ->
    (sl ← expand bs' (ProxBinSize (params k)) r ps (proxLimit k);
     Returned (with_prox (with_buckets k bs') sl)) = Returned k' ->
    min_at (buckets k') (ProxBinSize (params k)) (proxSize k') (proxLimit k'))
    as Hexp.
  { intros ps Hempty Hstart He.
    destruct (expand bs' (ProxBinSize (params k)) r ps (proxLimit k))
      as [[ps' pl']| |] eqn:Ee; simpl in He; try discriminate.
    simplify_eq. unfold core_minimal. simpl.
    eapply expand_minimal; eauto. }
  destruct (decide (r < proxLimit k)) as [Hlt|Hge].
  - rewrite Hr2 in Hs. simpl in Hs.
    destruct (bool_decide (len cut > 0)) eqn:Ecut; simpl in Hs.
    + simplify_eq. unfold core_minimal. simpl.
      intros b Hb. apply Hmin. apply Hother; [lia | done].
    + apply bool_decide_eq_false_1 in Ecut.
      apply (Hexp (proxSize k)).
      * intros _. rewrite Hr2. f_equal. destruct cut; [done|].
        exfalso. apply Ecut. unfold len. simpl. lia.
      * right. split; [right|]; lia.
      * rewrite decide_False in Hs by lia. exact Hs.
  - simpl in Hs. rewrite decide_True in Hs by lia.
    apply (Hexp (proxSize k - 1)); [lia | | exact Hs].
    left. intros b Hb. destruct (decide (proxLimit k = r)) as [Heq|Hne].
    + rewrite Heq, Hr2 in Hb. injection Hb as <-.
      destruct (Hmin bucket) as [->|Hold]; [by rewrite Heq | simpl in Hi; lia |].
      right. lia.
    + destruct (Hmin b) as [->|Hold]; [by apply Hother | by left | right; lia].
Qed.

Lemma core_minimal_On k node cb now k' err dropped :
  core_minimal k ->
  (sum_fits (params k) -> capacity_ok k) ->
  On proximity k node cb now = Returned (k', err, dropped) ->
  core_minimal k'.
Proof.
  intros Hmin Hcap Hon.
  pose proof (On_exact_sums _ _ _ _ _ _ _ _ Hcap Hon) as Hx.
  apply On_inv in Hon. simpl in Hon.
  set (index := proximityBin proximity k (Addr node)) in *.
  destruct Hon as [(e & _ & -> & _)
    | (_ & bucket & Hb & [(Hlt & k2 & Hs & -> & _)
                         | [(Hge & idle & pos & _ & -> & _)
                           | (Hge & idle & pos & replaced & _ & -> & _)]])].
  - by apply (core_minimal_lengths k).
  - eapply (core_minimal_lengths k2); try done.
    eapply (setProxLimit_on_minimal (with_db k _)); [| | exact Hb | exact Hs].
    + by apply (core_minimal_lengths k).
    + simpl. intros Hf. specialize (Hx Hf). simpl in Hx.
      apply setProxLimit_frame in Hs as (_ & _ & _ & Hbs & _).
      simpl in Hbs. by rewrite <- Hbs.
  - by apply (core_minimal_lengths k).
  - apply (core_minimal_lengths k); try done. simpl.
    apply at_index_Returned in Hb as [_ Eb]. unfold set_index.
    rewrite list_fmap_insert, length_insert.
    apply list_insert_id. by rewrite list_lookup_fmap, Eb.
Qed.

Lemma core_minimal_Off k node cb k' called :
  core_minimal k ->
  Off proximity k node cb = Returned (k', called) ->
  core_minimal k'.
Proof.
  intros Hmin Hoff. apply Off_inv in Hoff. simpl in Hoff.
  destruct Hoff as (bucket & k1 & record & Hb & Hrm & _ & -> & _).
  apply (core_minimal_lengths k1); try done.
  destruct Hrm as [(i & Hf & Hs) | (_ & ->)]; [|done].
  apply find_addr_Some in Hf as (Hi & _).
  eapply setProxLimit_off_minimal; [exact Hmin | exact Hb | | exact Hs]. lia.
Qed.

Lemma reachable_core_minimal k : reachable proximity k -> core_minimal k.
Proof.
  induction 1 as [a p k Hnew | k node cb now k' err dropped Hk IH Hon
                 | k node cb k' called Hk IH Hoff].
  - by eapply core_minimal_New.
  - eapply core_minimal_On; [exact IH | | exact Hon].
    intros Hf. apply (reachable_capacity_ok proximity); [done | apply Hf].
  - by eapply core_minimal_Off.
Qed.

Lemma occupancy_drop_le bs (n m : nat) :
  (n <= m)%nat -> occupancy (drop m bs) <= occupancy (drop n bs).
Proof.
  intros Hnm. replace m with (n + (m - n))%nat by lia.
  rewrite <- drop_drop.
  rewrite <- (take_drop (m - n) (drop n bs)) at 2.
  rewrite occupancy_app.
  pose proof (occupancy_nonneg (take (m - n) (drop n bs))). lia.
Qed.

(** Of two boundaries that both satisfy the invariants on the same bucket
    array, neither is below the other. *)
Lemma boundary_not_below bs pbs ps1 pl1 ps2 pl2 :
  0 <= pl1 ->
  ps1 = occupancy (drop (Z.to_nat pl1) bs) ->
  min_at bs pbs ps1 pl1 ->
  ps2 = occupancy (drop (Z.to_nat pl2) bs) ->
  no_gap bs pl2 ->
  (0 < pl2 -> pbs <= ps2) ->
  ¬ pl1 < pl2.
Proof.
  intros Hpl1 Hps1 Hmin Hps2 Hgap Hcore Hlt.
  destruct (Hgap pl1 ltac:(lia)) as (b & Eb & Hb).
  destruct (Hmin b) as [->|Hsmall]; [|done|].
  { apply at_index_Returned. split; [lia | done]. }
  rewrite Hps1, (occupancy_drop_lookup _ _ _ Eb) in Hsmall.
  pose proof (occupancy_drop_le bs (S (Z.to_nat pl1)) (Z.to_nat pl2)
                ltac:(lia)) as Hle.
  specialize (Hcore ltac:(lia)). lia.
Qed.

(** X1. The bucket array of a reachable table keeps its [MaxProx+1] bins,
    [proxLimit] stays within it, and [proxSize] never exceeds the number of
    nodes in the table. *)
Theorem boundary_in_range k :
  reachable proximity k ->
  len (buckets k) = MaxProx (params k) + 1
  ∧ 0 <= proxLimit k
  ∧ (proxLimit k = 0 ∨ proxLimit k <= MaxProx (params k))
  ∧ 0 <= proxSize k <= occupancy (buckets k).
Proof.
  intros Hk.
  destruct (reachable_core_inv proximity k Hk)
    as (Hlen & Hpl0 & Hpl & Hps & _ & _).
  repeat split; auto; try lia.
  - rewrite Hps. apply occupancy_nonneg.
  - rewrite Hps. unfold core_occupancy.
    pose proof (occupancy_drop_le (buckets k) 0 (Z.to_nat (proxLimit k))
                  ltac:(lia)) as Hle.
    by rewrite drop_0 in Hle.
Qed.

(** X2. The core of a reachable table whose configuration keeps the sum
    [ProxBinSize+curr] within the range of [int] is minimal: the bin at
    [proxLimit] is empty, or without it the core would hold fewer than
    [ProxBinSize] nodes. *)
Theorem core_is_minimal k b :
  reachable proximity k ->
  sum_fits (params k) ->
  at_index (buckets k) (proxLimit k) = Returned b ->
  b = [] ∨ core_occupancy k - len b < ProxBinSize (params k).
Proof.
  intros Hk Hf Hb.
  destruct (reachable_core_inv proximity k Hk) as (_ & _ & _ & Hps & _).
  rewrite <- Hps. by apply (reachable_core_minimal k Hk Hf).
Qed.

(** The invariant of the core and its minimality determine the boundary
    from the lengths of the bins. *)
Lemma core_boundary_unique k1 k2 :
  sum_fits (params k1) -> sum_fits (params k2) ->
  core_inv k1 -> core_minimal k1 -> core_inv k2 -> core_minimal k2 ->
  ProxBinSize (params k1) = ProxBinSize (params k2) ->
  length <$> buckets k1 = length <$> buckets k2 ->
  proxLimit k1 = proxLimit k2 ∧ proxSize k1 = proxSize k2.
Proof.
  intros Hf1 Hf2 (_ & Hpl1 & _ & Hps1 & Hgap1 & Hcore1) Hmin1 Hinv2 Hm2 Hpbs Hl.
  set (k2' := with_buckets k2 (buckets k1)).
  assert (core_inv k2') as (_ & Hpl2 & _ & Hps2 & Hgap2 & Hcore2).
  { by apply (core_inv_lengths k2). }
  assert (core_minimal k2') as Hmin2.
  { by apply (core_minimal_lengths k2). }
  specialize (Hcore1 Hf1). specialize (Hmin1 Hf1).
  specialize (Hcore2 Hf2). specialize (Hmin2 Hf2).
  unfold core_minimal, core_occupancy in *. simpl in *.
  rewrite <- Hpbs in *.
  assert (proxLimit k1 = proxLimit k2) as Heq.
  { pose proof (boundary_not_below _ _ _ _ _ _ Hpl1 Hps1 Hmin1 Hps2 Hgap2 Hcore2).
    pose proof (boundary_not_below _ _ _ _ _ _ Hpl2 Hps2 Hmin2 Hps1 Hgap1 Hcore1).
    lia. }
  split; [done|]. by rewrite Hps1, Hps2, Heq.
Qed.

(** X3. The boundary does not depend on the history: two reachable tables
    with the same [ProxBinSize] whose bins have the same lengths have the
    same [proxLimit] and [proxSize], in configurations that keep the sum
    [ProxBinSize+curr] within the range of [int]. *)
Theorem boundary_canonical k1 k2 :
  reachable proximity k1 -> reachable proximity k2 ->
  sum_fits (params k1) -> sum_fits (params k2) ->
  ProxBinSize (params k1) = ProxBinSize (params k2) ->
  length <$> buckets k1 = length <$> buckets k2 ->
  proxLimit k1 = proxLimit k2 ∧ proxSize k1 = proxSize k2.
Proof.
  intros Hk1 Hk2 Hf1 Hf2 Hpbs Hl.
  apply core_boundary_unique; auto using reachable_core_minimal.
  - by apply (reachable_core_inv proximity).
  - by apply (reachable_core_inv proximity).
Qed.

(** X4. No call of [On] panics on a reachable table whose configuration has
    [MaxProx >= 0] and [ProxBinSize > 0] and keeps the sum
    [ProxBinSize+curr] within the range of [int]: every bucket index it
    uses is in range, also in the contraction loop. *)
Theorem On_never_panics k node cb now :
  reachable proximity k ->
  0 <= MaxProx (params k) -> 0 < ProxBinSize (params k) ->
  sum_fits (params k) ->
  exists k' err dropped,
    On proximity k node cb now = Returned (k', err, dropped).
Proof.
  intros Hk Hmax Hpbs Hf.
  destruct (On_returns proximity k node cb now) as [[[k' err] dropped] Hon];
    eauto using reachable_core_inv.
  apply (reachable_capacity_ok proximity); [done | apply Hf].
Qed.
End Boundary.

(** ** Membership and the registry *)

Section Members.
Context {Address : Type} `{Countable Address}.
Variable proximity : Address -> Address -> nat.
Implicit Types (k : Kademlia Address) (node p : Node Address)
  (bucket b : list (Node Address)).

Lemma elem_of_insert_inv {A} (l : list A) (i : nat) (x y : A) :
  x ∈ <[i := y]> l -> x = y ∨ x ∈ l.
Proof.
  intros [j Ej]%list_elem_of_lookup.
  destruct (decide (i = j)) as [->|Hne].
  - destruct (decide (j < length l)%nat).
    + rewrite list_lookup_insert_eq in Ej by done. left. congruence.
    + rewrite list_insert_ge in Ej by lia. right.
      by apply list_elem_of_lookup_2 in Ej.
  - rewrite list_lookup_insert_ne in Ej by done. right.
    by apply list_elem_of_lookup_2 in Ej.
Qed.

Lemma elem_of_cut {A} (l : list A) (i : nat) (x : A) :
  x ∈ take i l ++ drop (S i) l -> x ∈ l.
Proof.
  intros [Hx|Hx]%elem_of_app.
  - by apply (subseteq_take i).
  - by apply (subseteq_drop (S i)).
Qed.

Lemma proximityBin_same k k' a :
  addr k' = addr k -> params k' = params k ->
  proximityBin proximity k' a = proximityBin proximity k a.
Proof. unfold proximityBin. by intros -> ->. Qed.

(** The bucket array after a call of [Off]. *)
Lemma Off_buckets k node cb k' called :
  Off proximity k node cb = Returned (k', called) ->
  let index := proximityBin proximity k (Addr node) in
  params k' = params k ∧ addr k' = addr k ∧ count k' = count k - 1
  ∧ exists bucket,
      at_index (buckets k) index = Returned bucket
      ∧ ((find_addr (Addr node) bucket 0 = None
          ∧ buckets k' = buckets k
          ∧ proxLimit k' = proxLimit k ∧ proxSize k' = proxSize k)
         ∨ (exists i : nat,
              find_addr (Addr node) bucket 0 = Some i
              ∧ buckets k'
                = set_index (buckets k) index
                    (take i bucket ++ drop (S i) bucket))).
Proof.
  intros Hoff index. apply Off_inv in Hoff. simpl in Hoff. fold index in Hoff.
  destruct Hoff as (bucket & k1 & record & Hb & Hrm & _ & -> & _). simpl.
  destruct Hrm as [(i & Hf & Hs) | (Hf & ->)].
  - apply setProxLimit_frame in Hs as (Ha & Hp & Hc & Hbs & _). simpl in *.
    repeat split; auto; [lia|]. exists bucket. split; [done|]. right. eauto.
  - repeat split; auto. exists bucket. split; [done|]. left. done.
Qed.

(** Where the members of the buckets come from. *)
Lemma On_members k node cb now k' err dropped (i : nat) b p :
  On proximity k node cb now = Returned (k', err, dropped) ->
  buckets k' !! i = Some b -> p ∈ b ->
  (exists b0, buckets k !! i = Some b0 ∧ p ∈ b0)
  ∨ (p = node ∧ Z.of_nat i = proximityBin proximity k (Addr node)).
Proof.
  intros Hon Eb Hp. apply On_buckets in Hon as (_ & _ & Hcases).
  set (index := proximityBin proximity k (Addr node)) in *.
  destruct Hcases as [(Hbs & _)
    | [(bucket & Hb & _ & Hbs & _)
      | (bucket & pos & replaced & Hb & _ & Hbs & _)]];
    rewrite Hbs in Eb; [left; eauto|..];
    apply at_index_Returned in Hb as [Hidx Eold]; unfold set_index in Eb;
    (destruct (decide (Z.to_nat index = i)) as [<-|Hne];
     [rewrite list_lookup_insert_eq in Eb by (by eapply lookup_lt_Some);
      injection Eb as <-
     | rewrite list_lookup_insert_ne in Eb by done; left; eauto]).
  - apply elem_of_app in Hp as [Hp|Hp%list_elem_of_singleton]; [left; eauto|].
    right. split; [done | lia].
  - apply elem_of_insert_inv in Hp as [->|Hp]; [|left; eauto].
    right. split; [done | lia].
Qed.

Lemma Off_members k node cb k' called (i : nat) b p :
  Off proximity k node cb = Returned (k', called) ->
  buckets k' !! i = Some b -> p ∈ b ->
  exists b0, buckets k !! i = Some b0 ∧ p ∈ b0.
Proof.
  intros Hoff Eb Hp. apply Off_buckets in Hoff as (_ & _ & _ & bucket & Hb & Hcases).
  set (index := proximityBin proximity k (Addr node)) in *.
  destruct Hcases as [(_ & Hbs & _) | (j & _ & Hbs)]; rewrite Hbs in Eb; [eauto|].
  apply at_index_Returned in Hb as [Hidx Eold]. unfold set_index in Eb.
  destruct (decide (Z.to_nat index = i)) as [<-|Hne].
  - rewrite list_lookup_insert_eq in Eb by (by eapply lookup_lt_Some).
    injection Eb as <-. exists bucket. split; [done|]. by eapply elem_of_cut.
  - rewrite list_lookup_insert_ne in Eb by done. eauto.
Qed.

(** The registry after [On] and [Off]. *)
Lemma findOrCreate_other (d : KadDb Address) index a url a' :
  a' ≠ a ->
  db_index (fst (findOrCreate d index a url)) !! a' = db_index d !! a'.
Proof.
  intros Hne. unfold findOrCreate. destruct (db_index d !! a); simpl; [done|].
  by rewrite lookup_insert_ne.
Qed.

Lemma On_db k node cb now k' err dropped :
  On proximity k node cb now = Returned (k', err, dropped) ->
  (forall a, a ≠ Addr node -> db_index (db k') !! a = db_index (db k) !! a)
  ∧ is_Some (db_index (db k') !! Addr node)
  ∧ (err = None ->
     exists record, db_index (db k') !! Addr node = Some record
                    ∧ rec_node record = Some node).
Proof.
  intros Hon. apply On_inv in Hon. simpl in Hon.
  set (index := proximityBin proximity k (Addr node)) in *.
  pose proof (findOrCreate_lookup (db k) index (Addr node) (URL node)) as Hl.
  pose proof (findOrCreate_other (db k) index (Addr node) (URL node)) as Ho.
  destruct Hon as [(e & _ & -> & -> & _)
    | (_ & bucket & Hb & [(Hlt & k2 & Hs & -> & -> & _)
                         | [(Hge & idle & pos & _ & -> & -> & _)
                           | (Hge & idle & pos & replaced & _ & -> & -> & _)]])];
    simpl.
  - repeat split; eauto; discriminate.
  - apply setProxLimit_frame in Hs as (_ & _ & _ & _ & ->). simpl.
    split; [|split].
    + intros a Hne. rewrite lookup_insert_ne by done. by apply Ho.
    + rewrite lookup_insert_eq. eauto.
    + intros _. rewrite lookup_insert_eq. eauto.
  - repeat split; eauto; discriminate.
  - split; [|split].
    + intros a Hne. rewrite lookup_insert_ne by done. by apply Ho.
    + rewrite lookup_insert_eq. eauto.
    + intros _. rewrite lookup_insert_eq. eauto.
Qed.

Lemma Off_db k node cb k' called :
  Off proximity k node cb = Returned (k', called) ->
  (forall a, a ≠ Addr node -> db_index (db k') !! a = db_index (db k) !! a)
  ∧ exists record,
      db_index (db k) !! Addr node = Some record
      ∧ db_index (db k') !! Addr node
        = Some {| rec_Addr := rec_Addr record; rec_Url := rec_Url record;
                  rec_node := None |}
      ∧ called = (if cb then Some (record, rec_node record) else None).
Proof.
  intros Hoff. apply Off_inv in Hoff. simpl in Hoff.
  destruct Hoff as (bucket & k1 & record & Hb & Hrm & Hrec & -> & ->).
  assert (db k1 = db k) as Hdb.
  { destruct Hrm as [(i & _ & Hs) | (_ & ->)]; [|done].
    by apply setProxLimit_frame in Hs as (_ & _ & _ & _ & ->). }
  rewrite Hdb in *. simpl. split.
  - intros a Hne. by rewrite lookup_insert_ne.
  - exists record. by rewrite lookup_insert_eq.
Qed.

(** *** Invariants: placement and registration *)

Lemma placed_New a prm k : New a prm = Returned k -> placed proximity k.
Proof.
  unfold New. case_decide; [discriminate|]. intros ?; simplify_eq.
  intros i b q Eb Hq. simpl in Eb. apply lookup_replicate in Eb as [-> _].
  by apply elem_of_nil in Hq.
Qed.

Lemma placed_On k node cb now k' err dropped :
  placed proximity k ->
  On proximity k node cb now = Returned (k', err, dropped) ->
  placed proximity k'.
Proof.
  intros Hpl Hon i b p Eb Hp.
  pose proof (On_buckets _ _ _ _ _ _ _ _ Hon) as (Hpar & Haddr & _).
  rewrite (proximityBin_same k k') by done.
  destruct (On_members _ _ _ _ _ _ _ _ _ _ Hon Eb Hp)
    as [(b0 & Eb0 & Hp0) | (-> & Hi)]; [by eapply Hpl | done].
Qed.

Lemma placed_Off k node cb k' called :
  placed proximity k ->
  Off proximity k node cb = Returned (k', called) ->
  placed proximity k'.
Proof.
  intros Hpl Hoff i b p Eb Hp.
  pose proof (Off_buckets _ _ _ _ _ Hoff) as (Hpar & Haddr & _).
  rewrite (proximityBin_same k k') by done.
  destruct (Off_members _ _ _ _ _ _ _ _ Hoff Eb Hp) as (b0 & Eb0 & Hp0).
  by eapply Hpl.
Qed.

Lemma registered_New a prm k : New a prm = Returned k -> registered k.
Proof.
  unfold New. case_decide; [discriminate|]. intros ?; simplify_eq.
  intros i b q Eb Hq. simpl in Eb. apply lookup_replicate in Eb as [-> _].
  by apply elem_of_nil in Hq.
Qed.

Lemma registered_On k node cb now k' err dropped :
  registered k ->
  On proximity k node cb now = Returned (k', err, dropped) ->
  registered k'.
Proof.
  intros Hreg Hon i b p Eb Hp.
  destruct (On_db _ _ _ _ _ _ _ Hon) as (Hother & Hnode & _).
  destruct (decide (Addr p = Addr node)) as [->|Hne]; [done|].
  rewrite Hother by done.
  destruct (On_members _ _ _ _ _ _ _ _ _ _ Hon Eb Hp)
    as [(b0 & Eb0 & Hp0) | (-> & _)]; [by eapply Hreg | done].
Qed.

Lemma registered_Off k node cb k' called :
  registered k ->
  Off proximity k node cb = Returned (k', called) ->
  registered k'.
Proof.
  intros Hreg Hoff i b p Eb Hp.
  destruct (Off_db _ _ _ _ _ Hoff) as (Hother & record & _ & Hnode & _).
  destruct (decide (Addr p = Addr node)) as [->|Hne]; [by rewrite Hnode|].
  rewrite Hother by done.
  destruct (Off_members _ _ _ _ _ _ _ _ Hoff Eb Hp) as (b0 & Eb0 & Hp0).
  by eapply Hreg.
Qed.

Lemma reachable_placed k : reachable proximity k -> placed proximity k.
Proof. induction 1; eauto using placed_New, placed_On, placed_Off. Qed.

Lemma reachable_registered k : reachable proximity k -> registered k.
Proof.
  induction 1; eauto using registered_New, registered_On, registered_Off.
Qed.

(** X5. In a reachable table every node sits in the bin of its proximity
    order to the table's address, and has a record in the registry. *)
Theorem members_placed_and_registered k (i : nat) b p :
  reachable proximity k ->
  buckets k !! i = Some b -> p ∈ b ->
  proximityBin proximity k (Addr p) = Z.of_nat i
  ∧ is_Some (db_index (db k) !! Addr p).
Proof.
  intros Hk Eb Hp. split.
  - by eapply reachable_placed.
  - by eapply reachable_registered.
Qed.


(** X7. A call of [On] that returns no error has stored the node: the node
    is in the bin of its proximity order, and the registry record of its
    address points to it. *)
Theorem On_stores_node k node cb now k' dropped :
  On proximity k node cb now = Returned (k', None, dropped) ->
  exists b record,
    at_index (buckets k') (proximityBin proximity k (Addr node)) = Returned b
    ∧ node ∈ b
    ∧ db_index (db k') !! Addr node = Some record
    ∧ rec_node record = Some node.
Proof.
  intros Hon.
  destruct (On_db _ _ _ _ _ _ _ Hon) as (_ & _ & Hrec).
  destruct (Hrec eq_refl) as (record & Erec & Hnode).
  apply On_inv in Hon. simpl in Hon.
  set (index := proximityBin proximity k (Addr node)) in *.
  destruct Hon as [(e & _ & _ & ? & _)
    | (_ & bucket & Hb & [(Hlt & k2 & Hs & -> & _)
                         | [(Hge & idle & pos & _ & _ & ? & _)
                           | (Hge & idle & pos & replaced & Hi & -> & _)]])];
    try discriminate;
    apply at_index_Returned in Hb as [Hidx Eold];
    apply lookup_lt_Some in Eold as Hlt'.
  - apply setProxLimit_frame in Hs as (_ & _ & _ & Hbs & _). simpl in *.
    exists (bucket ++ [node]), record. rewrite Hbs.
    repeat split; auto.
    + apply at_index_Returned. split; [done|].
      unfold set_index. by apply list_lookup_insert_eq.
    + apply elem_of_app. right. by apply list_elem_of_singleton.
  - apply idlest_spec in Hi; [|lia].
    destruct Hi as (_ & _ & [(_ & _ & ?) | (_ & j & q & -> & Ej & _)]);
      [discriminate|].
    exists (set_index bucket (0 + Z.of_nat j) node), record. simpl.
    repeat split; auto.
    + apply at_index_Returned. split; [done|].
      unfold set_index. by apply list_lookup_insert_eq.
    + unfold set_index. apply list_elem_of_insert.
      apply lookup_lt_Some in Ej. lia.
Qed.

(** X8. Joining and leaving cancel out, in a configuration that keeps the
    sum [ProxBinSize+curr] within the range of [int]: when [On] appends a
    node whose address no member of its bin has, the [Off] of that node
    returns and brings back the buckets, [proxLimit], [proxSize] and
    [count] of before the [On]. *)
Theorem On_then_Off k node cb now k1 bucket cb' :
  reachable proximity k ->
  sum_fits (params k) ->
  at_index (buckets k) (proximityBin proximity k (Addr node)) = Returned bucket ->
  Forall (fun p => Addr p ≠ Addr node) bucket ->
  On proximity k node cb now = Returned (k1, None, []) ->
  exists k2 called,
    Off proximity k1 node cb' = Returned (k2, called)
    ∧ buckets k2 = buckets k
    ∧ proxLimit k2 = proxLimit k ∧ proxSize k2 = proxSize k
    ∧ count k2 = count k.
Proof.
  intros Hk Hfits Hb Hfresh Hon.
  assert (reachable proximity k1) as Hk1 by (eapply reachable_On; eauto).
  pose proof (On_buckets _ _ _ _ _ _ _ _ Hon) as (Hpar & Haddr & Hcases).
  set (index := proximityBin proximity k (Addr node)) in *.
  destruct Hcases as [(_ & _ & _ & _ & [? ?] & _)
    | [(bucket' & Hb' & _ & Hbs & Hcount & _)
      | (? & ? & ? & _ & _ & _ & _ & _ & _ & _ & ?)]]; try discriminate.
  rewrite Hb in Hb'. injection Hb' as <-.
  apply at_index_Returned in Hb as [Hidx Eold].
  apply lookup_lt_Some in Eold as Hlt.
  assert (buckets k1 !! Z.to_nat index = Some (bucket ++ [node])) as E1.
  { rewrite Hbs. unfold set_index. by apply list_lookup_insert_eq. }
  assert (node ∈ bucket ++ [node]) as Hnode.
  { apply elem_of_app. right. by apply list_elem_of_singleton. }
  pose proof (reachable_core_inv proximity k1 Hk1) as Hinv1.
  assert (0 <= MaxProx (params k1)) as Hmax.
  { destruct Hinv1 as (Hlen & _). apply lookup_lt_Some in E1.
    unfold len in Hlen. lia. }
  destruct (Off_returns proximity k1 node cb' Hinv1 Hmax) as [[k2 called] Hoff].
  { exact (reachable_registered k1 Hk1 _ _ _ E1 Hnode). }
  pose proof (Off_buckets _ _ _ _ _ Hoff) as (_ & _ & Hcount2 & _).
  exists k2, called. split; [done|].
  assert (reachable proximity k2) as Hk2 by (eapply reachable_Off; eauto).
  pose proof (Off_buckets _ _ _ _ _ Hoff) as (Hpar2 & _ & _ & b1 & Hb1 & Hc2).
  rewrite (proximityBin_same k k1) in Hb1, Hc2 by done. fold index in Hb1, Hc2.
  apply at_index_Returned in Hb1 as [_ Eb1]. rewrite E1 in Eb1.
  injection Eb1 as <-.
  assert (forall i0, find_addr (Addr node) (bucket ++ [node]) i0
                     = Some (i0 + length bucket)%nat) as Hfind.
  { clear -Hfresh. induction bucket as [|q rest IH]; intros i0; simpl.
    - rewrite decide_True by done. f_equal. lia.
    - apply Forall_cons in Hfresh as [Hq Hrest].
      rewrite decide_False by congruence.
      rewrite IH by done. f_equal. lia. }
  rewrite Hfind in Hc2. simpl in Hc2.
  destruct Hc2 as [(? & _) | (j & Hj & Hbs2)]; [discriminate|].
  injection Hj as <-.
  assert (buckets k2 = buckets k) as Hsame.
  { rewrite Hbs2, Hbs. unfold set_index.
    rewrite list_insert_insert_eq.
    rewrite take_app_length.
    rewrite drop_ge by (rewrite length_app; simpl; lia).
    rewrite app_nil_r. by apply list_insert_id. }
  split; [done|].
  destruct (core_boundary_unique k2 k) as [Hl Hs];
    try (by apply (reachable_core_inv proximity));
    try (by apply (reachable_core_minimal proximity)); try done.
  - by rewrite Hpar2, Hpar.
  - by rewrite Hpar2, Hpar.
  - by rewrite Hsame.
  - repeat split; auto. lia.
Qed.

(** X9. [On] and [Off] never remove a registry record and touch only the
    record of the node's own address: after [On] that address has a record,
    and after [Off] its record no longer points to a node. *)
Theorem registry_frame k node :
  (forall cb now k' err dropped,
     On proximity k node cb now = Returned (k', err, dropped) ->
     (forall a, a ≠ Addr node -> db_index (db k') !! a = db_index (db k) !! a)
     ∧ is_Some (db_index (db k') !! Addr node))
  ∧ (forall cb k' called,
       Off proximity k node cb = Returned (k', called) ->
       (forall a, a ≠ Addr node -> db_index (db k') !! a = db_index (db k) !! a)
       ∧ exists record, db_index (db k') !! Addr node = Some record
                        ∧ rec_node record = None).
Proof.
  split.
  - intros cb now k' err dropped Hon.
    by destruct (On_db _ _ _ _ _ _ _ Hon) as (? & ? & _).
  - intros cb k' called Hoff.
    destruct (Off_db _ _ _ _ _ Hoff) as (? & record & _ & Hnew & _).
    split; [done|]. eauto.
Qed.
End Members.

(** ** The bounded sorted list *)

Section PushMore.
Context {Address : Type} `{Countable Address}.
Variable distance : Address -> Address -> N.
Implicit Types (target : Address) (node p q : Node Address)
  (nodes : list (Node Address)).

Lemma sortedByDistanceTo_from_sorted target last nodes :
  sortedByDistanceTo_from distance target last nodes = true ->
  Forall (fun q => (distance last target <= distance (Addr q) target)%N) nodes
  ∧ sorted_by_distance distance target nodes.
Proof.
  revert last. induction nodes as [|p rest IH]; intros last Hs.
  { split; constructor. }
  simpl in Hs. case_decide as Hp; [discriminate|].
  rewrite ProxCmp_lt in Hp.
  destruct (IH _ Hs) as [Hall Hsorted].
  split.
  - constructor; [lia|]. eapply Forall_impl; [exact Hall|].
    simpl. intros q Hq. lia.
  - apply StronglySorted_cons. split; [|done]. exact Hall.
Qed.

(** X10. [sortedByDistanceTo] returns true exactly on the slices in which
    every node is at most as far from the target as every node after it. *)
Theorem sortedByDistanceTo_iff target nodes :
  sortedByDistanceTo distance target nodes = true
  <-> sorted_by_distance distance target nodes.
Proof.
  split; [|apply sortedByDistanceTo_true].
  destruct nodes as [|p rest]; [constructor|]. simpl. intros Hs.
  apply sortedByDistanceTo_from_sorted in Hs as [Hall Hsorted].
  apply StronglySorted_cons. split; [exact Hall | done].
Qed.

(** [push] into a sorted list that holds fewer than [max] nodes keeps every
    node and adds the new one. *)
Lemma push_room_perm target nodes node max :
  sorted_by_distance distance target nodes ->
  len nodes < max ->
  push distance target nodes node max ≡ₚ node :: nodes.
Proof.
  intros Hs Hroom.
  destruct (push_spec distance target nodes node max Hs)
    as (ix & _ & _ & _ & ->).
  rewrite decide_True by done.
  rewrite <- Permutation_middle. by rewrite take_drop.
Qed.

(** X12. [push] into a sorted list that already holds [max] nodes or more
    keeps its length and evicts a farthest node: of the old nodes and the
    new one, exactly one is left out, and no node kept is farther from the
    target than the one left out. *)
Theorem push_evicts_farthest target nodes node max :
  sorted_by_distance distance target nodes ->
  ¬ len nodes < max ->
  exists evicted,
    node :: nodes ≡ₚ evicted :: push distance target nodes node max
    ∧ Forall (fun p => by_distance distance target p evicted)
        (push distance target nodes node max)
    ∧ len (push distance target nodes node max) = len nodes.
Proof.
  intros Hs Hcap.
  pose proof (push_length distance target nodes node max Hs) as Hlen.
  rewrite decide_False in Hlen by done.
  destruct (push_spec distance target nodes node max Hs)
    as (ix & Hix & Hbefore & Hafter & Hpush).
  rewrite decide_False in Hpush by done.
  destruct (decide (ix < length nodes)%nat) as [Hin|Hout].
  - set (m := (length nodes - S ix)%nat) in *.
    assert (exists last, drop ix nodes = take m (drop ix nodes) ++ [last])
      as [last Hlast].
    { pose proof (take_drop m (drop ix nodes)) as Htd.
      assert (length (drop m (drop ix nodes)) = 1%nat) as Hone
        by (rewrite !length_drop; lia).
      destruct (drop m (drop ix nodes)) as [|x [|? ?]]; try discriminate.
      exists x. by rewrite Htd. }
    assert (nodes = take ix nodes ++ take m (drop ix nodes) ++ [last])
      as Hnodes by (by rewrite <- Hlast, take_drop).
    exists last. rewrite Hpush. split; [|split; [|by rewrite <- Hpush]].
    + remember (take ix nodes) as A. remember (take m (drop ix nodes)) as B.
      rewrite Hnodes. clear.
      transitivity (node :: last :: (A ++ B)).
      * constructor. rewrite app_assoc.
        by rewrite (Permutation_app_comm (A ++ B) [last]).
      * rewrite perm_swap. constructor. apply Permutation_middle.
    + assert (by_distance distance target node last) as Hfar.
      { rewrite Forall_forall in Hafter. apply Hafter. rewrite Hlast.
        apply elem_of_app. right. by apply list_elem_of_singleton. }
      remember (take ix nodes) as A. remember (take m (drop ix nodes)) as B.
      clear HeqA HeqB Hlast Hpush Hafter.
      rewrite Hnodes in Hs.
      apply StronglySorted_app in Hs as (Hcross & _ & Hs2).
      apply StronglySorted_app in Hs2 as (Hcross2 & _ & _).
      apply Forall_app. split; [|constructor].
      * apply Forall_forall. intros p Hp. apply Hcross; [done|].
        apply elem_of_app. right. by apply list_elem_of_singleton.
      * exact Hfar.
      * apply Forall_forall. intros p Hp. apply Hcross2; [done|].
        by apply list_elem_of_singleton.
  - exists node. rewrite Hpush. split; [done|]. split; [|done].
    rewrite take_ge in Hbefore by lia.
    eapply Forall_impl; [exact Hbefore|]. simpl. intros p Hp.
    unfold by_distance. lia.
Qed.

(** The nodes of a list after a [push] are the new node or nodes of the
    list. *)
Lemma push_elem_of target nodes node max p :
  sorted_by_distance distance target nodes ->
  p ∈ push distance target nodes node max -> p = node ∨ p ∈ nodes.
Proof.
  intros Hs Hp.
  destruct (decide (len nodes < max)) as [Hroom|Hcap].
  - rewrite (push_room_perm target nodes node max Hs Hroom) in Hp.
    by apply elem_of_cons in Hp.
  - destruct (push_spec distance target nodes node max Hs)
      as (ix & _ & _ & _ & Hpush).
    rewrite decide_False in Hpush by done. rewrite Hpush in Hp.
    case_decide; [|by right].
    apply elem_of_app in Hp as [Hp|Hp].
    { right. by eapply subseteq_take. }
    apply elem_of_cons in Hp as [->|Hp]; [by left|].
    right. eapply subseteq_drop, subseteq_take, Hp.
Qed.
End PushMore.

(** ** What [FindClosest] returns *)

Section Contents.
Context {Address : Type} `{Countable Address}.
Variable proximity : Address -> Address -> nat.
Variable distance : Address -> Address -> N.
Implicit Types (k : Kademlia Address) (target : Address)
  (s : scan Address) (bs : list (list (Node Address)))
  (nodes bucket : list (Node Address)).

Lemma read_nodes_snoc bs bins i b :
  at_index bs i = Returned b ->
  read_nodes bs (bins ++ [i]) = read_nodes bs bins ++ b.
Proof.
  intros [_ Eb]%at_index_Returned. unfold read_nodes.
  rewrite bind_app. simpl. rewrite Eb. simpl. by rewrite app_nil_r.
Qed.

Lemma peers_in_app bs l1 l2 :
  peers_in bs (l1 ++ l2) = peers_in bs l1 + peers_in bs l2.
Proof.
  induction l1 as [|i l1 IH]; simpl; [done|].
  fold (peers_in bs (l1 ++ l2)). fold (peers_in bs l1). lia.
Qed.

Lemma peers_in_nonneg bs l : 0 <= peers_in bs l.
Proof.
  induction l as [|i l IH]; simpl; [done|].
  fold (peers_in bs l). unfold len. lia.
Qed.

Lemma peers_in_perm bs l1 l2 : l1 ≡ₚ l2 -> peers_in bs l1 = peers_in bs l2.
Proof.
  induction 1; simpl; repeat match goal with
    | |- context [foldr _ 0 ?l] => fold (peers_in bs l)
    end; lia.
Qed.

Lemma peers_in_elem bs l i b :
  i ∈ l -> bs !! Z.to_nat i = Some b -> len b <= peers_in bs l.
Proof.
  intros Hi Eb. induction l as [|j l IH]; [by apply elem_of_nil in Hi|].
  simpl. fold (peers_in bs l). pose proof (peers_in_nonneg bs l).
  apply elem_of_cons in Hi as [->|Hi].
  - rewrite Eb. simpl. lia.
  - specialize (IH Hi). unfold len in *. lia.
Qed.

(** The bins [n .. len-1] hold the nodes that [occupancy] counts. *)
Lemma peers_in_seqZ bs (m n : nat) :
  (n + m = length bs)%nat ->
  peers_in bs (seqZ (Z.of_nat n) (Z.of_nat m)) = occupancy (drop n bs).
Proof.
  revert n. induction m as [|m IH]; intros n Hn.
  - simpl. by rewrite drop_ge by lia.
  - rewrite seqZ_cons by lia. simpl.
    fold (peers_in bs (seqZ (Z.succ (Z.of_nat n)) (Z.pred (Z.of_nat (S m))))).
    destruct (lookup_lt_is_Some_2 bs n) as [b Eb]; [lia|].
    rewrite Nat2Z.id, Eb. simpl.
    rewrite (occupancy_drop_lookup _ _ _ Eb).
    replace (Z.succ (Z.of_nat n)) with (Z.of_nat (S n)) by lia.
    replace (Z.pred (Z.of_nat (S m))) with (Z.of_nat m) by lia.
    rewrite IH by lia. done.
Qed.

Lemma scan_order_perm (po maxProx : Z) :
  0 <= po <= maxProx ->
  scan_order po maxProx ≡ₚ seqZ 0 (maxProx + 1).
Proof.
  intros Hpo. unfold scan_order.
  assert (seqZ 0 (maxProx + 1) = seqZ 0 po ++ seqZ po (maxProx - po + 1))
    as ->.
  { replace (maxProx + 1) with (po + (maxProx - po + 1)) at 1 by lia.
    by rewrite (seqZ_app 0 po) by lia. }
  by rewrite reverse_Permutation, Permutation_app_comm.
Qed.

Lemma peers_in_scan_order bs (po maxProx : Z) :
  0 <= po <= maxProx -> len bs = maxProx + 1 ->
  peers_in bs (scan_order po maxProx) = occupancy bs.
Proof.
  intros Hpo Hlen. rewrite (peers_in_perm _ _ _ (scan_order_perm po maxProx Hpo)).
  pose proof (peers_in_seqZ bs (length bs) 0 ltac:(lia)) as Hall.
  rewrite drop_0 in Hall. unfold len in Hlen. simpl in Hall.
  by rewrite <- Hlen.
Qed.

(** Pushing a whole bucket. *)
Lemma push_all_elem_of target limit bucket nodes p :
  sorted_by_distance distance target nodes ->
  p ∈ foldl (fun acc q => push distance target acc q limit) nodes bucket ->
  p ∈ nodes ∨ p ∈ bucket.
Proof.
  revert nodes. induction bucket as [|q rest IH]; intros nodes Hs Hp.
  { by left. }
  simpl in Hp.
  destruct (IH _ (push_sorted distance target nodes q limit Hs) Hp)
    as [Hpush|Hrest].
  - apply push_elem_of in Hpush as [->|Hold]; auto.
    right. by apply elem_of_cons; left.
  - right. by apply elem_of_cons; right.
Qed.

Lemma push_all_sorted target limit bucket nodes :
  sorted_by_distance distance target nodes ->
  sorted_by_distance distance target
    (foldl (fun acc q => push distance target acc q limit) nodes bucket).
Proof.
  revert nodes. induction bucket as [|q rest IH]; intros nodes Hs; [done|].
  simpl. by apply IH, push_sorted.
Qed.

Lemma push_all_contents target limit bucket nodes (n : Z) :
  sorted_by_distance distance target nodes ->
  0 <= limit -> 0 <= n -> len nodes = Z.min n limit ->
  let nodes' := foldl (fun acc p => push distance target acc p limit) nodes bucket in
  len nodes' = Z.min (n + len bucket) limit
  ∧ (n + len bucket <= limit -> nodes' ≡ₚ nodes ++ bucket).
Proof.
  revert nodes n. induction bucket as [|q rest IH]; intros nodes n Hs Hl Hn Hlen.
  { simpl. unfold len at 2. simpl. rewrite Z.add_0_r, app_nil_r. auto. }
  simpl.
  assert (len (q :: rest) = 1 + len rest) as Hcons by (unfold len; simpl; lia).
  rewrite Hcons.
  destruct (IH (push distance target nodes q limit) (n + 1))
    as (Hlen' & Hperm'); try lia.
  { by apply push_sorted. }
  { rewrite push_length by done. case_decide; lia. }
  split.
  - rewrite Hlen'. f_equal. lia.
  - intros Hroom. rewrite Hperm' by lia.
    assert (0 <= len rest) by (unfold len; lia).
    rewrite push_room_perm by (done || lia).
    by rewrite <- Permutation_middle.
Qed.

(** What one iteration does to the loop variables. *)
Lemma scan_iter_shape k target po max min limit s c :
  scan_iter distance k target po max min limit s = Returned c ->
  exists bucket,
    at_index (buckets k) (sc_index s) = Returned bucket
    ∧ let s' := match c with Continue s' | Break s' => s' end in
      sc_nodes s' = foldl (fun acc p => push distance target acc p limit)
                      (sc_nodes s) bucket
      ∧ sc_n s' = sc_n s + len bucket
      ∧ sc_visited s' = sc_visited s ++ [sc_index s].
Proof.
  unfold scan_iter.
  destruct (at_index (buckets k) (sc_index s)) as [bucket| |]; simpl;
    try discriminate.
  intros Hc. exists bucket. split; [done|].
  repeat case_decide; simplify_eq; simpl; done.
Qed.

Lemma scan_loop_contents k target po max min limit fuel s s' broke :
  contents distance k target limit s ->
  scan_loop distance k target po max min limit fuel s = Returned (s', broke) ->
  contents distance k target limit s'.
Proof.
  revert s.
  induction fuel as [|fuel IH]; intros s Hc Hloop; simpl in Hloop;
    case_decide; try discriminate; try (by simplify_eq).
  destruct (scan_iter distance k target po max min limit s) as [c| |] eqn:Ec;
    simpl in Hloop; try discriminate.
  destruct (scan_iter_shape _ _ _ _ _ _ _ _ Ec)
    as (bucket & Hb & Hnodes & Hn & Hvis).
  destruct Hc as (Hsorted & Hn0 & Hin & Hlim).
  pose proof (push_all_sorted target limit bucket (sc_nodes s) Hsorted)
    as Hsorted'.
  assert (contents distance k target limit
            (match c with Continue s1 | Break s1 => s1 end)) as Hc'.
  { unfold contents. rewrite Hnodes, Hn, Hvis, (read_nodes_snoc _ _ _ _ Hb).
    split; [done|]. split; [unfold len; lia|]. split.
    - intros p Hp. apply elem_of_app.
      destruct (push_all_elem_of _ _ _ _ _ Hsorted Hp); [left; auto | right; done].
    - intros Hl. destruct (Hlim Hl) as [Hlen Hperm].
      destruct (push_all_contents target limit bucket (sc_nodes s) (sc_n s)
                  Hsorted Hl Hn0 Hlen) as (Hlen' & Hperm').
      split; [done|]. intros Hroom. rewrite Hperm' by done.
      rewrite Hperm by (unfold len in *; lia). done. }
  destruct c as [s1|s1]; [by apply (IH s1) | by simplify_eq].
Qed.

Lemma FindClosest_scan_contents k target max s broke :
  FindClosest_scan proximity distance k target max = Returned (s, broke) ->
  contents distance k target (if decide (max = 0) then maxPeers else max) s.
Proof.
  intros Hscan. unfold FindClosest_scan in Hscan.
  eapply scan_loop_contents; [|exact Hscan].
  unfold contents. simpl. split; [constructor|]. split; [done|].
  split; [done|]. intros Hl. split; [|done]. unfold len. simpl. lia.
Qed.

(** X13. [FindClosest] returns nodes of the table only: every node of the
    result is a member of some bucket. *)
Theorem FindClosest_members k target max nodes p :
  FindClosest proximity distance k target max = Returned nodes ->
  p ∈ nodes ->
  exists (i : nat) b, buckets k !! i = Some b ∧ p ∈ b.
Proof.
  intros Hfc Hp. unfold FindClosest in Hfc.
  destruct (FindClosest_scan proximity distance k target max)
    as [[s broke]| |] eqn:Hscan; simpl in Hfc; try discriminate.
  injection Hfc as <-.
  apply FindClosest_scan_contents in Hscan as (_ & _ & Hin & _).
  apply Hin in Hp. unfold read_nodes in Hp.
  apply list_elem_of_bind in Hp as (i & Hp & _).
  destruct (buckets k !! Z.to_nat i) as [b|] eqn:Eb; simpl in Hp.
  - eauto.
  - by apply elem_of_nil in Hp.
Qed.

(** X14. On a reachable table, [FindClosest] with a positive [max] returns
    exactly [max] nodes, or every node's worth when the table holds fewer:
    the length of the result is the smaller of [max] and the number of nodes
    in the table. *)
Theorem FindClosest_length k target max :
  reachable proximity k -> 0 < max ->
  exists nodes,
    FindClosest proximity distance k target max = Returned nodes
    ∧ len nodes = Z.min max (occupancy (buckets k)).
Proof.
  intros Hk Hmax.
  destruct (FindClosest_scan_returns proximity distance k target max Hk)
    as [[s broke] Hscan].
  exists (sc_nodes s). unfold FindClosest. rewrite Hscan. simpl.
  split; [done|].
  pose proof (FindClosest_scan_contents k target max s broke Hscan)
    as (_ & _ & _ & Hlim).
  rewrite decide_False in Hlim by lia.
  destruct (Hlim ltac:(lia)) as [Hlen _]. rewrite Hlen.
  pose proof (FindClosest_scan_spec proximity distance _ _ _ _ _ Hscan)
    as (Hn & _ & [rest Hpre] & _ & _ & Hbrk & Hall).
  rewrite decide_False in Hbrk by lia.
  destruct (reachable_core_inv proximity k Hk) as (Hblen & _).
  set (po := proximityBin proximity k target) in *.
  pose proof (proximityBin_le proximity k target) as HpoM. fold po in HpoM.
  destruct (decide (0 <= po)) as [Hpo|Hneg].
  - pose proof (peers_in_scan_order (buckets k) po (MaxProx (params k))
                  ltac:(lia) Hblen) as Htotal.
    rewrite Hpre, peers_in_app, <- Hn in Htotal.
    pose proof (peers_in_nonneg (buckets k) rest).
    destruct broke.
    + destruct (Hbrk eq_refl) as (Hmin & _). lia.
    + specialize (Hall eq_refl Hpo). rewrite Hall in Hpre.
      assert (rest = []) as ->.
      { apply (f_equal length) in Hpre. rewrite length_app in Hpre.
        destruct rest; [done | simpl in Hpre; lia]. }
      simpl in Htotal. lia.
  - unfold FindClosest_scan in Hscan. fold po in Hscan. simpl in Hscan.
    rewrite decide_False in Hscan by lia. simplify_eq. simpl.
    assert (buckets k = []) as ->.
    { unfold proximityBin in po. subst po. case_decide; [|lia].
      unfold len in Hblen. destruct (buckets k); [done | simpl in Hblen; lia]. }
    simpl. lia.
Qed.

(** X15. On a reachable table that holds at most [max] nodes, [FindClosest]
    with a positive [max] returns every node of the table. *)
Theorem FindClosest_all k target max :
  reachable proximity k -> 0 < max ->
  occupancy (buckets k) <= max ->
  exists nodes,
    FindClosest proximity distance k target max = Returned nodes
    ∧ forall (i : nat) b p, buckets k !! i = Some b -> p ∈ b -> p ∈ nodes.
Proof.
  intros Hk Hmax Hfew.
  destruct (FindClosest_scan_returns proximity distance k target max Hk)
    as [[s broke] Hscan].
  exists (sc_nodes s). unfold FindClosest. rewrite Hscan. simpl.
  split; [done|]. intros i b p Eb Hp.
  pose proof (FindClosest_scan_contents k target max s broke Hscan)
    as (_ & _ & _ & Hlim).
  rewrite decide_False in Hlim by lia.
  destruct (Hlim ltac:(lia)) as [_ Hperm].
  pose proof (FindClosest_scan_spec proximity distance _ _ _ _ _ Hscan)
    as (Hn & _ & [rest Hpre] & _ & _ & Hbrk & Hall).
  rewrite decide_False in Hbrk by lia.
  destruct (reachable_core_inv proximity k Hk) as (Hblen & _).
  set (po := proximityBin proximity k target) in *.
  pose proof (proximityBin_le proximity k target) as HpoM. fold po in HpoM.
  apply lookup_lt_Some in Eb as Hi.
  assert (0 <= po) as Hpo.
  { unfold proximityBin in po. subst po. unfold len in Hblen.
    case_decide; lia. }
  pose proof (peers_in_scan_order (buckets k) po (MaxProx (params k))
                ltac:(lia) Hblen) as Htotal.
  rewrite Hpre, peers_in_app, <- Hn in Htotal.
  pose proof (peers_in_nonneg (buckets k) rest).
  rewrite Hperm by lia.
  assert (Z.of_nat i ∈ sc_visited s ++ rest) as Hin.
  { rewrite <- Hpre, (scan_order_perm po (MaxProx (params k))) by lia.
    apply elem_of_seqZ. unfold len in Hblen. lia. }
  apply elem_of_app in Hin as [Hvis|Hrest].
  - unfold read_nodes. apply list_elem_of_bind. exists (Z.of_nat i).
    split; [|done]. by rewrite Nat2Z.id, Eb.
  - exfalso.
    pose proof (peers_in_elem (buckets k) rest (Z.of_nat i) b Hrest) as Hb.
    rewrite Nat2Z.id in Hb. specialize (Hb Eb).
    assert (0 < len b) by (destruct b; [by apply elem_of_nil in Hp
                                       | unfold len; simpl; lia]).
    destruct broke.
    + destruct (Hbrk eq_refl) as (Hmin & _). lia.
    + specialize (Hall eq_refl Hpo). rewrite Hall in Hpre.
      assert (rest = []) as ->.
      { apply (f_equal length) in Hpre. rewrite length_app in Hpre.
        destruct rest; [done | simpl in Hpre; lia]. }
      by apply elem_of_nil in Hrest.
Qed.
End Contents.

(** ** More on [On], [Off] and [push] *)

Section Moves.
Context {Address : Type} `{Countable Address}.
Variable proximity : Address -> Address -> nat.
Variable distance : Address -> Address -> N.
Implicit Types (k : Kademlia Address) (node p q : Node Address)
  (bucket nodes : list (Node Address)) (target : Address).

Lemma expand_le (bs : list (list (Node Address))) pbs r ps pl ps' pl' :
  expand bs pbs r ps pl = Returned (ps', pl') -> pl' <= pl.
Proof.
  funelim (expand bs pbs r ps pl); intros Hret; try discriminate.
  - injection Hret as <- <-. lia.
  - match goal with
    | IH : forall _ _, _ |- _ => specialize (IH ps' pl' Hret)
    end. lia.
Qed.

Lemma setProxLimit_moves k r on k' :
  setProxLimit k r on = Returned k' ->
  if on then proxLimit k <= proxLimit k' else proxLimit k' <= proxLimit k.
Proof.
  unfold setProxLimit. intros Hs.
  assert (forall o : outcome bool,
            o ≫= (fun outside : bool =>
              if outside then Returned k
              else if on
                   then b ← at_index (buckets k) (proxLimit k);
                        sl ← contract (buckets k) (ProxBinSize (params k))
                               (proxSize k + 1) (proxLimit k) (len b);
                        Returned (with_prox k sl)
                   else sl ← expand (buckets k) (ProxBinSize (params k)) r
                               (if decide (r >= proxLimit k)
                                then proxSize k - 1 else proxSize k)
                               (proxLimit k);
                        Returned (with_prox k sl)) = Returned k' ->
            if on then proxLimit k <= proxLimit k'
            else proxLimit k' <= proxLimit k) as Hgen.
  { intros [[|]| |] Ho; simpl in Ho; try discriminate.
    - simplify_eq. destruct on; lia.
    - destruct on.
      + destruct (at_index (buckets k) (proxLimit k)); simpl in Ho;
          try discriminate.
        destruct (contract _ _ _ _ _) as [[ps' pl']| |] eqn:Ec; simpl in Ho;
          try discriminate.
        simplify_eq. simpl.
        destruct (contract_moves _ _ _ _ _ _ _ Ec) as [[_ ->]|?]; lia.
      + destruct (expand _ _ _ _ _) as [[ps' pl']| |] eqn:Ee; simpl in Ho;
          try discriminate.
        simplify_eq. simpl. by apply expand_le in Ee. }
  exact (Hgen _ Hs).
Qed.

(** X16. [On] only raises the boundary and [Off] only lowers it:
    [proxLimit] never decreases in a call of [On] and never increases in a
    call of [Off]. *)
Theorem boundary_monotone k node :
  (forall cb now k' err dropped,
     On proximity k node cb now = Returned (k', err, dropped) ->
     proxLimit k <= proxLimit k')
  ∧ (forall cb k' called,
       Off proximity k node cb = Returned (k', called) ->
       proxLimit k' <= proxLimit k).
Proof.
  split.
  - intros cb now k' err dropped Hon. apply On_inv in Hon. simpl in Hon.
    destruct Hon as [(e & _ & -> & _)
      | (_ & bucket & Hb & [(Hlt & k2 & Hs & -> & _)
                           | [(Hge & idle & pos & _ & -> & _)
                             | (Hge & idle & pos & replaced & _ & -> & _)]])];
      simpl; try lia.
    by apply setProxLimit_moves in Hs.
  - intros cb k' called Hoff. apply Off_inv in Hoff. simpl in Hoff.
    destruct Hoff as (bucket & k1 & record & Hb & Hrm & _ & -> & _). simpl.
    destruct Hrm as [(i & Hf & Hs) | (_ & ->)]; [|lia].
    by apply setProxLimit_moves in Hs.
Qed.

(** X17. A call of [On] that returns an error, of either kind, leaves the
    buckets, [count], [proxLimit] and [proxSize] as they were and drops no
    node; a call that returns no error raises [count] by exactly one and
    drops at most one node. *)
Theorem On_error_or_count k node cb now k' err dropped :
  On proximity k node cb now = Returned (k', err, dropped) ->
  (is_Some err ->
   buckets k' = buckets k ∧ count k' = count k
   ∧ proxLimit k' = proxLimit k ∧ proxSize k' = proxSize k
   ∧ dropped = [])
  ∧ (err = None -> count k' = count k + 1 ∧ (length dropped <= 1)%nat).
Proof.
  intros Hon. apply On_buckets in Hon as (_ & _ & Hcases).
  destruct Hcases as [(? & ? & ? & ? & [e ->] & ->)
    | [(bucket & _ & _ & _ & ? & -> & ->)
      | (bucket & pos & replaced & _ & _ & _ & ? & _ & _ & -> & ->)]].
  - split; [done | discriminate].
  - split; [by intros [? ?] | by simpl; auto].
  - split; [by intros [? ?] | by simpl; auto].
Qed.

(** X18. The node that [On] replaces is the first of the members whose
    measured idle time (the clock reading taken for the member minus its
    [LastActive], within the range of a [Duration]) is the largest: that
    time is at least the one measured for every member and strictly more
    than the one measured for every member before it, and the new node
    takes its position. *)
Theorem On_replaces_first_idlest k node cb now k' replaced :
  let idle := fun (i : nat) (p : Node Address) =>
                Since (now i) (LastActive p) in
  On proximity k node cb now = Returned (k', None, [replaced]) ->
  exists bucket (pos : nat),
    at_index (buckets k) (proximityBin proximity k (Addr node))
      = Returned bucket
    ∧ bucket !! pos = Some replaced
    ∧ (forall (i : nat) q, bucket !! i = Some q ->
         idle i q <= idle pos replaced)
    ∧ (forall (j : nat) q, (j < pos)%nat -> bucket !! j = Some q ->
         idle j q < idle pos replaced)
    ∧ buckets k'
      = set_index (buckets k) (proximityBin proximity k (Addr node))
          (<[pos := node]> bucket).
Proof.
  intros idle Hon. apply On_inv in Hon. simpl in Hon.
  destruct Hon as [(e & _ & _ & ? & _)
    | (_ & bucket & Hb & [(Hlt & k2 & Hs & _ & _ & ?)
                         | [(Hge & idle0 & pos & _ & _ & ? & _)
                           | (Hge & idle0 & pos & r & Hi & -> & _ & Hd)]])];
    try discriminate.
  injection Hd as ->.
  apply idlest_spec in Hi; [|lia].
  change (Z.to_nat 0) with 0%nat in Hi. simpl in Hi.
  destruct Hi as (_ & Hall & [(_ & _ & ?)
                             | (_ & j & q & -> & Ej & Hq & -> & Hfirst)]);
    [discriminate|].
  injection Hq as ->.
  exists bucket, j. simpl. repeat split; auto.
  unfold set_index. by replace (Z.to_nat (0 + Z.of_nat j)) with j by lia.
Qed.

(** X11. [push] into a sorted list that holds fewer than [max] nodes
    inserts the node in order and keeps every node: it goes after the nodes
    strictly closer to the target and before the nodes at least as far. *)
Theorem push_inserts_in_order target nodes node max :
  sorted_by_distance distance target nodes ->
  len nodes < max ->
  exists before after,
    nodes = before ++ after
    ∧ push distance target nodes node max = before ++ node :: after
    ∧ Forall (fun p => (distance (Addr p) target
                        < distance (Addr node) target)%N) before
    ∧ Forall (fun q => by_distance distance target node q) after.
Proof.
  intros Hs Hroom.
  destruct (push_spec distance target nodes node max Hs)
    as (ix & _ & Hbefore & Hafter & Hpush).
  rewrite decide_True in Hpush by done.
  exists (take ix nodes), (drop ix nodes).
  split; [by rewrite take_drop|]. repeat split; auto.
Qed.

(** Within the range of a [Duration] the measured time is the exact
    difference. *)
Lemma Since_exact now t :
  minDuration <= now - t <= maxDuration -> Since now t = now - t.
Proof.
  intros Hr. unfold Since, Sub. by rewrite !decide_False by lia.
Qed.

(** X19. Under a clock that shows one instant [t] at every reading, and
    when every [t - LastActive] fits a [Duration], the rotation of [On]
    is decided by the exact idle times: [On] returns "bucket full" exactly
    when no member has [t - LastActive] above [MaxIdleInterval], and
    otherwise it drops a member that no other member has been idle longer
    than. *)
Theorem On_bucket_full_frozen k node cb t bucket :
  let index := proximityBin proximity k (Addr node) in
  let record := snd (findOrCreate (db k) index (Addr node) (URL node)) in
  invoke cb record node = None ->
  at_index (buckets k) index = Returned bucket ->
  BucketSize (params k) <= len bucket ->
  Forall (fun p => minDuration <= t - LastActive p <= maxDuration) bucket ->
  exists k' err dropped,
    On proximity k node cb (frozen t) = Returned (k', err, dropped)
    ∧ (err = Some BucketFull <->
       Forall (fun p => ¬ t - LastActive p > MaxIdleInterval (params k))
         bucket)
    ∧ (err ≠ Some BucketFull ->
       exists replaced,
         dropped = [replaced] ∧ replaced ∈ bucket
         ∧ t - LastActive replaced > MaxIdleInterval (params k)
         ∧ Forall (fun p => t - LastActive p <= t - LastActive replaced)
             bucket).
Proof.
  intros index record Hcb Hb Hfull Hfit. unfold On.
  fold index. subst record.
  destruct (findOrCreate (db k) index (Addr node) (URL node)) as [d record].
  simpl in Hcb. rewrite Hcb. simpl. rewrite Hb. simpl.
  rewrite decide_False by lia.
  destruct (idlest (frozen t) bucket 0 (MaxIdleInterval (params k)) 0 None)
    as [[idle' pos] repl] eqn:Ei.
  apply idlest_spec in Ei as (Hle & Hall & Hcase); [|lia].
  unfold frozen in Hall, Hcase.
  assert (forall (j : nat) q, bucket !! j = Some q ->
            Since t (LastActive q) = t - LastActive q) as Hexact.
  { intros j q Eq. apply Since_exact.
    exact (Forall_lookup_1 _ _ _ _ Hfit Eq). }
  destruct Hcase as [(-> & -> & ->)
                    | (Hlt & j & p & -> & Ej & -> & -> & Hfirst)].
  - eexists _, _, _. split; [reflexivity|]. split.
    + split; [intros _ | done]. apply Forall_lookup_2. intros i q Eq.
      specialize (Hall i q Eq). rewrite (Hexact i q Eq) in Hall. lia.
    + done.
  - rewrite (Hexact _ _ Ej) in Hlt.
    eexists _, _, _. split; [reflexivity|]. split.
    + split; [discriminate|]. intros Hnone. exfalso.
      apply (Forall_lookup_1 _ _ _ _ Hnone Ej). lia.
    + intros _. exists p. split; [done|].
      split; [by eapply list_elem_of_lookup_2|]. split; [lia|].
      apply Forall_lookup_2. intros i q Eq. specialize (Hall i q Eq).
      by rewrite (Hexact i q Eq), (Hexact j p Ej) in Hall.
Qed.
End Moves.

(** ** The properties on the example tables *)

Lemma reachable_spread_again : reachable Bits.proximity Bits.spread_again.
Proof.
  unfold Bits.spread_again. repeat apply reachable_join. apply reachable_fresh.
Qed.

Lemma boundary_in_range_witness :
  len (buckets Bits.spread) = MaxProx (params Bits.spread) + 1
  ∧ 0 <= proxLimit Bits.spread
  ∧ (proxLimit Bits.spread = 0
     ∨ proxLimit Bits.spread <= MaxProx (params Bits.spread))
  ∧ 0 <= proxSize Bits.spread <= occupancy (buckets Bits.spread).
Proof.
  exact (boundary_in_range Bits.proximity Bits.spread reachable_spread).
Defined.

Lemma core_is_minimal_witness :
  [Bits.lone] = []
  ∨ core_occupancy Bits.spread - len [Bits.lone]
    < ProxBinSize (params Bits.spread).
Proof.
  refine (core_is_minimal Bits.proximity Bits.spread [Bits.lone]
            reachable_spread _ _).
  - vm_compute. repeat split; discriminate.
  - vm_compute. reflexivity.
Defined.

Lemma boundary_canonical_witness :
  proxLimit Bits.spread = proxLimit Bits.spread_again
  ∧ proxSize Bits.spread = proxSize Bits.spread_again.
Proof.
  refine (boundary_canonical Bits.proximity Bits.spread Bits.spread_again
            reachable_spread reachable_spread_again _ _ _ _).
  - vm_compute. repeat split; discriminate.
  - vm_compute. repeat split; discriminate.
  - vm_compute. reflexivity.
  - vm_compute. reflexivity.
Defined.

Lemma On_never_panics_witness :
  exists k' err dropped,
    On Bits.proximity Bits.spread Bits.fifth None (frozen 100)
      = Returned (k', err, dropped).
Proof.
  refine (On_never_panics Bits.proximity Bits.spread Bits.fifth None
            (frozen 100) reachable_spread _ _ _).
  - vm_compute. discriminate.
  - vm_compute. reflexivity.
  - vm_compute. repeat split; discriminate.
Defined.

Lemma members_placed_and_registered_witness :
  proximityBin Bits.proximity Bits.spread (Addr Bits.lone) = Z.of_nat 3
  ∧ is_Some (db_index (db Bits.spread) !! Addr Bits.lone).
Proof.
  refine (members_placed_and_registered Bits.proximity Bits.spread 3
            [Bits.lone] Bits.lone reachable_spread _ _).
  - vm_compute. reflexivity.
  - constructor.
Defined.


Lemma On_stores_node_witness :
  exists b record,
    at_index (buckets Bits.single)
      (proximityBin Bits.proximity Bits.fresh (Addr Bits.lone)) = Returned b
    ∧ Bits.lone ∈ b
    ∧ db_index (db Bits.single) !! Addr Bits.lone = Some record
    ∧ rec_node record = Some Bits.lone.
Proof.
  refine (On_stores_node Bits.proximity Bits.fresh Bits.lone None
            (frozen 100) Bits.single [] _).
  vm_compute. reflexivity.
Defined.

Lemma On_then_Off_witness :
  exists k2 called,
    Off Bits.proximity Bits.single Bits.lone false = Returned (k2, called)
    ∧ buckets k2 = buckets Bits.fresh
    ∧ proxLimit k2 = proxLimit Bits.fresh ∧ proxSize k2 = proxSize Bits.fresh
    ∧ count k2 = count Bits.fresh.
Proof.
  refine (On_then_Off Bits.proximity Bits.fresh Bits.lone None (frozen 100)
            Bits.single [] false reachable_fresh _ _ _ _).
  - vm_compute. repeat split; discriminate.
  - vm_compute. reflexivity.
  - constructor.
  - vm_compute. reflexivity.
Defined.

Lemma registry_frame_witness :
  (forall a, a ≠ Addr Bits.lone ->
     db_index (db Bits.single) !! a = db_index (db Bits.fresh) !! a)
  ∧ is_Some (db_index (db Bits.single) !! Addr Bits.lone).
Proof.
  refine (proj1 (registry_frame Bits.proximity Bits.fresh Bits.lone)
            None (frozen 100) Bits.single None [] _).
  vm_compute. reflexivity.
Defined.

Lemma sortedByDistanceTo_iff_witness :
  sorted_by_distance Bits.distance Bits.target3 [Bits.lone; Bits.fifth].
Proof.
  refine (proj1 (sortedByDistanceTo_iff Bits.distance Bits.target3
                   [Bits.lone; Bits.fifth]) _).
  vm_compute. reflexivity.
Defined.

Lemma push_inserts_in_order_witness :
  exists before after,
    [Bits.lone] = before ++ after
    ∧ push Bits.distance Bits.target3 [Bits.lone] Bits.fifth 3
      = before ++ Bits.fifth :: after
    ∧ Forall (fun p => (Bits.distance (Addr p) Bits.target3
                        < Bits.distance (Addr Bits.fifth) Bits.target3)%N)
        before
    ∧ Forall (fun q => by_distance Bits.distance Bits.target3 Bits.fifth q)
        after.
Proof.
  refine (push_inserts_in_order Bits.distance Bits.target3 [Bits.lone]
            Bits.fifth 3 _ _).
  - repeat constructor.
  - vm_compute. reflexivity.
Defined.

Lemma push_evicts_farthest_witness :
  exists evicted,
    Bits.fifth :: [Bits.lone]
      ≡ₚ evicted :: push Bits.distance Bits.target3 [Bits.lone] Bits.fifth 1
    ∧ Forall (fun p => by_distance Bits.distance Bits.target3 p evicted)
        (push Bits.distance Bits.target3 [Bits.lone] Bits.fifth 1)
    ∧ len (push Bits.distance Bits.target3 [Bits.lone] Bits.fifth 1)
      = len [Bits.lone].
Proof.
  refine (push_evicts_farthest Bits.distance Bits.target3 [Bits.lone]
            Bits.fifth 1 _ _).
  - repeat constructor.
  - vm_compute. discriminate.
Defined.

Lemma FindClosest_members_witness :
  exists (i : nat) b, buckets Bits.single !! i = Some b ∧ Bits.lone ∈ b.
Proof.
  refine (FindClosest_members Bits.proximity Bits.distance Bits.single
            Bits.target3 3 [Bits.lone] Bits.lone _ _).
  - vm_compute. reflexivity.
  - constructor.
Defined.

Lemma FindClosest_length_witness :
  exists nodes,
    FindClosest Bits.proximity Bits.distance Bits.spread Bits.target3 3
      = Returned nodes
    ∧ len nodes = Z.min 3 (occupancy (buckets Bits.spread)).
Proof.
  refine (FindClosest_length Bits.proximity Bits.distance Bits.spread
            Bits.target3 3 reachable_spread _).
  lia.
Defined.

Lemma FindClosest_all_witness :
  exists nodes,
    FindClosest Bits.proximity Bits.distance Bits.single Bits.target3 3
      = Returned nodes
    ∧ forall (i : nat) b p,
        buckets Bits.single !! i = Some b -> p ∈ b -> p ∈ nodes.
Proof.
  refine (FindClosest_all Bits.proximity Bits.distance Bits.single
            Bits.target3 3 reachable_single _ _).
  - lia.
  - vm_compute. discriminate.
Defined.

Lemma boundary_monotone_witness :
  proxLimit Bits.fresh <= proxLimit Bits.single.
Proof.
  refine (proj1 (boundary_monotone Bits.proximity Bits.fresh Bits.lone)
            None (frozen 100) Bits.single None [] _).
  vm_compute. reflexivity.
Defined.

Lemma On_error_or_count_witness :
  count Bits.single = count Bits.fresh + 1 ∧ (length (@nil (Node Bits.Address)) <= 1)%nat.
Proof.
  refine (proj2 (On_error_or_count Bits.proximity Bits.fresh Bits.lone None
                   (frozen 100) Bits.single None [] _) eq_refl).
  vm_compute. reflexivity.
Defined.

Lemma On_replaces_first_idlest_witness :
  exists bucket (pos : nat),
    at_index (buckets Bits.full8)
      (proximityBin Bits.proximity Bits.full8 (Addr Bits.fifth))
      = Returned bucket
    ∧ bucket !! pos = Some (Bits.peer (Bits.at_po 8 0) 0)
    ∧ (forall (i : nat) q, bucket !! i = Some q ->
         Since (frozen Bits.late i) (LastActive q)
         <= Since (frozen Bits.late pos)
              (LastActive (Bits.peer (Bits.at_po 8 0) 0)))
    ∧ (forall (j : nat) q, (j < pos)%nat -> bucket !! j = Some q ->
         Since (frozen Bits.late j) (LastActive q)
         < Since (frozen Bits.late pos)
             (LastActive (Bits.peer (Bits.at_po 8 0) 0)))
    ∧ buckets Bits.rotated
      = set_index (buckets Bits.full8)
          (proximityBin Bits.proximity Bits.full8 (Addr Bits.fifth))
          (<[pos := Bits.fifth]> bucket).
Proof.
  refine (On_replaces_first_idlest Bits.proximity Bits.full8 Bits.fifth None
            (frozen Bits.late) Bits.rotated (Bits.peer (Bits.at_po 8 0) 0) _).
  vm_compute. reflexivity.
Defined.

Lemma On_bucket_full_frozen_witness :
  exists k' replaced,
    On Bits.proximity Bits.full8 Bits.fifth None (frozen Bits.late)
      = Returned (k', None, [replaced])
    ∧ replaced ∈ Bits.bin8
    ∧ Bits.late - LastActive replaced > MaxIdleInterval (params Bits.full8)
    ∧ Forall (fun p => Bits.late - LastActive p
                       <= Bits.late - LastActive replaced) Bits.bin8.
Proof.
  destruct (On_bucket_full_frozen Bits.proximity Bits.full8 Bits.fifth None
              Bits.late Bits.bin8)
    as (k' & err & dropped & Hon & Hiff & Hrepl).
  - reflexivity.
  - vm_compute. reflexivity.
  - vm_compute. discriminate.
  - unfold Bits.bin8.
    repeat (apply Forall_cons; split; [vm_compute; split; discriminate|]).
    constructor.
  - assert (err ≠ Some BucketFull) as Hne.
    { intros He. apply (proj1 Hiff) in He.
      apply (Forall_lookup_1 _ _ 0%nat _ He eq_refl).
      vm_compute. reflexivity. }
    destruct (Hrepl Hne) as (replaced & -> & Hin & Hidle & Hmax).
    assert (err = None) as ->.
    { revert Hon. vm_compute. intros Hon. by injection Hon as _ <- _. }
    exists k', replaced. split; [exact Hon|]. split; [exact Hin|].
    split; [exact Hidle | exact Hmax].
Defined.
